(** * FaceCube: depth thresholding, segmentation and point-cloud export

    A shallow embedding of [facecube.py] (classes [PlyWriter] and [FaceCube])
    together with the parts of numpy and scipy.ndimage the two classes call.

    Conventions of the embedding.
    - A 2-D numpy array is a list of rows.  Integer arrays hold [Z] (the
      capture is uint16, every later array is int64 and no operation of the
      program leaves that range), boolean arrays hold [bool].
    - Python floats and numpy float64 values are idealised as exact rationals
      [Q]: rounding is not modelled.  The one place where numpy can produce an
      infinity (a float64 division by zero in [generate_threshold], which
      numpy answers with a warning and [inf], not with an exception) is
      written out, see [cutoff].  Where the outcome of the program turns on
      rounding (a window of 0 in [generate_threshold], where the exact cutoff
      is the closest reading itself), module [Binary64] evaluates the same
      expression in IEEE 754 binary64 with the kernel's floats.
    - A Python exception is a value [Raise cls msg]; a method that can raise
      returns a [result]. *)

From Stdlib Require Import String.
From Stdlib Require Import ZArith QArith Qabs List Bool Arith Lia Lqa FinFun.
From Stdlib Require PrimFloat Uint63.
Import ListNotations.

Set Implicit Arguments.

Open Scope Z_scope.

(** ** Exceptions *)

Record exn : Type := Raise { exn_class : string; exn_msg : string }.

Inductive result (A : Type) : Type :=
| Ok (a : A)
| Err (e : exn).

Arguments Ok {A} a.
Arguments Err {A} e.

Definition bind {A B : Type} (r : result A) (k : A -> result B) : result B :=
  match r with
  | Ok a => k a
  | Err e => Err e
  end.

Notation "x <- r ;; k" := (bind r (fun x => k))
  (at level 61, r at next level, right associativity).

(** [fails_with cls r]: the call raised an exception of class [cls]. *)
Definition fails_with {A : Type} (cls : string) (r : result A) : Prop :=
  exists msg, r = Err (Raise cls msg).

(** ** numpy *)

Module np.

Definition ndarray (A : Type) : Type := list (list A).

(** [array.shape] of a 2-D array. *)
Definition shape {A : Type} (a : ndarray A) : nat * nat :=
  (length a, match a with [] => O | row :: _ => length row end).

(** All rows have the width that [shape] reports. *)
Definition rect {A : Type} (a : ndarray A) : Prop :=
  Forall (fun row => length row = snd (shape a)) a.

(** Element-wise application of a scalar operation. *)
Definition amap {A B : Type} (f : A -> B) (a : ndarray A) : ndarray B :=
  map (map f) a.

(** [a[i, j]] for indices inside the array; [d] outside. *)
Definition get {A : Type} (d : A) (a : ndarray A) (i j : nat) : A :=
  nth j (nth i a []) d.

(** An [h] by [w] array given by its entries. *)
Definition tabulate {A : Type} (h w : nat) (f : nat -> nat -> A) : ndarray A :=
  map (fun i => map (fun j => f i j) (seq 0 w)) (seq 0 h).

(** [array.ravel()]: the entries in row-major order. *)
Definition ravel {A : Type} (a : ndarray A) : list A := concat a.

Definition zero_size_reduction (op : string) : exn :=
  Raise "ValueError"
    ("zero-size array to reduction operation " ++ op ++ " which has no identity").

(** [numpy.amax(array)] *)
Definition amax (a : ndarray Z) : result Z :=
  match ravel a with
  | [] => Err (zero_size_reduction "maximum")
  | v :: vs => Ok (fold_left Z.max vs v)
  end.

(** [numpy.amin(array)] *)
Definition amin (a : ndarray Z) : result Z :=
  match ravel a with
  | [] => Err (zero_size_reduction "minimum")
  | v :: vs => Ok (fold_left Z.min vs v)
  end.

(** The coordinates [(i, j)] of one row's nonzero entries. *)
Fixpoint argwhere_row (i j : nat) (row : list Z) : list (nat * nat) :=
  match row with
  | [] => []
  | v :: vs =>
      (if v =? 0 then [] else [(i, j)]) ++ argwhere_row i (S j) vs
  end.

Fixpoint argwhere_from (i : nat) (a : ndarray Z) : list (nat * nat) :=
  match a with
  | [] => []
  | row :: rows => argwhere_row i O row ++ argwhere_from (S i) rows
  end.

(** [numpy.argwhere(array)]: coordinates of the nonzero entries, row-major. *)
Definition argwhere (a : ndarray Z) : list (nat * nat) := argwhere_from O a.

(** [a.min(0)] of an [n] by 2 coordinate array: the column-wise minimum. *)
Definition min0 (a : list (nat * nat)) : result (nat * nat) :=
  match a with
  | [] => Err (zero_size_reduction "minimum")
  | p :: ps =>
      Ok (fold_left (fun m q => (Nat.min (fst m) (fst q), Nat.min (snd m) (snd q))) ps p)
  end.

(** [a.max(0)] of an [n] by 2 coordinate array: the column-wise maximum. *)
Definition max0 (a : list (nat * nat)) : result (nat * nat) :=
  match a with
  | [] => Err (zero_size_reduction "maximum")
  | p :: ps =>
      Ok (fold_left (fun m q => (Nat.max (fst m) (fst q), Nat.max (snd m) (snd q))) ps p)
  end.

(** [a[i, j]] with Python's index rules: a negative index counts from the
    end, an index outside [-n, n) raises IndexError. *)
Definition norm_index (n : nat) (k : Z) : result nat :=
  if (0 <=? k) && (k <? Z.of_nat n) then Ok (Z.to_nat k)
  else if (- Z.of_nat n <=? k) && (k <? 0) then Ok (Z.to_nat (k + Z.of_nat n))
  else Err (Raise "IndexError" "index out of bounds").

Definition item (a : ndarray Z) (p : Z * Z) : result (nat * nat) :=
  i <- norm_index (fst (shape a)) (fst p) ;;
  j <- norm_index (snd (shape a)) (snd p) ;;
  Ok (i, j).

(** [a[i, j]] for the indices [i], [j] of a [range] loop, which are never
    negative: IndexError when one of them is outside the array's shape. *)
Definition getitem {A : Type} (d : A) (a : ndarray A) (i j : nat) : result A :=
  if (i <? fst (shape a))%nat && (j <? snd (shape a))%nat
  then Ok (get d a i j)
  else Err (Raise "IndexError" "index out of bounds").

End np.

(** ** Calibration arithmetic shared by both classes

    The source writes the conversion inline, [1000.0/(-0.00307 * raw + 3.33)]
    (millimetres, in [PlyWriter]) and [100.0/(-0.00307 * raw + 3.33)]
    (centimetres, in [FaceCube.generate_threshold]). *)

Open Scope Q_scope.

Definition denominator (raw : Z) : Q := -0.00307 * inject_Z raw + 3.33.

Definition distance_mm (raw : Z) : Q := 1000 / denominator raw.

Definition distance_cm (raw : Z) : Q := 100 / denominator raw.

Close Scope Q_scope.

(** ** scipy.ndimage

    The functions of scipy.ndimage that the program calls, with the arguments
    it calls them with (default structuring element, default boundary mode),
    written from scipy's documented behaviour. *)

Module ndimage.

Definition pixel : Type := (nat * nat)%type.

Definition pixel_eqb (p q : pixel) : bool :=
  Nat.eqb (fst p) (fst q) && Nat.eqb (snd p) (snd q).

Definition mem (p : pixel) (s : list pixel) : bool := existsb (pixel_eqb p) s.

(** The default structuring element [generate_binary_structure(2, 1)]:
    a pixel's neighbours are the four pixels that share an edge with it. *)
Definition adjacent (p q : pixel) : bool :=
  (Nat.eqb (fst p) (fst q)
     && (Nat.eqb (snd p) (S (snd q)) || Nat.eqb (S (snd p)) (snd q)))
  || (Nat.eqb (snd p) (snd q)
     && (Nat.eqb (fst p) (S (fst q)) || Nat.eqb (S (fst p)) (fst q))).

(** The pixels of an array, in raster (row-major) order. *)
Definition indices {A : Type} (a : np.ndarray A) : list pixel :=
  flat_map (fun i => map (pair i) (seq 0 (length (nth i a [])))) (seq 0 (length a)).

(** An array of the shape of [a] given by its entries. *)
Definition like {A B : Type} (a : np.ndarray A) (f : nat -> nat -> B) : np.ndarray B :=
  map (fun i => map (fun j => f i j) (seq 0 (length (nth i a [])))) (seq 0 (length a)).

(** *** Region growing

    [grow inside universe s] adds to [s] the pixels of the region [inside]
    that touch [s]; [flood] repeats it once per pixel of the array, after
    which nothing more can be added. *)
Definition grow (inside : pixel -> bool) (universe s : list pixel) : list pixel :=
  s ++ filter (fun q => inside q && negb (mem q s) && existsb (adjacent q) s) universe.

Fixpoint flood (n : nat) (inside : pixel -> bool) (universe s : list pixel)
  : list pixel :=
  match n with
  | O => s
  | S n' => flood n' inside universe (grow inside universe s)
  end.

(** *** label *)

(** Nonzero entries are the features' pixels. *)
Definition foreground (a : np.ndarray Z) (p : pixel) : bool :=
  negb (np.get 0 a (fst p) (snd p) =? 0).

(** The feature (4-connected region of nonzero entries) that holds [p]. *)
Definition component (a : np.ndarray Z) (p : pixel) : list pixel :=
  if foreground a p
  then flood (length (indices a)) (foreground a) (indices a) [p]
  else [].

(** The first pixel, in raster order, of the feature that holds [p]. *)
Definition root (a : np.ndarray Z) (p : pixel) : option pixel :=
  find (fun r => mem p (component a r)) (indices a).

(** The first pixels of all features, in raster order. *)
Definition roots (a : np.ndarray Z) : list pixel :=
  filter (fun r => match root a r with
                   | Some r' => pixel_eqb r r'
                   | None => false
                   end) (indices a).

Fixpoint index_of (p : pixel) (s : list pixel) : nat :=
  match s with
  | [] => O
  | q :: s' => if pixel_eqb p q then O else S (index_of p s')
  end.

(** The label of [p]: 0 on the background, otherwise the rank (from 1) of
    [p]'s feature in the order in which the raster scan meets the features. *)
Definition label_at (a : np.ndarray Z) (p : pixel) : Z :=
  match root a p with
  | Some r => Z.of_nat (S (index_of r (roots a)))
  | None => 0
  end.

(** [scipy.ndimage.measurements.label(input)]: the array of labels and the
    number of features. *)
Definition label (a : np.ndarray Z) : np.ndarray Z * nat :=
  (like a (fun i j => label_at a (i, j)), length (roots a)).

(** *** binary_erosion and binary_fill_holes *)

(** [binary_erosion(mask)]: a pixel survives when it and its four neighbours
    are set; outside the array counts as unset (border_value 0). *)
Definition binary_erosion (mask : np.ndarray bool) : np.ndarray bool :=
  like mask (fun i j =>
    np.get false mask i j
    && (match i with O => false | S i' => np.get false mask i' j end)
    && np.get false mask (S i) j
    && (match j with O => false | S j' => np.get false mask i j' end)
    && np.get false mask i (S j)).

(** A pixel on the rim of the array: one of its neighbours is outside. *)
Definition on_border {A : Type} (a : np.ndarray A) (p : pixel) : bool :=
  Nat.eqb (fst p) 0 || Nat.eqb (S (fst p)) (length a)
  || Nat.eqb (snd p) 0 || Nat.eqb (S (snd p)) (length (nth (fst p) a [])).

(** [binary_fill_holes(mask)]: the unset pixels that the outside of the
    array reaches through unset pixels stay unset; every other pixel is
    set. *)
Definition binary_fill_holes (mask : np.ndarray bool) : np.ndarray bool :=
  let unset := fun p : pixel => negb (np.get false mask (fst p) (snd p)) in
  let seeds := filter (fun p => unset p && on_border mask p) (indices mask) in
  let outside := flood (length (indices mask)) unset (indices mask) seeds in
  like mask (fun i j => negb (mem (i, j) outside)).

(** *** grey_closing *)

(** Boundary mode "reflect", (d c b a | a b c d | d c b a): the index inside
    [0, n) that position [k] of the extended line reads. *)
Definition reflect (n : nat) (k : Z) : nat :=
  let m := k mod (2 * Z.of_nat n) in
  Z.to_nat (if m <? Z.of_nat n then m else 2 * Z.of_nat n - 1 - m).

(** The offsets a 1-D filter of [size] entries with [origin] reads around
    each position: from [-(size/2 + origin)] upwards. *)
Definition window (size origin : Z) : list Z :=
  map (fun k => Z.of_nat k - (size / 2 + origin)) (seq 0 (Z.to_nat size)).

Definition reduce (sel : Z -> Z -> Z) (vs : list Z) : Z :=
  match vs with
  | [] => 0
  | v :: vs' => fold_left sel vs' v
  end.

(** [minimum_filter1d] / [maximum_filter1d] along axis 0 (down the columns). *)
Definition filter_axis0 (sel : Z -> Z -> Z) (size origin : Z) (a : np.ndarray Z)
  : np.ndarray Z :=
  like a (fun i j =>
    reduce sel (map (fun off => np.get 0 a (reflect (length a) (Z.of_nat i + off)) j)
                    (window size origin))).

(** The same along axis 1 (along the rows). *)
Definition filter_axis1 (sel : Z -> Z -> Z) (size origin : Z) (a : np.ndarray Z)
  : np.ndarray Z :=
  like a (fun i j =>
    reduce sel (map (fun off =>
                       np.get 0 a i (reflect (length (nth i a [])) (Z.of_nat j + off)))
                    (window size origin))).

(** [_min_or_max_filter] with a [size]: the filter is separable, one 1-D
    pass per axis, and an axis whose size is not above 1 is skipped (with
    both skipped the input is copied to the output). *)
Definition min_or_max_filter (sel : Z -> Z -> Z) (size : Z * Z) (origin : Z * Z)
    (a : np.ndarray Z) : np.ndarray Z :=
  let a0 := if 1 <? fst size then filter_axis0 sel (fst size) (fst origin) a else a in
  if 1 <? snd size then filter_axis1 sel (snd size) (snd origin) a0 else a0.

(** [grey_erosion(input, size)]: the minimum over the window, origin 0. *)
Definition grey_erosion (a : np.ndarray Z) (size : Z * Z) : np.ndarray Z :=
  min_or_max_filter Z.min size (0, 0) a.

(** [grey_dilation(input, size)]: the maximum over the mirrored window; for
    an even size the origin moves by one ([if not sz & 1: origin -= 1]). *)
Definition grey_dilation (a : np.ndarray Z) (size : Z * Z) : np.ndarray Z :=
  let shift := fun sz : Z => if Z.even sz then -1 else 0 in
  min_or_max_filter Z.max size (shift (fst size), shift (snd size)) a.

(** [grey_closing(input, size)]: a dilation followed by an erosion. *)
Definition grey_closing (a : np.ndarray Z) (size : Z * Z) : np.ndarray Z :=
  grey_erosion (grey_dilation a size) size.

End ndimage.

(** ** class PlyWriter *)

Module PlyWriter.

(** A point of the cloud, [(x, y, z)]. *)
Definition point : Type := (Q * Q * Q)%type.

(** A line of the PLY file.  The [%d] and [%f] conversions are not modelled:
    a line holds the numbers that are formatted. *)
Inductive line : Type :=
| Text (s : string)
| ElementVertex (n : nat)
| Vertex (x y z : Q).

(** The files [open(name, 'w')] has written, newest first. *)
Definition filesystem : Type := list (string * list line).

(** The attributes of a writer; [dims] and [scale] exist only once [save]
    has assigned them. *)
Record t : Type := mk {
  name : string;
  z_p : Q;
  dims : option (nat * nat);
  scale : option Q
}.

Definition init (name : string) : t :=
  {| name := name; z_p := 0%Q; dims := None; scale := None |}.

Definition getattr {A : Type} (attr : string) (v : option A) : result A :=
  match v with
  | Some a => Ok a
  | None => Err (Raise "AttributeError" attr)
  end.

(** [for ... in ...: points.append(...)] with a body that can raise. *)
Fixpoint for_each {A B : Type} (xs : list A) (body : A -> result (list B))
  : result (list B) :=
  match xs with
  | [] => Ok []
  | x :: xs' =>
      ys <- body x ;;
      zs <- for_each xs' body ;;
      Ok (ys ++ zs)
  end.

(** [self.dims[0] / 2] is Python 2's integer division. *)
Definition to_world (self : t) (p : Z * Z) : result (Q * Q) :=
  d <- getattr "dims" (dims self) ;;
  s <- getattr "scale" (scale self) ;;
  Ok ((inject_Z (fst p - Z.of_nat (fst d) / 2) * s)%Q,
      (inject_Z (snd p - Z.of_nat (snd d) / 2) * s)%Q).

Definition b2q (b : bool) : Q := if b then 1%Q else 0%Q.

Definition nonzero (v : Z) : bool := negb (v =? 0).

Definition pixel_z (p : nat * nat) : Z * Z := (Z.of_nat (fst p), Z.of_nat (snd p)).

Definition mesh_points (self : t) (array : np.ndarray Z) : result (list point) :=
  let array :=
    np.amap (fun v => (b2q (nonzero v) * 1000 / (-0.00307 * inject_Z v + 3.33))%Q) array in
  d <- getattr "dims" (dims self) ;;
  for_each (seq 0 (fst d)) (fun i =>
    for_each (seq 0 (snd d)) (fun j =>
      z <- np.getitem 0%Q array i j ;;
      if negb (Qeq_bool z 0)
      then xy <- to_world self (pixel_z (i, j)) ;;
           Ok [(fst xy, snd xy, z)]
      else Ok [])).

(** [mask = array != 0], filled unless [leave_holes]. *)
Definition silhouette (array : np.ndarray Z) (leave_holes : bool) : np.ndarray bool :=
  let mask := np.amap nonzero array in
  if leave_holes then mask else ndimage.binary_fill_holes mask.

(** The raw values [z + 1, ..., depth - 1] that the [while z < depth] loop
    of [outline_points] visits. *)
Definition wall_steps (z depth : Z) : list Z :=
  map (fun k => z + 1 + Z.of_nat k) (seq 0 (Z.to_nat (depth - (z + 1)))).

Definition outline_points (self : t) (array : np.ndarray Z) (depth : Z)
    (leave_holes : bool) : result (list point) :=
  let mask := silhouette array leave_holes in
  let eroded := ndimage.binary_erosion mask in
  let outline :=
    ndimage.like array (fun i j =>
      np.get 0 array i j
      * Z.b2z (xorb (np.get false mask i j) (np.get false eroded i j))) in
  d <- getattr "dims" (dims self) ;;
  for_each (seq 0 (fst d)) (fun i =>
    for_each (seq 0 (snd d)) (fun j =>
      z <- np.getitem 0 outline i j ;;
      if nonzero z
      then for_each (wall_steps z depth) (fun z' =>
             let z_mm := (1000 / (-0.00307 * inject_Z z' + 3.33))%Q in
             xy <- to_world self (pixel_z (i, j)) ;;
             Ok [(fst xy, snd xy, z_mm)])
      else Ok [])).

Definition back_points (self : t) (array : np.ndarray Z) (depth : Z)
    (leave_holes : bool) : result (list point) :=
  let mask := silhouette array leave_holes in
  let array := np.amap (fun b : bool => depth * Z.b2z b) mask in
  mesh_points self array.

Definition write_header (f : list line) (points : list point) : list line :=
  f ++ [Text "ply"; Text "format ascii 1.0"; ElementVertex (length points);
        Text "property float x"; Text "property float y";
        Text "property float z"; Text "end_header"].

Definition write_points (f : list line) (points : list point) (farthest : Q)
    (center : Q * Q) : list line :=
  f ++ map (fun p : point =>
              Vertex (fst (fst p) - fst center)%Q
                     (snd (fst p) - snd center)%Q
                     (farthest - snd p)%Q) points.

(** What [save] has computed when it reaches [open]. *)
Record cloud : Type := mkcloud {
  points : list point;
  center_mm : Q * Q;
  size_mm : Q * Q
}.

(** The body of [save] between the assignment of [self.scale] and
    [open(self.name, 'w')]. *)
Definition collect (self : t) (array : np.ndarray Z) (farthest : Z)
    (leave_holes : bool) : result cloud :=
  let a := np.argwhere array in
  lo <- np.min0 a ;;
  hi <- np.max0 a ;;
  let min_point := pixel_z lo in
  let max_point := (fst (pixel_z hi) + 1, snd (pixel_z hi) + 1) in
  min_point <- to_world self min_point ;;
  max_point <- to_world self max_point ;;
  let center_mm := (((fst min_point + fst max_point) / 2)%Q,
                    ((snd min_point + snd max_point) / 2)%Q) in
  let size_mm := ((fst max_point - fst min_point)%Q,
                  (snd max_point - snd min_point)%Q) in
  outline <- outline_points self array farthest leave_holes ;;
  back <- back_points self array farthest leave_holes ;;
  mesh <- mesh_points self array ;;
  Ok {| points := outline ++ back ++ mesh;
        center_mm := center_mm;
        size_mm := size_mm |}.

(** [save(array, leave_holes)]: the writer and the file system after the
    call, and the value returned or the exception raised. *)
Definition save (self : t) (fs : filesystem) (array : np.ndarray Z)
    (leave_holes : bool) : t * filesystem * result (Q * Q) :=
  match np.amax array with
  | Err e => (self, fs, Err e)
  | Ok farthest =>
      let farthest_mm := (1000 / (-0.00307 * inject_Z farthest + 3.33))%Q in
      let minDistance := (-100)%Z in
      let scaleFactor := 0.0021%Q in
      let self :=
        {| name := name self;
           z_p := farthest_mm;
           dims := Some (np.shape array);
           scale := Some ((farthest_mm + inject_Z minDistance) * scaleFactor)%Q |} in
      match collect self array farthest leave_holes with
      | Err e => (self, fs, Err e)
      | Ok c =>
          let f := write_header [] (points c) in
          let f := write_points f (points c) farthest_mm (center_mm c) in
          (self, (name self, f) :: fs, Ok (size_mm c))
      end
  end.

End PlyWriter.

(** ** class FaceCube *)

Module FaceCube.

Record t : Type := mk {
  depth : np.ndarray Z;
  threshold : option (np.ndarray Z);
  segmented : option (np.ndarray Z);
  selected_segment : option (Z * Z)
}.

(** [__init__], with the frame that the capture device delivers. *)
Definition init (frame : np.ndarray Z) : t :=
  {| depth := frame; threshold := None; segmented := None;
     selected_segment := None |}.

(** [depth_rotated.transpose()] *)
Definition transpose (a : np.ndarray Z) : np.ndarray Z :=
  np.tabulate (snd (np.shape a)) (fst (np.shape a)) (fun i j => np.get 0 a j i).

(** [update], with the frame that the capture device delivers. *)
Definition update (self : t) (depth_rotated : np.ndarray Z) : t :=
  {| depth := transpose depth_rotated;
     threshold := threshold self;
     segmented := segmented self;
     selected_segment := selected_segment self |}.

(** [v + 2047 * (v <= 500)] *)
Definition rewrap (v : Z) : Z := v + 2047 * Z.b2z (v <=? 500).

(** The value of [farthest] in [generate_threshold].  numpy's float64
    division by zero does not raise: [100/0.0] is [inf], and
    [(inf - 3.33)/-0.00307] is [-inf]. *)
Inductive cutoff_value : Type :=
| Finite (q : Q)
| MinusInf.

Definition cutoff (closest : Z) (face_depth : Q) : cutoff_value :=
  let closest_cm := (100 / (-0.00307 * inject_Z closest + 3.33))%Q in
  if Qeq_bool (closest_cm + face_depth) 0
  then MinusInf
  else Finite ((100 / (closest_cm + face_depth) - 3.33) / -0.00307)%Q.

(** [v <= farthest] *)
Definition within (v : Z) (farthest : cutoff_value) : bool :=
  match farthest with
  | Finite q => Qle_bool (inject_Z v) q
  | MinusInf => false
  end.

Definition generate_threshold (self : t) (face_depth : Q) : result t :=
  let depth := np.amap rewrap (depth self) in
  closest <- np.amin depth ;;
  let farthest := cutoff closest face_depth in
  Ok {| depth := depth;
        threshold := Some (np.amap (fun v => v * Z.b2z (within v farthest)) depth);
        segmented := segmented self;
        selected_segment := selected_segment self |}.

(** [self.threshold] as an argument of [label].  Of [None], which numpy
    reads as an array without dimensions, [label] returns an array without
    dimensions, and indexing that with two indices raises IndexError. *)
Definition labelled (threshold : option (np.ndarray Z))
  : result (np.ndarray Z * np.ndarray Z) :=
  match threshold with
  | Some a => Ok (a, fst (ndimage.label a))
  | None => Err (Raise "IndexError" "too many indices for array")
  end.

(** [segments[point]] *)
Definition lookup (segments : np.ndarray Z) (p : Z * Z) : result Z :=
  ij <- np.item segments p ;;
  Ok (np.get 0 segments (fst ij) (snd ij)).

Definition select_segment (self : t) (p : Z * Z) : result t :=
  ts <- labelled (threshold self) ;;
  selected <- lookup (snd ts) p ;;
  if negb (selected =? 0)
  then Ok {| depth := depth self; threshold := threshold self;
             segmented := segmented self;
             selected_segment := Some (fst p, snd p) |}
  else Ok {| depth := depth self; threshold := threshold self;
             segmented := None;
             selected_segment := None |}.

(** [self.threshold * (segments == selected)] *)
Definition masked (a segments : np.ndarray Z) (selected : Z) : np.ndarray Z :=
  ndimage.like a (fun i j =>
    np.get 0 a i j * Z.b2z (np.get 0 segments i j =? selected)).

Definition segment (self : t) : result t :=
  match selected_segment self with
  | Some p =>
      ts <- labelled (threshold self) ;;
      selected <- lookup (snd ts) p ;;
      Ok {| depth := depth self; threshold := threshold self;
            segmented :=
              if negb (selected =? 0)
              then Some (masked (fst ts) (snd ts) selected)
              else None;
            selected_segment := selected_segment self |}
  | None => Ok self
  end.

Definition hole_fill (self : t) (window : Z) : t :=
  match segmented self with
  | Some a =>
      {| depth := depth self; threshold := threshold self;
         segmented := Some (ndimage.grey_closing a (window, window));
         selected_segment := selected_segment self |}
  | None => self
  end.

Definition get_array (self : t) : option (np.ndarray Z) :=
  match segmented self with
  | Some a => Some a
  | None => threshold self
  end.

End FaceCube.

(** ** generate_threshold in binary64

    The arithmetic of [generate_threshold] as Python and numpy carry it out:
    [closest] is an int64, the literals and [face_depth] are Python floats,
    every operation rounds to nearest in IEEE 754 binary64, and the
    comparison [self.depth <= farthest] converts each reading to float64. *)

Module Binary64.

Import PrimFloat.

(** An integer reading as a float64 (exact below 2^53). *)
Definition of_int (z : Z) : float :=
  if z <? 0 then (- of_uint63 (Uint63.of_Z (- z)))%float
  else of_uint63 (Uint63.of_Z z).

Set Warnings "-inexact-float".

(** [(100/(closest_cm + face_depth) - 3.33)/-0.00307] with
    [closest_cm = 100.0/(-0.00307 * closest + 3.33)], for [closest] already
    converted. *)
Definition cutoff_of (closest face_depth : float) : float :=
  let closest_cm := (100 / (-0.00307 * closest + 3.33))%float in
  ((100 / (closest_cm + face_depth) - 3.33) / -0.00307)%float.

Set Warnings "inexact-float".

Definition cutoff (closest : Z) (face_depth : float) : float :=
  cutoff_of (of_int closest) face_depth.

(** [v <= farthest] *)
Definition within (v : Z) (farthest : float) : bool :=
  (of_int v <=? farthest)%float.

Definition generate_threshold (self : FaceCube.t) (face_depth : float)
  : result FaceCube.t :=
  let depth := np.amap FaceCube.rewrap (FaceCube.depth self) in
  closest <- np.amin depth ;;
  let farthest := cutoff closest face_depth in
  Ok {| FaceCube.depth := depth;
        FaceCube.threshold :=
          Some (np.amap (fun v => v * Z.b2z (within v farthest)) depth);
        FaceCube.segmented := FaceCube.segmented self;
        FaceCube.selected_segment := FaceCube.selected_segment self |}.

(** Two checks by computation.  [none_within n v farthest]: none of the [n]
    readings from [v] on is within [farthest].  [scan n c]: for each of the
    [n] closest readings from [c] on, with a window of 0, none of the 2047
    readings behind the closest one is within the cutoff. *)
Fixpoint none_within (n : nat) (v : Uint63.int) (farthest : float) : bool :=
  match n with
  | O => true
  | S n' => negb (of_uint63 v <=? farthest)%float
            && none_within n' (Uint63.succ v) farthest
  end.

Fixpoint scan (n : nat) (c : Uint63.int) : bool :=
  match n with
  | O => true
  | S n' => none_within 2047 (Uint63.succ c) (cutoff_of (of_uint63 c) 0%float)
            && scan n' (Uint63.succ c)
  end.

(** The closest readings from 501 to 1084 that a window of 0 zeroes. *)
Definition zeroed_at_window_zero : list Z :=
  filter (fun c => negb (within c (cutoff c 0%float)))
         (map (fun k => 501 + Z.of_nat k) (seq 0 584)).

End Binary64.

(** * Vocabulary of the properties *)

(** ** Frames *)

(** Every pixel of the frame is zero. *)
Definition all_zero (a : np.ndarray Z) : Prop :=
  Forall (Forall (fun v => v = 0)) a.

(** The frame has at least one pixel. *)
Definition has_pixel {A : Type} (a : np.ndarray A) : Prop := np.ravel a <> [].

(** Every pixel of the frame satisfies [P]. *)
Definition every (P : Z -> Prop) (a : np.ndarray Z) : Prop :=
  Forall (Forall P) a.

(** The writer as [save] leaves it on a frame whose farthest raw value is 0:
    the three attributes are assigned before the bounding box is computed. *)
Definition configured (self : PlyWriter.t) (array : np.ndarray Z) : PlyWriter.t :=
  {| PlyWriter.name := PlyWriter.name self;
     PlyWriter.z_p := distance_mm 0;
     PlyWriter.dims := Some (np.shape array);
     PlyWriter.scale := Some ((distance_mm 0 + inject_Z (-100)) * 0.0021)%Q |}.

(** ** Thresholding as the specification words it

    The cutoff of the specification: the cutoff distance is
    [distance_mm closest + depthWindow], and it is mapped back to a raw value
    through the inverse of [distance_mm]. *)
Definition specified_cutoff (closest : Z) (depthWindow : Q) : Q :=
  let cutoffDistance := (distance_mm closest + depthWindow)%Q in
  ((1000 / cutoffDistance - 3.33) / -0.00307)%Q.

(** The threshold frame of the specification: rewrap, take the closest
    reading, zero exactly the pixels whose rewrapped raw value exceeds the
    cutoff. *)
Definition specified_threshold (frame : np.ndarray Z) (depthWindow : Q)
  : result (np.ndarray Z) :=
  let rewrapped := np.amap (fun raw => if raw <=? 500 then raw + 2047 else raw) frame in
  closest <- np.amin rewrapped ;;
  Ok (np.amap (fun raw =>
                 if Qle_bool (inject_Z raw) (specified_cutoff closest depthWindow)
                 then raw else 0) rewrapped).

(** ** The point cloud of one [save] call

    The lists that the loops of [mesh_points], [outline_points] and
    [back_points] build once [dims] is [d] and [scale] is [s]. *)

Definition project (d : nat * nat) (s : Q) (p : Z * Z) : Q * Q :=
  ((inject_Z (fst p - Z.of_nat (fst d) / 2) * s)%Q,
   (inject_Z (snd p - Z.of_nat (snd d) / 2) * s)%Q).

(** The point of pixel [(i, j)] at distance [z]. *)
Definition point_at (d : nat * nat) (s : Q) (i j : nat) (z : Q) : PlyWriter.point :=
  (fst (project d s (PlyWriter.pixel_z (i, j))),
   snd (project d s (PlyWriter.pixel_z (i, j))), z).

(** [(array != 0) * 1000.0/(-0.00307 * array + 3.33)] at one pixel. *)
Definition masked_distance (v : Z) : Q :=
  (PlyWriter.b2q (PlyWriter.nonzero v) * 1000 / (-0.00307 * inject_Z v + 3.33))%Q.

Definition mesh (d : nat * nat) (s : Q) (array : np.ndarray Z) : list PlyWriter.point :=
  flat_map (fun i =>
    flat_map (fun j =>
      let z := np.get 0%Q (np.amap masked_distance array) i j in
      if negb (Qeq_bool z 0) then [point_at d s i j z] else [])
      (seq 0 (snd d)))
    (seq 0 (fst d)).

(** [array * (mask - binary_erosion(mask))] *)
Definition outline_of (array : np.ndarray Z) (leave_holes : bool) : np.ndarray Z :=
  let mask := PlyWriter.silhouette array leave_holes in
  let eroded := ndimage.binary_erosion mask in
  ndimage.like array (fun i j =>
    np.get 0 array i j
    * Z.b2z (xorb (np.get false mask i j) (np.get false eroded i j))).

Definition wall (d : nat * nat) (s : Q) (array : np.ndarray Z) (depth : Z)
    (leave_holes : bool) : list PlyWriter.point :=
  flat_map (fun i =>
    flat_map (fun j =>
      let z := np.get 0 (outline_of array leave_holes) i j in
      if PlyWriter.nonzero z
      then flat_map (fun z' => [point_at d s i j (distance_mm z')])
                    (PlyWriter.wall_steps z depth)
      else [])
      (seq 0 (snd d)))
    (seq 0 (fst d)).

Definition back (d : nat * nat) (s : Q) (array : np.ndarray Z) (depth : Z)
    (leave_holes : bool) : list PlyWriter.point :=
  mesh d s (np.amap (fun b : bool => depth * Z.b2z b)
                    (PlyWriter.silhouette array leave_holes)).

(** The scale of a [save] call whose farthest raw value is [farthest]. *)
Definition scale_for (farthest : Z) : Q :=
  ((distance_mm farthest + inject_Z (-100)) * 0.0021)%Q.

(** The points of a [save] call, in the order in which they are collected. *)
Definition cloud_points (array : np.ndarray Z) (farthest : Z) (leave_holes : bool)
  : list PlyWriter.point :=
  wall (np.shape array) (scale_for farthest) array farthest leave_holes
  ++ back (np.shape array) (scale_for farthest) array farthest leave_holes
  ++ mesh (np.shape array) (scale_for farthest) array.

(** The corners of the bounding box of the nonzero pixels. *)
Definition corner_min (array : np.ndarray Z) (farthest : Z) (lo : nat * nat) : Q * Q :=
  project (np.shape array) (scale_for farthest) (PlyWriter.pixel_z lo).

Definition corner_max (array : np.ndarray Z) (farthest : Z) (hi : nat * nat) : Q * Q :=
  project (np.shape array) (scale_for farthest)
    (fst (PlyWriter.pixel_z hi) + 1, snd (PlyWriter.pixel_z hi) + 1).

Definition box_center (lo hi : Q * Q) : Q * Q :=
  (((fst lo + fst hi) / 2)%Q, ((snd lo + snd hi) / 2)%Q).

Definition box_size (lo hi : Q * Q) : Q * Q :=
  ((fst hi - fst lo)%Q, (snd hi - snd lo)%Q).

(** The line that [write_points] writes for one point. *)
Definition vertex_line (farthest : Q) (center : Q * Q) (pt : PlyWriter.point)
  : PlyWriter.line :=
  PlyWriter.Vertex (fst (fst pt) - fst center)%Q
                   (snd (fst pt) - snd center)%Q
                   (farthest - snd pt)%Q.

(** ** The readings of a thresholded frame *)

(** A pixel of a thresholded frame: zeroed, or a rewrapped reading. *)
Definition rewrapped_or_zero (v : Z) : Prop := v = 0 \/ 500 < v.

(** The threshold frame and the segmented frame, where they exist, hold
    zeroes and rewrapped readings only. *)
Definition frames_rewrapped (self : FaceCube.t) : Prop :=
  (forall a, FaceCube.threshold self = Some a -> every rewrapped_or_zero a)
  /\ (forall a, FaceCube.segmented self = Some a -> every rewrapped_or_zero a).

(** ** Connected regions

    [connected a p q]: a path of nonzero pixels, each sharing an edge with
    the next, leads from [p] to [q]. *)
Inductive connected (a : np.ndarray Z) : ndimage.pixel -> ndimage.pixel -> Prop :=
| connected_refl (p : ndimage.pixel) :
    ndimage.foreground a p = true -> connected a p p
| connected_step (p q r : ndimage.pixel) :
    connected a p q ->
    ndimage.adjacent q r = true ->
    ndimage.foreground a r = true ->
    connected a p r.

(** [reached inside s q]: a path inside the region leads from a pixel of [s]
    to [q]. *)
Inductive reached (inside : ndimage.pixel -> bool) (s : list ndimage.pixel)
  : ndimage.pixel -> Prop :=
| reached_seed (q : ndimage.pixel) : In q s -> reached inside s q
| reached_step (q r : ndimage.pixel) :
    reached inside s q ->
    ndimage.adjacent q r = true ->
    inside r = true ->
    reached inside s r.

(** Nothing of the region touches [s] from outside. *)
Definition closed (inside : ndimage.pixel -> bool) (s : list ndimage.pixel) : Prop :=
  forall q r, In q s -> ndimage.adjacent q r = true -> inside r = true -> In r s.

(** ** The written file *)

(** The seven header lines of a file with [n] vertices. *)
Definition ply_header (n : nat) : list PlyWriter.line :=
  [PlyWriter.Text "ply"; PlyWriter.Text "format ascii 1.0";
   PlyWriter.ElementVertex n;
   PlyWriter.Text "property float x"; PlyWriter.Text "property float y";
   PlyWriter.Text "property float z"; PlyWriter.Text "end_header"].

Definition is_vertex (l : PlyWriter.line) : Prop :=
  exists x y z, l = PlyWriter.Vertex x y z.

(** ** The silhouette's boundary *)

(** The four neighbours of a pixel are all set; a neighbour outside the
    array counts as unset. *)
Definition surrounded (mask : np.ndarray bool) (i j : nat) : bool :=
  (match i with O => false | S i' => np.get false mask i' j end)
  && np.get false mask (S i) j
  && (match j with O => false | S j' => np.get false mask i j' end)
  && np.get false mask i (S j).

(** ** The main loop

    The part of the loop body that follows the event handling: the capture,
    the clamped window, and the three pipeline stages. *)

Module Main.

(** Python's [max(a, b)]: [a] unless [b] is greater. *)
Definition py_max (a b : Q) : Q := if Qle_bool b a then a else b.

(** Python's [min(a, b)]: [a] unless [b] is smaller. *)
Definition py_min (a b : Q) : Q := if Qle_bool a b then a else b.

(** [min(max(0.0, face_depth + changing_depth), 2047.0)] *)
Definition next_face_depth (face_depth changing_depth : Q) : Q :=
  py_min (py_max 0 (face_depth + changing_depth)) 2047.

(** One pass: [capture] is the frame that the device delivers when
    [capturing] is set, and [None] when the loop is paused.  The pass returns
    the new [face_depth] and the new state of [facecube]. *)
Definition cycle (capture : option (np.ndarray Z)) (facecube : FaceCube.t)
    (face_depth changing_depth : Q) (hole_filling : Z) : result (Q * FaceCube.t) :=
  let facecube :=
    match capture with
    | Some depth_rotated => FaceCube.update facecube depth_rotated
    | None => facecube
    end in
  let face_depth := next_face_depth face_depth changing_depth in
  facecube <- FaceCube.generate_threshold facecube face_depth ;;
  facecube <- FaceCube.segment facecube ;;
  Ok (face_depth,
      if negb (hole_filling =? 0)
      then FaceCube.hole_fill facecube hole_filling
      else facecube).

(** The H and G keys of the event loop: [hole_filling += 1] and
    [hole_filling = max(0, hole_filling - 1)]. *)
Inductive key : Type := K_h | K_g.

Definition on_key (hole_filling : Z) (e : key) : Z :=
  match e with
  | K_h => hole_filling + 1
  | K_g => Z.max 0 (hole_filling - 1)
  end.

End Main.

(** A segmented frame exists only while a selection is recorded. *)
Definition selection_consistent (self : FaceCube.t) : Prop :=
  FaceCube.selected_segment self = None -> FaceCube.segmented self = None.

(** The states that the methods of [FaceCube] can produce from a fresh
    object. *)
Inductive reachable : FaceCube.t -> Prop :=
| reachable_init (frame : np.ndarray Z) : reachable (FaceCube.init frame)
| reachable_update (s : FaceCube.t) (depth_rotated : np.ndarray Z) :
    reachable s -> reachable (FaceCube.update s depth_rotated)
| reachable_generate_threshold (s s' : FaceCube.t) (face_depth : Q) :
    reachable s -> FaceCube.generate_threshold s face_depth = Ok s' -> reachable s'
| reachable_select_segment (s s' : FaceCube.t) (p : Z * Z) :
    reachable s -> FaceCube.select_segment s p = Ok s' -> reachable s'
| reachable_segment (s s' : FaceCube.t) :
    reachable s -> FaceCube.segment s = Ok s' -> reachable s'
| reachable_hole_fill (s : FaceCube.t) (window : Z) :
    reachable s -> reachable (FaceCube.hole_fill s window).

(** ** Indices *)

(** [p] is a valid index pair of an array of shape [d], by Python's rules. *)
Definition valid_index (d : nat * nat) (p : Z * Z) : Prop :=
  (- Z.of_nat (fst d) <= fst p < Z.of_nat (fst d))
  /\ (- Z.of_nat (snd d) <= snd p < Z.of_nat (snd d)).

(** An array of [h] rows that all have [w] entries. *)
Definition sized {A : Type} (h w : nat) (a : np.ndarray A) : Prop :=
  length a = h /\ forall i, (i < h)%nat -> length (nth i a []) = w.

(** * Properties *)

Section ArrayFacts.

Context {A B : Type}.

Lemma ravel_amap (f : A -> B) (a : np.ndarray A) :
  np.ravel (np.amap f a) = map f (np.ravel a).
Proof.
  unfold np.ravel, np.amap. now rewrite concat_map.
Qed.

Lemma amap_ext_every (f g : Z -> B) (P : Z -> Prop) (a : np.ndarray Z) :
  every P a -> (forall v, P v -> f v = g v) -> np.amap f a = np.amap g a.
Proof.
  intros Ha Hfg. unfold np.amap.
  induction Ha as [|row rows Hrow _ IH]; simpl; [reflexivity|].
  f_equal; [|exact IH].
  induction Hrow as [|v vs Hv _ IHrow]; simpl; [reflexivity|].
  f_equal; [now apply Hfg | exact IHrow].
Qed.

Lemma amap_amap {C : Type} (f : A -> B) (g : B -> C) (a : np.ndarray A) :
  np.amap g (np.amap f a) = np.amap (fun v => g (f v)) a.
Proof.
  unfold np.amap. rewrite map_map. apply map_ext. intros row. apply map_map.
Qed.

Lemma get_amap (f : A -> B) (d : A) (a : np.ndarray A) (i j : nat) :
  np.get (f d) (np.amap f a) i j = f (np.get d a i j).
Proof.
  unfold np.get, np.amap.
  change (@nil B) with (map f []). rewrite map_nth. apply map_nth.
Qed.

End ArrayFacts.

Lemma every_ravel (P : Z -> Prop) (a : np.ndarray Z) :
  every P a <-> Forall P (np.ravel a).
Proof.
  unfold every, np.ravel. induction a as [|row rows IH]; simpl.
  - split; constructor.
  - rewrite Forall_app, <- IH. split.
    + intros H. inversion H; subst. now split.
    + intros [H1 H2]. now constructor.
Qed.

Lemma every_impl (P R : Z -> Prop) (a : np.ndarray Z) :
  (forall v, P v -> R v) -> every P a -> every R a.
Proof.
  intros H Ha. unfold every in *.
  eapply Forall_impl; [|exact Ha]. intros row. apply Forall_impl. exact H.
Qed.

Lemma every_amap (P : Z -> Prop) (f : Z -> Z) (a : np.ndarray Z) :
  every (fun v => P (f v)) a <-> every P (np.amap f a).
Proof.
  unfold every, np.amap. rewrite Forall_map.
  split; apply Forall_impl; intros row; now rewrite Forall_map.
Qed.


(** ** Reductions over a frame *)

Lemma fold_min_const (c : Z) (vs : list Z) :
  Forall (fun v => v = c) vs -> fold_left Z.min vs c = c.
Proof.
  induction 1 as [|v vs Hv _ IH]; simpl; [reflexivity|].
  subst v. now rewrite Z.min_id.
Qed.

Lemma amin_const (c : Z) (a : np.ndarray Z) :
  has_pixel a -> every (fun v => v = c) a -> np.amin a = Ok c.
Proof.
  intros Hp Ha. apply every_ravel in Ha. unfold has_pixel in Hp.
  unfold np.amin. destruct (np.ravel a) as [|v vs]; [congruence|].
  inversion Ha; subst. now rewrite fold_min_const.
Qed.

Lemma amax_has_pixel (a : np.ndarray Z) :
  has_pixel a -> exists v, np.amax a = Ok v.
Proof.
  unfold has_pixel, np.amax. destruct (np.ravel a); [congruence|eauto].
Qed.

Lemma amax_no_pixel (a : np.ndarray Z) :
  ~ has_pixel a -> np.amax a = Err (np.zero_size_reduction "maximum").
Proof.
  unfold has_pixel, np.amax. destruct (np.ravel a); [reflexivity|].
  intros H. exfalso. apply H. discriminate.
Qed.

Lemma fold_max_const (c : Z) (vs : list Z) :
  Forall (fun v => v = c) vs -> fold_left Z.max vs c = c.
Proof.
  induction 1 as [|v vs Hv _ IH]; simpl; [reflexivity|].
  subst v. now rewrite Z.max_id.
Qed.

Lemma amax_const (c : Z) (a : np.ndarray Z) :
  has_pixel a -> every (fun v => v = c) a -> np.amax a = Ok c.
Proof.
  intros Hp Ha. apply every_ravel in Ha. unfold has_pixel in Hp.
  unfold np.amax. destruct (np.ravel a) as [|v vs]; [congruence|].
  inversion Ha; subst. now rewrite fold_max_const.
Qed.

Lemma has_pixel_dec {A : Type} (a : np.ndarray A) : {has_pixel a} + {~ has_pixel a}.
Proof.
  unfold has_pixel. destruct (np.ravel a).
  - right. intros H. now apply H.
  - left. discriminate.
Qed.

Lemma has_pixel_amap {A B : Type} (f : A -> B) (a : np.ndarray A) :
  has_pixel a <-> has_pixel (np.amap f a).
Proof.
  unfold has_pixel. rewrite ravel_amap.
  destruct (np.ravel a); simpl; split; intros H; congruence.
Qed.

Lemma argwhere_row_zero (i j : nat) (row : list Z) :
  Forall (fun v => v = 0) row -> np.argwhere_row i j row = [].
Proof.
  intros H. revert j. induction H as [|v vs Hv _ IH]; intros j; simpl; [reflexivity|].
  subst v. simpl. apply IH.
Qed.

Lemma argwhere_all_zero (a : np.ndarray Z) :
  all_zero a -> np.argwhere a = [].
Proof.
  unfold np.argwhere. generalize O.
  intros i H. revert i. induction H as [|row rows Hrow _ IH]; intros i; simpl.
  - reflexivity.
  - now rewrite argwhere_row_zero, IH.
Qed.


(** ** PlyWriter.save on a frame without a nonzero pixel *)

Section SaveEmpty.

Variables (self : PlyWriter.t) (fs : PlyWriter.filesystem).
Variables (array : np.ndarray Z) (leave_holes : bool).
Hypothesis Hzero : all_zero array.

Lemma all_zero_every : every (fun v => v = 0) array.
Proof. exact Hzero. Qed.

Lemma save_all_zero_with_pixel :
  has_pixel array ->
  PlyWriter.save self fs array leave_holes
  = (configured self array, fs, Err (np.zero_size_reduction "minimum")).
Proof.
  intros Hp. unfold PlyWriter.save.
  rewrite (amax_const Hp all_zero_every).
  unfold PlyWriter.collect. rewrite (argwhere_all_zero Hzero). reflexivity.
Qed.

Lemma save_all_zero_without_pixel :
  ~ has_pixel array ->
  PlyWriter.save self fs array leave_holes
  = (self, fs, Err (np.zero_size_reduction "maximum")).
Proof.
  intros Hp. unfold PlyWriter.save. now rewrite (amax_no_pixel Hp).
Qed.

End SaveEmpty.

(** C1 (as amended).  On a frame whose pixels are all zero [save] raises
    numpy's ValueError for a reduction over a zero-size array and writes no
    file.  When the frame has a pixel the error comes from [a.min(0)] over the
    empty list of nonzero coordinates, that is from the bounding-box
    computation itself, after [z_p], [dims] and [scale] have been assigned;
    when it has none, from [numpy.amax].  No EmptyPointCloud error exists. *)
Theorem save_all_zero_raises_ValueError
    (self : PlyWriter.t) (fs : PlyWriter.filesystem)
    (array : np.ndarray Z) (leave_holes : bool) :
  all_zero array ->
  np.argwhere array = []
  /\ exists self' op,
       PlyWriter.save self fs array leave_holes
       = (self', fs, Err (np.zero_size_reduction op))
       /\ fails_with "ValueError" (snd (PlyWriter.save self fs array leave_holes))
       /\ ~ fails_with "EmptyPointCloud"
            (snd (PlyWriter.save self fs array leave_holes))
       /\ (has_pixel array ->
           op = "minimum"%string
           /\ np.min0 (np.argwhere array) = Err (np.zero_size_reduction op)
           /\ self' = configured self array)
       /\ (~ has_pixel array -> op = "maximum"%string /\ self' = self).
Proof.
  intros Hzero. split; [now apply argwhere_all_zero|].
  destruct (has_pixel_dec array) as [Hp|Hp].
  - exists (configured self array), "minimum"%string.
    rewrite (save_all_zero_with_pixel self fs leave_holes Hzero Hp). simpl.
    repeat split.
    + eexists. reflexivity.
    + intros [msg H]. discriminate H.
    + now rewrite (argwhere_all_zero Hzero).
    + contradiction.
    + contradiction.
  - exists self, "maximum"%string.
    rewrite (save_all_zero_without_pixel self fs leave_holes Hp). simpl.
    repeat split; try contradiction.
    + eexists. reflexivity.
    + intros [msg H]. discriminate H.
Qed.

Lemma save_all_zero_raises_ValueError_witness :
  all_zero [[0]]
  /\ (np.argwhere [[0]] = []
      /\ exists self' op,
           PlyWriter.save (PlyWriter.init "out.ply") [] [[0]] false
           = (self', [], Err (np.zero_size_reduction op))
           /\ fails_with "ValueError"
                (snd (PlyWriter.save (PlyWriter.init "out.ply") [] [[0]] false))
           /\ ~ fails_with "EmptyPointCloud"
                (snd (PlyWriter.save (PlyWriter.init "out.ply") [] [[0]] false))
           /\ (has_pixel [[0]] ->
               op = "minimum"%string
               /\ np.min0 (np.argwhere [[0]]) = Err (np.zero_size_reduction op)
               /\ self' = configured (PlyWriter.init "out.ply") [[0]])
           /\ (~ has_pixel [[0]] ->
               op = "maximum"%string /\ self' = PlyWriter.init "out.ply")).
Proof.
  assert (H : all_zero [[0]]) by (repeat constructor).
  split; [exact H|].
  exact (save_all_zero_raises_ValueError (PlyWriter.init "out.ply") [] false H).
Defined.

(** C1 (as stated) fails: on the one-pixel frame [[0]] the call raises
    ValueError, not EmptyPointCloud, and the exception is the one that the
    minimum over the empty set of nonzero coordinates raises. *)
Lemma save_all_zero_not_EmptyPointCloud :
  all_zero [[0]]
  /\ snd (PlyWriter.save (PlyWriter.init "out.ply") [] [[0]] false)
     = Err (Raise "ValueError"
              "zero-size array to reduction operation minimum which has no identity")
  /\ np.min0 (np.argwhere [[0]])
     = Err (Raise "ValueError"
              "zero-size array to reduction operation minimum which has no identity")
  /\ ~ fails_with "EmptyPointCloud"
       (snd (PlyWriter.save (PlyWriter.init "out.ply") [] [[0]] false)).
Proof.
  split; [repeat constructor|].
  split; [reflexivity|].
  split; [reflexivity|].
  intros [msg H]. discriminate H.
Qed.


(** ** FaceCube.generate_threshold on a frame without a nonzero pixel *)

Lemma rewrap_zero : FaceCube.rewrap 0 = 2047.
Proof. reflexivity. Qed.

Lemma generate_threshold_never_EmptyFrame (self : FaceCube.t) (face_depth : Q) :
  ~ fails_with "EmptyFrame" (FaceCube.generate_threshold self face_depth).
Proof.
  intros [msg H]. unfold FaceCube.generate_threshold, np.amin in H.
  destruct (np.ravel _); simpl in H; discriminate H.
Qed.

(** C4 (as amended).  On an all-zero frame with at least one pixel
    [generate_threshold] does not fail: the rewrap turns every reading into
    2047, so the closest reading is 2047, and a threshold frame is produced,
    uniformly 2047 when 2047 is within the cutoff and uniformly 0 otherwise.
    No EmptyFrame error exists. *)
Theorem generate_threshold_all_zero (self : FaceCube.t) (face_depth : Q) :
  all_zero (FaceCube.depth self) ->
  has_pixel (FaceCube.depth self) ->
  FaceCube.generate_threshold self face_depth
  = Ok {| FaceCube.depth := np.amap (fun _ => 2047) (FaceCube.depth self);
          FaceCube.threshold :=
            Some (np.amap
                    (fun _ => 2047 * Z.b2z (FaceCube.within 2047
                                              (FaceCube.cutoff 2047 face_depth)))
                    (FaceCube.depth self));
          FaceCube.segmented := FaceCube.segmented self;
          FaceCube.selected_segment := FaceCube.selected_segment self |}
  /\ ~ fails_with "EmptyFrame" (FaceCube.generate_threshold self face_depth).
Proof.
  intros Hzero Hp. split; [|apply generate_threshold_never_EmptyFrame].
  unfold FaceCube.generate_threshold.
  assert (Hre : np.amap FaceCube.rewrap (FaceCube.depth self)
                = np.amap (fun _ => 2047) (FaceCube.depth self)).
  { apply amap_ext_every with (P := fun v => v = 0); [exact Hzero|].
    intros v ->. reflexivity. }
  rewrite Hre.
  rewrite (@amin_const 2047).
  - simpl. now rewrite amap_amap.
  - now apply has_pixel_amap.
  - apply every_amap. eapply every_impl; [|exact Hzero]. reflexivity.
Qed.

Lemma generate_threshold_all_zero_witness :
  FaceCube.generate_threshold (FaceCube.init [[0; 0]; [0; 0]]) 10
  = Ok {| FaceCube.depth := [[2047; 2047]; [2047; 2047]];
          FaceCube.threshold := Some [[2047; 2047]; [2047; 2047]];
          FaceCube.segmented := None;
          FaceCube.selected_segment := None |}.
Proof.
  assert (Hz : all_zero [[0; 0]; [0; 0]]) by (repeat constructor).
  assert (Hp : has_pixel [[0; 0]; [0; 0]]) by discriminate.
  exact (proj1 (generate_threshold_all_zero (FaceCube.init [[0; 0]; [0; 0]]) 10 Hz Hp)).
Defined.

(** C4 (as stated) fails: on the all-zero one-pixel frame thresholding with
    window 10 returns a threshold frame, [[2047]]. *)
Lemma generate_threshold_all_zero_succeeds :
  all_zero (FaceCube.depth (FaceCube.init [[0]]))
  /\ FaceCube.generate_threshold (FaceCube.init [[0]]) 10
     = Ok {| FaceCube.depth := [[2047]];
             FaceCube.threshold := Some [[2047]];
             FaceCube.segmented := None;
             FaceCube.selected_segment := None |}
  /\ ~ fails_with "EmptyFrame" (FaceCube.generate_threshold (FaceCube.init [[0]]) 10).
Proof.
  split; [repeat constructor|].
  split; [reflexivity|].
  intros [msg H]. discriminate H.
Qed.

(** ** FaceCube.hole_fill *)

Lemma grey_closing_small_window (a : np.ndarray Z) (window : Z) :
  window <= 1 -> ndimage.grey_closing a (window, window) = a.
Proof.
  intros H.
  unfold ndimage.grey_closing, ndimage.grey_erosion, ndimage.grey_dilation,
    ndimage.min_or_max_filter. simpl.
  assert (Hw : (1 <? window) = false) by (apply Z.ltb_ge; lia).
  now rewrite Hw.
Qed.

(** C9.  [hole_fill] changes nothing in two cases: with a window of 0 or
    less (the closing itself returns its input), and when there is no
    segmented frame. *)
Theorem hole_fill_noop (self : FaceCube.t) (window : Z) :
  window <= 0 \/ FaceCube.segmented self = None ->
  FaceCube.hole_fill self window = self
  /\ FaceCube.get_array (FaceCube.hole_fill self window) = FaceCube.get_array self
  /\ (window <= 0 -> forall a, ndimage.grey_closing a (window, window) = a).
Proof.
  intros H.
  assert (Hc : window <= 0 -> forall a, ndimage.grey_closing a (window, window) = a).
  { intros Hw a. apply grey_closing_small_window. lia. }
  assert (Hs : FaceCube.hole_fill self window = self).
  { unfold FaceCube.hole_fill. destruct self as [d t s sel]. simpl in *.
    destruct s as [a|]; [|reflexivity].
    destruct H as [Hw|Hn]; [|discriminate Hn].
    now rewrite (Hc Hw). }
  rewrite Hs. auto.
Qed.

Lemma hole_fill_noop_witness :
  FaceCube.hole_fill
    {| FaceCube.depth := [[600; 2047]];
       FaceCube.threshold := Some [[600; 0]];
       FaceCube.segmented := Some [[600; 0]];
       FaceCube.selected_segment := Some (0, 0) |} 0
  = {| FaceCube.depth := [[600; 2047]];
       FaceCube.threshold := Some [[600; 0]];
       FaceCube.segmented := Some [[600; 0]];
       FaceCube.selected_segment := Some (0, 0) |}
  /\ FaceCube.hole_fill (FaceCube.init [[600; 2047]]) 3 = FaceCube.init [[600; 2047]].
Proof.
  split.
  - apply hole_fill_noop. left. lia.
  - apply hole_fill_noop. right. reflexivity.
Defined.


(** ** FaceCube.generate_threshold: the cutoff *)

Ltac q2z :=
  unfold Qeq, Qlt, Qle, Qplus, Qminus, Qmult, Qopp, inject_Z;
  cbn [Qnum Qden]; rewrite ?Pos2Z.inj_mul.

Lemma denominator_nonzero (raw : Z) : ~ (denominator raw == 0)%Q.
Proof. unfold denominator. q2z. lia. Qed.

Lemma denominator_pos (raw : Z) : raw <= 1084 <-> (0 < denominator raw)%Q.
Proof. unfold denominator. q2z. lia. Qed.

Lemma denominator_neg (raw : Z) : 1085 <= raw <-> (denominator raw < 0)%Q.
Proof. unfold denominator. q2z. lia. Qed.

Lemma threshold_pixel (v : Z) (c : FaceCube.cutoff_value) :
  v * Z.b2z (FaceCube.within v c) = if FaceCube.within v c then v else 0.
Proof. destruct (FaceCube.within v c); simpl; lia. Qed.

Lemma cutoff_finite (closest : Z) (face_depth : Q) :
  ~ (distance_cm closest + face_depth == 0)%Q ->
  FaceCube.cutoff closest face_depth
  = FaceCube.Finite
      ((100 / (distance_cm closest + face_depth) - 3.33) / -0.00307)%Q.
Proof.
  intros H. unfold FaceCube.cutoff.
  change (100 / (-0.00307 * inject_Z closest + 3.33))%Q with (distance_cm closest).
  destruct (Qeq_bool (distance_cm closest + face_depth) 0) eqn:E; [|reflexivity].
  apply Qeq_bool_iff in E. contradiction.
Qed.

Lemma cutoff_infinite (closest : Z) (face_depth : Q) :
  (distance_cm closest + face_depth == 0)%Q ->
  FaceCube.cutoff closest face_depth = FaceCube.MinusInf.
Proof.
  intros H. unfold FaceCube.cutoff.
  change (100 / (-0.00307 * inject_Z closest + 3.33))%Q with (distance_cm closest).
  apply Qeq_bool_iff in H. now rewrite H.
Qed.

(** The finite cutoff is the raw value whose distance in centimetres is
    [distance_cm closest + face_depth]. *)
Lemma cutoff_inverts_distance_cm (d : Q) :
  ~ (d == 0)%Q ->
  (100 / (-0.00307 * ((100 / d - 3.33) / -0.00307) + 3.33) == d)%Q.
Proof.
  intros H.
  assert (E : (-0.00307 * ((100 / d - 3.33) / -0.00307) + 3.33 == 100 / d)%Q)
    by (field; exact H).
  rewrite E. field. exact H.
Qed.




(** ** FaceCube.generate_threshold: the window *)

Lemma Qinv_antitone (a b : Q) : (0 < a)%Q -> (a <= b)%Q -> (/ b <= / a)%Q.
Proof.
  intros Ha Hab.
  assert (Hb : (0 < b)%Q) by (eapply Qlt_le_trans; eauto).
  apply Qle_shift_inv_l; [exact Ha|].
  setoid_replace (/ b * a)%Q with (a / b)%Q
    by (field; intros E; rewrite E in Hb; now apply Qlt_irrefl in Hb).
  apply Qle_shift_div_r; [exact Hb|]. now rewrite Qmult_1_l.
Qed.

Lemma distance_cm_pos (closest : Z) : closest <= 1084 -> (0 < distance_cm closest)%Q.
Proof.
  intros H. apply denominator_pos in H. unfold distance_cm.
  apply Qlt_shift_div_l; [exact H|]. rewrite Qmult_0_l. reflexivity.
Qed.

(** With the closest reading in front of the calibration pole the cutoff
    grows with the window. *)
Lemma cutoff_monotone (closest : Z) (w1 w2 : Q) :
  closest <= 1084 -> (0 <= w1)%Q -> (w1 <= w2)%Q ->
  exists q1 q2,
    FaceCube.cutoff closest w1 = FaceCube.Finite q1
    /\ FaceCube.cutoff closest w2 = FaceCube.Finite q2
    /\ (q1 <= q2)%Q.
Proof.
  intros Hc H1 H12.
  pose proof (distance_cm_pos Hc) as Hd.
  assert (Ha : (0 < distance_cm closest + w1)%Q) by lra.
  assert (Hb : (0 < distance_cm closest + w2)%Q) by lra.
  rewrite !cutoff_finite by (intros E; rewrite E in *; lra).
  do 2 eexists. split; [reflexivity|]. split; [reflexivity|].
  assert (Hi : (/ (distance_cm closest + w2) <= / (distance_cm closest + w1))%Q)
    by (apply Qinv_antitone; lra).
  unfold Qdiv.
  set (i1 := (/ (distance_cm closest + w1))%Q) in *.
  set (i2 := (/ (distance_cm closest + w2))%Q) in *.
  change (/ -0.00307)%Q with (-100000 # 307)%Q.
  lra.
Qed.

Lemma within_monotone (v : Z) (q1 q2 : Q) :
  (q1 <= q2)%Q ->
  FaceCube.within v (FaceCube.Finite q1) = true ->
  FaceCube.within v (FaceCube.Finite q2) = true.
Proof.
  simpl. intros H H1. apply Qle_bool_iff in H1. apply Qle_bool_iff.
  eapply Qle_trans; eauto.
Qed.

Lemma get_threshold (c : FaceCube.cutoff_value) (d : np.ndarray Z) (i j : nat) :
  np.get 0 (np.amap (fun v => v * Z.b2z (FaceCube.within v c)) d) i j
  = np.get 0 d i j * Z.b2z (FaceCube.within (np.get 0 d i j) c).
Proof.
  exact (get_amap (fun v => v * Z.b2z (FaceCube.within v c)) 0 d i j).
Qed.

(** C7 (as amended).  For a stored frame whose closest rewrapped reading is
    at most 1084 (the readings with a positive calibrated distance), and
    windows [0 <= w1 <= w2], every pixel that is nonzero after thresholding
    with [w1] is nonzero, with the same value, after thresholding with
    [w2]. *)
Theorem threshold_monotone_in_window
    (self : FaceCube.t) (w1 w2 : Q) (closest : Z) :
  np.amin (np.amap FaceCube.rewrap (FaceCube.depth self)) = Ok closest ->
  closest <= 1084 ->
  (0 <= w1)%Q -> (w1 <= w2)%Q ->
  exists s1 s2 t1 t2,
    FaceCube.generate_threshold self w1 = Ok s1
    /\ FaceCube.generate_threshold self w2 = Ok s2
    /\ FaceCube.threshold s1 = Some t1
    /\ FaceCube.threshold s2 = Some t2
    /\ forall i j, np.get 0 t1 i j <> 0 -> np.get 0 t2 i j = np.get 0 t1 i j.
Proof.
  intros Hmin Hc H1 H12.
  destruct (cutoff_monotone Hc H1 H12) as (q1 & q2 & E1 & E2 & Hq).
  unfold FaceCube.generate_threshold. rewrite Hmin. cbn [bind].
  do 4 eexists. repeat (split; [reflexivity|]). cbn [FaceCube.threshold].
  intros i j. rewrite E1, E2, !get_threshold.
  destruct (FaceCube.within (np.get 0 _ i j) (FaceCube.Finite q1)) eqn:W1.
  - intros _. now rewrite (within_monotone _ Hq W1).
  - simpl. lia.
Qed.

Lemma threshold_monotone_in_window_witness :
  exists s1 s2 t1 t2,
    FaceCube.generate_threshold (FaceCube.init [[600; 650; 700]]) 5 = Ok s1
    /\ FaceCube.generate_threshold (FaceCube.init [[600; 650; 700]]) 10 = Ok s2
    /\ FaceCube.threshold s1 = Some t1
    /\ FaceCube.threshold s2 = Some t2
    /\ forall i j, np.get 0 t1 i j <> 0 -> np.get 0 t2 i j = np.get 0 t1 i j.
Proof.
  apply (@threshold_monotone_in_window (FaceCube.init [[600; 650; 700]]) 5 10 600).
  - reflexivity.
  - lia.
  - discriminate.
  - discriminate.
Defined.

(** C7 (as stated) fails: on the frame [[0]] the rewrapped reading is 2047,
    behind the calibration pole; the pixel is kept with window 10 and
    zeroed with window 34. *)
Lemma threshold_not_monotone_behind_pole :
  (0 <= 10)%Q /\ (10 <= 34)%Q /\ (34 <= 2047)%Q
  /\ FaceCube.generate_threshold (FaceCube.init [[0]]) 10
     = Ok {| FaceCube.depth := [[2047]];
             FaceCube.threshold := Some [[2047]];
             FaceCube.segmented := None;
             FaceCube.selected_segment := None |}
  /\ FaceCube.generate_threshold (FaceCube.init [[0]]) 34
     = Ok {| FaceCube.depth := [[2047]];
             FaceCube.threshold := Some [[0]];
             FaceCube.segmented := None;
             FaceCube.selected_segment := None |}.
Proof.
  repeat split; discriminate.
Qed.


(** ** PlyWriter: the loops *)

Section Loops.

Context {A B : Type}.

Lemma for_each_ok (xs : list A) (body : A -> result (list B)) (g : A -> list B) :
  (forall x, In x xs -> body x = Ok (g x)) ->
  PlyWriter.for_each xs body = Ok (flat_map g xs).
Proof.
  induction xs as [|x xs IH]; intros H; simpl; [reflexivity|].
  rewrite (H x) by now left. simpl.
  rewrite IH by (intros y Hy; apply H; now right). reflexivity.
Qed.

End Loops.

Section Configured.

Variables (self : PlyWriter.t) (d : nat * nat) (s : Q).
Hypothesis Hdims : PlyWriter.dims self = Some d.
Hypothesis Hscale : PlyWriter.scale self = Some s.

Lemma to_world_ok (p : Z * Z) : PlyWriter.to_world self p = Ok (project d s p).
Proof.
  unfold PlyWriter.to_world. now rewrite Hdims, Hscale.
Qed.

End Configured.

Lemma shape_like {A B : Type} (a : np.ndarray A) (f : nat -> nat -> B) :
  np.shape (ndimage.like a f) = np.shape a.
Proof.
  unfold np.shape, ndimage.like. rewrite length_map, length_seq.
  destruct a as [|row rows]; [reflexivity|].
  cbn. now rewrite length_map, length_seq.
Qed.

Lemma shape_amap {A B : Type} (f : A -> B) (a : np.ndarray A) :
  np.shape (np.amap f a) = np.shape a.
Proof.
  unfold np.shape, np.amap. rewrite length_map.
  destruct a as [|row rows]; [reflexivity|]. simpl. now rewrite length_map.
Qed.

Lemma getitem_inside {A : Type} (d : A) (a : np.ndarray A) (i j : nat) :
  (i < fst (np.shape a))%nat -> (j < snd (np.shape a))%nat ->
  np.getitem d a i j = Ok (np.get d a i j).
Proof.
  intros Hi Hj. unfold np.getitem.
  apply Nat.ltb_lt in Hi, Hj. now rewrite Hi, Hj.
Qed.

Lemma getitem_outside {A : Type} (d : A) (a : np.ndarray A) (i j : nat) :
  ~ ((i < fst (np.shape a))%nat /\ (j < snd (np.shape a))%nat) ->
  np.getitem d a i j = Err (Raise "IndexError" "index out of bounds").
Proof.
  intros H. unfold np.getitem.
  destruct (Nat.ltb_spec i (fst (np.shape a))) as [Hi|Hi]; [|reflexivity].
  destruct (Nat.ltb_spec j (snd (np.shape a))) as [Hj|Hj]; [|reflexivity].
  tauto.
Qed.

Lemma shape_silhouette (array : np.ndarray Z) (leave_holes : bool) :
  np.shape (PlyWriter.silhouette array leave_holes) = np.shape array.
Proof.
  unfold PlyWriter.silhouette, ndimage.binary_fill_holes.
  destruct leave_holes; now rewrite ?shape_like, shape_amap.
Qed.

(** The loops run over [dims]; inside [save], and whenever [dims] is the
    shape of the array that is indexed, no index leaves the array. *)
Section Indexed.

Variables (self : PlyWriter.t) (array : np.ndarray Z) (s : Q).
Hypothesis Hdims : PlyWriter.dims self = Some (np.shape array).
Hypothesis Hscale : PlyWriter.scale self = Some s.

Lemma mesh_points_like (a : np.ndarray Z) :
  np.shape a = np.shape array ->
  PlyWriter.mesh_points self a = Ok (mesh (np.shape array) s a).
Proof.
  intros Ha. unfold PlyWriter.mesh_points. rewrite Hdims.
  cbn [PlyWriter.getattr bind].
  apply for_each_ok. intros i Hi. apply for_each_ok. intros j Hj.
  apply in_seq in Hi, Hj.
  change (fun v : Z =>
            (PlyWriter.b2q (PlyWriter.nonzero v) * 1000
             / (-0.00307 * inject_Z v + 3.33))%Q) with masked_distance.
  rewrite getitem_inside by (rewrite shape_amap, Ha; lia).
  cbn [bind]. destruct (negb _); [|reflexivity].
  now rewrite (@to_world_ok _ _ _ Hdims Hscale).
Qed.

Lemma mesh_points_ok :
  PlyWriter.mesh_points self array = Ok (mesh (np.shape array) s array).
Proof. now apply mesh_points_like. Qed.

Lemma outline_points_ok (depth : Z) (leave_holes : bool) :
  PlyWriter.outline_points self array depth leave_holes
  = Ok (wall (np.shape array) s array depth leave_holes).
Proof.
  unfold PlyWriter.outline_points. rewrite Hdims. cbn [PlyWriter.getattr bind].
  apply for_each_ok. intros i Hi. apply for_each_ok. intros j Hj.
  apply in_seq in Hi, Hj.
  fold (outline_of array leave_holes).
  rewrite getitem_inside by (unfold outline_of; rewrite shape_like; lia).
  cbn [bind]. destruct (PlyWriter.nonzero _); [|reflexivity].
  apply for_each_ok. intros z' _. now rewrite (@to_world_ok _ _ _ Hdims Hscale).
Qed.

Lemma back_points_ok (depth : Z) (leave_holes : bool) :
  PlyWriter.back_points self array depth leave_holes
  = Ok (back (np.shape array) s array depth leave_holes).
Proof.
  unfold PlyWriter.back_points. apply mesh_points_like.
  now rewrite shape_amap, shape_silhouette.
Qed.

End Indexed.


(** ** PlyWriter: where the points come from *)

Lemma get_amap_cases {A B : Type} (f : A -> B) (dA : A) (dB : B)
    (a : np.ndarray A) (i j : nat) :
  np.get dB (np.amap f a) i j = f (np.get dA a i j)
  \/ (np.get dB (np.amap f a) i j = dB /\ np.get dA a i j = dA).
Proof.
  unfold np.get, np.amap.
  destruct (Nat.lt_ge_cases i (length a)) as [Hi|Hi].
  - rewrite (nth_indep _ [] (map f []))
      by now rewrite length_map.
    rewrite map_nth.
    destruct (Nat.lt_ge_cases j (length (nth i a []))) as [Hj|Hj].
    + left. rewrite (nth_indep _ dB (f dA)) by now rewrite length_map.
      apply map_nth.
    + right. split; apply nth_overflow; [now rewrite length_map|exact Hj].
  - right. rewrite !(nth_overflow _ _ Hi) by idtac.
    rewrite (nth_overflow (map (map f) a)) by now rewrite length_map.
    split; now destruct j.
Qed.

Lemma masked_distance_nonzero (v : Z) :
  v <> 0 -> masked_distance v = distance_mm v.
Proof.
  intros H. unfold masked_distance, PlyWriter.nonzero.
  apply Z.eqb_neq in H. rewrite H. reflexivity.
Qed.

Lemma masked_distance_zero : Qeq_bool (masked_distance 0) 0 = true.
Proof. reflexivity. Qed.

(** A pixel's entry of the converted array is not zero only when the pixel
    is nonzero, and then it is the pixel's distance. *)
Lemma converted_pixel (array : np.ndarray Z) (i j : nat) :
  Qeq_bool (np.get 0%Q (np.amap masked_distance array) i j) 0 = false ->
  np.get 0 array i j <> 0
  /\ np.get 0%Q (np.amap masked_distance array) i j
     = distance_mm (np.get 0 array i j).
Proof.
  intros H.
  destruct (get_amap_cases masked_distance 0 0%Q array i j) as [E|[E _]];
    rewrite E in H |- *.
  - destruct (Z.eq_dec (np.get 0 array i j) 0) as [Z0|NZ].
    + rewrite Z0 in H. discriminate H.
    + split; [exact NZ|]. now apply masked_distance_nonzero.
  - discriminate H.
Qed.

Lemma in_mesh (d : nat * nat) (s : Q) (array : np.ndarray Z) (pt : PlyWriter.point) :
  In pt (mesh d s array) <->
  exists i j,
    (i < fst d)%nat /\ (j < snd d)%nat
    /\ Qeq_bool (np.get 0%Q (np.amap masked_distance array) i j) 0 = false
    /\ pt = point_at d s i j (np.get 0%Q (np.amap masked_distance array) i j).
Proof.
  unfold mesh. rewrite in_flat_map. split.
  - intros (i & Hi & H). apply in_flat_map in H. destruct H as (j & Hj & H).
    apply in_seq in Hi. apply in_seq in Hj. cbv zeta in H.
    destruct (Qeq_bool _ 0) eqn:E; simpl in H; [contradiction|].
    destruct H as [H|[]]. exists i, j. repeat split; try lia; auto.
  - intros (i & j & Hi & Hj & E & ->). exists i. split; [apply in_seq; lia|].
    apply in_flat_map. exists j. split; [apply in_seq; lia|].
    cbv zeta. rewrite E. now left.
Qed.

(** Every front-surface point stands at a nonzero pixel, at that pixel's
    distance. *)
Lemma mesh_point (d : nat * nat) (s : Q) (array : np.ndarray Z) (pt : PlyWriter.point) :
  In pt (mesh d s array) ->
  exists i j,
    (i < fst d)%nat /\ (j < snd d)%nat
    /\ np.get 0 array i j <> 0
    /\ pt = point_at d s i j (distance_mm (np.get 0 array i j)).
Proof.
  intros H. apply in_mesh in H. destruct H as (i & j & Hi & Hj & E & ->).
  destruct (converted_pixel array i j E) as [NZ Ez].
  exists i, j. rewrite Ez. auto.
Qed.

(** Every back-plane point stands at the distance of [depth]. *)
Lemma back_point (d : nat * nat) (s : Q) (array : np.ndarray Z) (depth : Z)
    (leave_holes : bool) (pt : PlyWriter.point) :
  In pt (back d s array depth leave_holes) ->
  exists i j,
    (i < fst d)%nat /\ (j < snd d)%nat
    /\ pt = point_at d s i j (distance_mm depth).
Proof.
  intros H. apply mesh_point in H. destruct H as (i & j & Hi & Hj & NZ & ->).
  exists i, j. repeat split; auto.
  destruct (get_amap_cases (fun b : bool => depth * Z.b2z b) false 0
              (PlyWriter.silhouette array leave_holes) i j) as [E|[E _]];
    rewrite E in NZ |- *; [|congruence].
  destruct (np.get false _ i j); simpl in *; [|lia].
  now rewrite Z.mul_1_r.
Qed.

(** Every wall point stands at the distance of a raw value strictly between
    the outline pixel's raw value and [depth]. *)
Lemma wall_point (d : nat * nat) (s : Q) (array : np.ndarray Z) (depth : Z)
    (leave_holes : bool) (pt : PlyWriter.point) :
  In pt (wall d s array depth leave_holes) ->
  exists i j z',
    (i < fst d)%nat /\ (j < snd d)%nat
    /\ np.get 0 (outline_of array leave_holes) i j < z' < depth
    /\ pt = point_at d s i j (distance_mm z').
Proof.
  unfold wall. rewrite in_flat_map.
  intros (i & Hi & H). apply in_flat_map in H. destruct H as (j & Hj & H).
  apply in_seq in Hi. apply in_seq in Hj. cbv zeta in H.
  destruct (PlyWriter.nonzero _); [|contradiction].
  apply in_flat_map in H. destruct H as (z' & Hz & [H|[]]).
  unfold PlyWriter.wall_steps in Hz. apply in_map_iff in Hz.
  destruct Hz as (k & <- & Hk). apply in_seq in Hk. subst pt.
  exists i, j. eexists. repeat split; try reflexivity; lia.
Qed.


(** ** PlyWriter.save on a frame with a nonzero pixel *)

Lemma no_pixel_all_zero (a : np.ndarray Z) : ~ has_pixel a -> all_zero a.
Proof.
  intros H. assert (E : np.ravel a = []).
  { unfold has_pixel in H. destruct (np.ravel a); [reflexivity|].
    exfalso. apply H. discriminate. }
  unfold np.ravel in E. apply concat_nil_Forall in E.
  unfold all_zero. eapply Forall_impl; [|exact E].
  intros row ->. constructor.
Qed.

Lemma argwhere_has_pixel (a : np.ndarray Z) : np.argwhere a <> [] -> has_pixel a.
Proof.
  intros H. destruct (has_pixel_dec a) as [Hp|Hp]; [exact Hp|].
  exfalso. apply H. apply argwhere_all_zero. now apply no_pixel_all_zero.
Qed.

Lemma save_reductions (array : np.ndarray Z) :
  np.argwhere array <> [] ->
  exists farthest lo hi,
    np.amax array = Ok farthest
    /\ np.min0 (np.argwhere array) = Ok lo
    /\ np.max0 (np.argwhere array) = Ok hi.
Proof.
  intros H. pose proof H as Hp. apply argwhere_has_pixel in Hp.
  apply amax_has_pixel in Hp. destruct Hp as [farthest Hf].
  exists farthest. unfold np.min0, np.max0.
  destruct (np.argwhere array) as [|p ps]; [congruence|].
  do 2 eexists. repeat split. exact Hf.
Qed.

(** What [save] does once its three reductions have succeeded. *)
Lemma save_ok (self : PlyWriter.t) (fs : PlyWriter.filesystem)
    (array : np.ndarray Z) (leave_holes : bool) (farthest : Z) (lo hi : nat * nat) :
  np.amax array = Ok farthest ->
  np.min0 (np.argwhere array) = Ok lo ->
  np.max0 (np.argwhere array) = Ok hi ->
  PlyWriter.save self fs array leave_holes
  = ({| PlyWriter.name := PlyWriter.name self;
        PlyWriter.z_p := distance_mm farthest;
        PlyWriter.dims := Some (np.shape array);
        PlyWriter.scale := Some (scale_for farthest) |},
     (PlyWriter.name self,
      PlyWriter.write_points
        (PlyWriter.write_header [] (cloud_points array farthest leave_holes))
        (cloud_points array farthest leave_holes)
        (distance_mm farthest)
        (box_center (corner_min array farthest lo) (corner_max array farthest hi)))
     :: fs,
     Ok (box_size (corner_min array farthest lo) (corner_max array farthest hi))).
Proof.
  intros Hf Hlo Hhi. unfold PlyWriter.save. rewrite Hf.
  change (1000 / (-0.00307 * inject_Z farthest + 3.33))%Q with (distance_mm farthest).
  cbv zeta. fold (scale_for farthest).
  set (self' := {| PlyWriter.name := PlyWriter.name self;
                   PlyWriter.z_p := distance_mm farthest;
                   PlyWriter.dims := Some (np.shape array);
                   PlyWriter.scale := Some (scale_for farthest) |}).
  assert (Hd : PlyWriter.dims self' = Some (np.shape array)) by reflexivity.
  assert (Hs : PlyWriter.scale self' = Some (scale_for farthest)) by reflexivity.
  unfold PlyWriter.collect. rewrite Hlo, Hhi. cbn [bind].
  rewrite !(@to_world_ok _ _ _ Hd Hs). cbn [bind].
  rewrite (@outline_points_ok _ _ _ Hd Hs), (@back_points_ok _ _ _ Hd Hs),
    (@mesh_points_ok _ _ _ Hd Hs).
  reflexivity.
Qed.


Lemma cloud_point_projected (array : np.ndarray Z) (farthest : Z)
    (leave_holes : bool) (pt : PlyWriter.point) :
  In pt (cloud_points array farthest leave_holes) ->
  exists i j z,
    (i < fst (np.shape array))%nat /\ (j < snd (np.shape array))%nat
    /\ pt = point_at (np.shape array) (scale_for farthest) i j z.
Proof.
  unfold cloud_points. rewrite !in_app_iff. intros [H|[H|H]].
  - apply wall_point in H. destruct H as (i & j & z' & Hi & Hj & _ & ->). eauto 7.
  - apply back_point in H. destruct H as (i & j & Hi & Hj & ->). eauto 7.
  - apply mesh_point in H. destruct H as (i & j & Hi & Hj & _ & ->). eauto 7.
Qed.

(** C8.  A [save] call on a frame with a nonzero pixel computes one
    farthest distance [distance_mm farthest] and one scale
    [(distance_mm farthest + -100) * 0.0021] and assigns them before
    anything else; the corners of the bounding box and every point of the
    cloud (wall, back plane and mesh) are projected with that scale and the
    frame's shape; and nothing of the writer's earlier attributes enters the
    result. *)
Theorem save_uses_one_scale
    (self : PlyWriter.t) (fs : PlyWriter.filesystem)
    (array : np.ndarray Z) (leave_holes : bool) :
  np.argwhere array <> [] ->
  exists farthest lo hi,
    np.amax array = Ok farthest
    /\ np.min0 (np.argwhere array) = Ok lo
    /\ np.max0 (np.argwhere array) = Ok hi
    /\ let zFar := distance_mm farthest in
       let s := ((zFar + inject_Z (-100)) * 0.0021)%Q in
       let d := np.shape array in
       let pts := cloud_points array farthest leave_holes in
       let lo_mm := project d s (PlyWriter.pixel_z lo) in
       let hi_mm := project d s (fst (PlyWriter.pixel_z hi) + 1,
                                 snd (PlyWriter.pixel_z hi) + 1) in
       PlyWriter.save self fs array leave_holes
       = ({| PlyWriter.name := PlyWriter.name self;
             PlyWriter.z_p := zFar;
             PlyWriter.dims := Some d;
             PlyWriter.scale := Some s |},
          (PlyWriter.name self,
           PlyWriter.write_points (PlyWriter.write_header [] pts) pts zFar
             (box_center lo_mm hi_mm)) :: fs,
          Ok (box_size lo_mm hi_mm))
       /\ (forall pt, In pt pts ->
           exists i j z,
             (i < fst d)%nat /\ (j < snd d)%nat
             /\ pt = (fst (project d s (PlyWriter.pixel_z (i, j))),
                      snd (project d s (PlyWriter.pixel_z (i, j))), z))
       /\ (forall other,
             PlyWriter.name other = PlyWriter.name self ->
             PlyWriter.save other fs array leave_holes
             = PlyWriter.save self fs array leave_holes).
Proof.
  intros H. destruct (@save_reductions array H) as (farthest & lo & hi & Hf & Hlo & Hhi).
  exists farthest, lo, hi. repeat (split; [assumption|]).
  cbv zeta. split; [|split].
  - now apply save_ok.
  - intros pt Hpt. now apply (@cloud_point_projected array farthest leave_holes).
  - intros other Hn.
    rewrite (@save_ok self fs array leave_holes farthest lo hi Hf Hlo Hhi),
      (@save_ok other fs array leave_holes farthest lo hi Hf Hlo Hhi), Hn.
    reflexivity.
Qed.

Lemma save_uses_one_scale_witness :
  exists farthest,
    np.amax [[0; 600]; [650; 0]] = Ok farthest
    /\ fst (fst (PlyWriter.save (PlyWriter.init "out.ply") []
                   [[0; 600]; [650; 0]] false))
       = {| PlyWriter.name := "out.ply";
            PlyWriter.z_p := distance_mm farthest;
            PlyWriter.dims := Some (2%nat, 2%nat);
            PlyWriter.scale := Some ((distance_mm farthest + inject_Z (-100)) * 0.0021)%Q |}.
Proof.
  assert (H : np.argwhere [[0; 600]; [650; 0]] <> []) by discriminate.
  destruct (@save_uses_one_scale (PlyWriter.init "out.ply") []
              [[0; 600]; [650; 0]] false H)
    as (farthest & lo & hi & Hf & _ & _ & Hsave & _).
  exists farthest. split; [exact Hf|].
  cbv zeta in Hsave. rewrite Hsave. reflexivity.
Defined.

(** ** PlyWriter.save: the depth coordinate *)

Lemma fold_max_spec (vs : list Z) (v : Z) :
  In (fold_left Z.max vs v) (v :: vs)
  /\ forall x, In x (v :: vs) -> x <= fold_left Z.max vs v.
Proof.
  revert v. induction vs as [|w vs IH]; intros v; simpl.
  - split; [now left|]. intros x [->|[]]. lia.
  - destruct (IH (Z.max v w)) as [Hin Hub]. split.
    + destruct Hin as [E|Hin]; [|now right; right].
      rewrite <- E. destruct (Z.max_spec v w) as [[_ ->]|[_ ->]]; auto.
    + intros x Hx. assert (Hm : x <= Z.max v w \/ In x vs).
      { destruct Hx as [->|[->|Hx]]; [left; lia|left; lia|now right]. }
      destruct Hm as [Hm|Hm].
      * specialize (Hub (Z.max v w) (or_introl eq_refl)). lia.
      * apply Hub. now right.
Qed.

Lemma amax_spec (a : np.ndarray Z) (m : Z) :
  np.amax a = Ok m ->
  In m (np.ravel a) /\ forall x, In x (np.ravel a) -> x <= m.
Proof.
  unfold np.amax. destruct (np.ravel a) as [|v vs]; [discriminate|].
  intros E. injection E as <-. apply fold_max_spec.
Qed.

Lemma get_in_ravel (a : np.ndarray Z) (i j : nat) :
  np.get 0 a i j <> 0 -> In (np.get 0 a i j) (np.ravel a).
Proof.
  unfold np.get, np.ravel. intros H. apply in_concat.
  exists (nth i a []).
  assert (Hj : (j < length (nth i a []))%nat).
  { destruct (Nat.lt_ge_cases j (length (nth i a []))) as [Hj|Hj]; [exact Hj|].
    now rewrite nth_overflow in H. }
  assert (Hi : (i < length a)%nat).
  { destruct (Nat.lt_ge_cases i (length a)) as [Hi|Hi]; [exact Hi|].
    rewrite (nth_overflow a [] Hi) in Hj. simpl in Hj. lia. }
  split; now apply nth_In.
Qed.

(** In front of the calibration pole the distance grows with the raw value. *)
Lemma distance_mm_monotone (r1 r2 : Z) :
  r1 <= r2 -> r2 <= 1084 -> (distance_mm r1 <= distance_mm r2)%Q.
Proof.
  intros H12 H2. unfold distance_mm, Qdiv.
  apply Qmult_le_l; [reflexivity|].
  apply Qinv_antitone; [now apply denominator_pos|].
  unfold denominator. q2z. lia.
Qed.


Lemma every_get (P : Z -> Prop) (a : np.ndarray Z) (i j : nat) :
  every P a -> np.get 0 a i j <> 0 -> P (np.get 0 a i j).
Proof.
  intros Ha H. apply get_in_ravel in H. apply every_ravel in Ha.
  rewrite Forall_forall in Ha. now apply Ha.
Qed.



(** C2 (as stated) fails: on the frame [[600; 2047]] the [zFar] of the
    program is the distance of the largest raw value, 2047, which lies
    beyond the calibration pole and is negative.  It is not the farthest
    distance of the call: the mesh point of the pixel 600 lies behind it,
    and that point is written with a negative depth, below the back
    plane. *)
Lemma save_zFar_is_not_the_farthest_distance :
  let array := [[600; 2047]] in
  let save := PlyWriter.save (PlyWriter.init "out.ply") [] array true in
  np.amax array = Ok 2047
  /\ PlyWriter.mesh_points (fst (fst save)) array
     = Ok [point_at (np.shape array) (scale_for 2047) 0 0 (distance_mm 600);
           point_at (np.shape array) (scale_for 2047) 0 1 (distance_mm 2047)]
  /\ (distance_mm 2047 < distance_mm 600)%Q
  /\ (exists file x y,
        snd (fst save) = [("out.ply"%string, file)]
        /\ In (PlyWriter.Vertex x y (distance_mm 2047 - distance_mm 600)) file)
  /\ (distance_mm 2047 - distance_mm 600 < 0)%Q.
Proof.
  intros array save. subst save.
  assert (Hf : np.amax array = Ok 2047) by reflexivity.
  rewrite (@save_ok (PlyWriter.init "out.ply") [] array true 2047
             (0%nat, 0%nat) (0%nat, 1%nat) Hf eq_refl eq_refl).
  cbn [fst snd PlyWriter.init PlyWriter.name].
  split; [exact Hf|]. split.
  { set (writer := {| PlyWriter.name := "out.ply"; PlyWriter.z_p := distance_mm 2047;
                       PlyWriter.dims := Some (np.shape array);
                       PlyWriter.scale := Some (scale_for 2047) |}).
    rewrite (@mesh_points_ok writer array (scale_for 2047) eq_refl eq_refl).
    reflexivity. }
  split; [reflexivity|]. split; [|reflexivity].
  do 3 eexists. split; [reflexivity|].
  unfold PlyWriter.write_points. apply in_or_app. right.
  apply in_map_iff.
  exists (point_at (np.shape array) (scale_for 2047) 0 0 (distance_mm 600)).
  split; [reflexivity|].
  unfold cloud_points. apply in_or_app. right. apply in_or_app. right.
  now left.
Qed.


(** ** The conversion from raw values to distances *)

Lemma distance_mm_nonzero (raw : Z) : ~ (distance_mm raw == 0)%Q.
Proof.
  intros E.
  assert (H : (distance_mm raw * denominator raw == 1000)%Q)
    by (unfold distance_mm; field; apply denominator_nonzero).
  rewrite E, Qmult_0_l in H. discriminate H.
Qed.

Lemma distance_mm_negative (raw : Z) : 1085 <= raw -> (distance_mm raw < 0)%Q.
Proof.
  intros H. apply denominator_neg in H.
  assert (Hi : (0 < / - denominator raw)%Q) by (apply Qinv_lt_0_compat; lra).
  assert (E : (distance_mm raw == - (1000 * / - denominator raw))%Q)
    by (unfold distance_mm; field; intros E; rewrite E in H; now apply Qlt_irrefl in H).
  rewrite E. lra.
Qed.

(** The exceptions that the loops can raise. *)
Lemma for_each_err {A B : Type} (xs : list A) (body : A -> result (list B)) (e : exn) :
  PlyWriter.for_each xs body = Err e -> exists x, In x xs /\ body x = Err e.
Proof.
  induction xs as [|x xs IH]; simpl; [discriminate|].
  destruct (body x) as [ys|e1] eqn:E1; simpl.
  - destruct (PlyWriter.for_each xs body) as [zs|e2]; simpl; [discriminate|].
    intros H. injection H as <-. destruct (IH eq_refl) as (y & Hy & Ey).
    exists y. split; [now right|exact Ey].
  - intros H. injection H as <-. exists x. split; [now left|exact E1].
Qed.

Lemma getattr_err {A : Type} (attr : string) (v : option A) (e : exn) :
  PlyWriter.getattr attr v = Err e -> exn_class e = "AttributeError"%string.
Proof. destruct v; simpl; [discriminate|]. now intros [= <-]. Qed.

Lemma to_world_err (self : PlyWriter.t) (p : Z * Z) (e : exn) :
  PlyWriter.to_world self p = Err e -> exn_class e = "AttributeError"%string.
Proof.
  unfold PlyWriter.to_world.
  destruct (PlyWriter.getattr "dims" _) as [d|e1] eqn:E1; simpl.
  - destruct (PlyWriter.getattr "scale" _) as [s|e2] eqn:E2; simpl; [discriminate|].
    intros [= <-]. now apply getattr_err in E2.
  - intros [= <-]. now apply getattr_err in E1.
Qed.

Lemma getitem_err {A : Type} (d : A) (a : np.ndarray A) (i j : nat) (e : exn) :
  np.getitem d a i j = Err e -> exn_class e = "IndexError"%string.
Proof.
  unfold np.getitem. destruct (_ && _); [discriminate|]. now intros [= <-].
Qed.

Lemma mesh_points_err (self : PlyWriter.t) (array : np.ndarray Z) (e : exn) :
  PlyWriter.mesh_points self array = Err e ->
  exn_class e = "AttributeError"%string \/ exn_class e = "IndexError"%string.
Proof.
  unfold PlyWriter.mesh_points.
  destruct (PlyWriter.getattr "dims" _) as [d|e1] eqn:E1; simpl.
  - intros H. apply for_each_err in H. destruct H as (i & _ & H).
    apply for_each_err in H. destruct H as (j & _ & H).
    destruct (np.getitem _ _ i j) as [z|e2] eqn:E2; simpl in H.
    + destruct (negb _); [|discriminate].
      destruct (PlyWriter.to_world _ _) as [xy|e3] eqn:E3; simpl in H; [discriminate|].
      injection H as <-. left. now apply to_world_err in E3.
    + injection H as <-. right. now apply getitem_err in E2.
  - intros [= <-]. left. now apply getattr_err in E1.
Qed.

Lemma outline_points_err (self : PlyWriter.t) (array : np.ndarray Z) (depth : Z)
    (leave_holes : bool) (e : exn) :
  PlyWriter.outline_points self array depth leave_holes = Err e ->
  exn_class e = "AttributeError"%string \/ exn_class e = "IndexError"%string.
Proof.
  unfold PlyWriter.outline_points.
  destruct (PlyWriter.getattr "dims" _) as [d|e1] eqn:E1; simpl.
  - intros H. apply for_each_err in H. destruct H as (i & _ & H).
    apply for_each_err in H. destruct H as (j & _ & H).
    destruct (np.getitem _ _ i j) as [z|e2] eqn:E2; simpl in H.
    + destruct (PlyWriter.nonzero z); [|discriminate].
      apply for_each_err in H. destruct H as (z' & _ & H).
      destruct (PlyWriter.to_world _ _) as [xy|e3] eqn:E3; simpl in H; [discriminate|].
      injection H as <-. left. now apply to_world_err in E3.
    + injection H as <-. right. now apply getitem_err in E2.
  - intros [= <-]. left. now apply getattr_err in E1.
Qed.

(** C5 (as amended).  The conversion never rejects a raw value: for every
    integer raw value the denominator [-0.00307 * raw + 3.33] is not zero and
    the distance is [1000 / denominator], negative when the denominator is
    (raw values from 1085 on).  With the attributes that [save] assigns
    ([dims] the shape of the array, and a scale), [mesh_points],
    [outline_points] and [back_points] return their points without an
    error, and [mesh_points] emits a point at the pixel's distance for every
    nonzero pixel, negative distances included.  On any other writer the
    three can raise only AttributeError (an attribute that [save] has not
    assigned yet) or IndexError ([dims] larger than the array), never an
    error about the calibration. *)
Theorem conversion_never_rejects
    (self other : PlyWriter.t) (s : Q)
    (array : np.ndarray Z) (depth : Z) (leave_holes : bool) :
  PlyWriter.dims self = Some (np.shape array) ->
  PlyWriter.scale self = Some s ->
  (forall raw,
     ~ (denominator raw == 0)%Q
     /\ distance_mm raw = (1000 / (-0.00307 * inject_Z raw + 3.33))%Q
     /\ ((denominator raw < 0)%Q -> (distance_mm raw < 0)%Q))
  /\ (exists pts, PlyWriter.outline_points self array depth leave_holes = Ok pts)
  /\ (exists pts, PlyWriter.back_points self array depth leave_holes = Ok pts)
  /\ (exists pts,
       PlyWriter.mesh_points self array = Ok pts
       /\ forall i j,
            (i < fst (np.shape array))%nat -> (j < snd (np.shape array))%nat ->
            np.get 0 array i j <> 0 ->
            In (point_at (np.shape array) s i j (distance_mm (np.get 0 array i j))) pts)
  /\ forall e,
       PlyWriter.mesh_points other array = Err e
       \/ PlyWriter.outline_points other array depth leave_holes = Err e
       \/ PlyWriter.back_points other array depth leave_holes = Err e ->
       exn_class e = "AttributeError"%string \/ exn_class e = "IndexError"%string.
Proof.
  intros Hd Hs. split; [|split; [|split; [|split]]].
  - intros raw. split; [apply denominator_nonzero|]. split; [reflexivity|].
    intros H. apply distance_mm_negative. now apply denominator_neg.
  - eexists. apply (@outline_points_ok self array s Hd Hs).
  - eexists. apply (@back_points_ok self array s Hd Hs).
  - exists (mesh (np.shape array) s array).
    split; [apply (@mesh_points_ok self array s Hd Hs)|].
    intros i j Hi Hj NZ. apply in_mesh. exists i, j.
    destruct (get_amap_cases masked_distance 0 0%Q array i j) as [E|[_ E]];
      [|contradiction].
    rewrite E, (masked_distance_nonzero NZ). repeat split; auto.
    destruct (Qeq_bool _ 0) eqn:B; [|reflexivity].
    apply Qeq_bool_iff in B. now apply distance_mm_nonzero in B.
  - intros e [H|[H|H]].
    + now apply mesh_points_err in H.
    + now apply outline_points_err in H.
    + now apply mesh_points_err in H.
Qed.

Lemma conversion_never_rejects_witness :
  exists pts,
    PlyWriter.mesh_points
      {| PlyWriter.name := "out.ply"; PlyWriter.z_p := distance_mm 2047;
         PlyWriter.dims := Some (1%nat, 2%nat);
         PlyWriter.scale := Some (scale_for 2047) |} [[600; 2047]] = Ok pts
    /\ forall i j,
         (i < 1)%nat -> (j < 2)%nat ->
         np.get 0 [[600; 2047]] i j <> 0 ->
         In (point_at (1%nat, 2%nat) (scale_for 2047) i j
               (distance_mm (np.get 0 [[600; 2047]] i j))) pts.
Proof.
  refine (proj1 (proj2 (proj2 (proj2
    (@conversion_never_rejects
       {| PlyWriter.name := "out.ply"; PlyWriter.z_p := distance_mm 2047;
          PlyWriter.dims := Some (1%nat, 2%nat);
          PlyWriter.scale := Some (scale_for 2047) |}
       (PlyWriter.init "other.ply")
       (scale_for 2047) [[600; 2047]] 2047 false _ _)))));
    reflexivity.
Defined.

(** C5 (as stated) fails: the raw value 2047 has a negative denominator, and
    [mesh_points], called on the frame [[2047]] with the attributes that
    [save] assigns for that frame, raises nothing and emits the point with
    the negative distance [distance_mm 2047]. *)
Lemma mesh_points_emits_negative_distance :
  (denominator 2047 <= 0)%Q
  /\ PlyWriter.mesh_points
       (fst (fst (PlyWriter.save (PlyWriter.init "out.ply") [] [[2047]] true)))
       [[2047]]
     = Ok [(0 * scale_for 2047, 0 * scale_for 2047, distance_mm 2047)%Q]
  /\ (distance_mm 2047 < 0)%Q
  /\ ~ fails_with "InvalidCalibrationInput"
       (PlyWriter.mesh_points
          (fst (fst (PlyWriter.save (PlyWriter.init "out.ply") [] [[2047]] true)))
          [[2047]]).
Proof.
  split; [discriminate|].
  split; [reflexivity|].
  split; [reflexivity|].
  intros [msg H]. discriminate H.
Qed.


(** ** The readings kept by the pipeline *)

Lemma rewrap_above (v : Z) : 0 <= v -> 500 < FaceCube.rewrap v.
Proof.
  intros H. unfold FaceCube.rewrap. destruct (v <=? 500) eqn:E; simpl.
  - lia.
  - apply Z.leb_gt in E. lia.
Qed.

Lemma rewrap_fixed (v : Z) : 500 < v -> FaceCube.rewrap v = v.
Proof.
  intros H. unfold FaceCube.rewrap.
  assert (E : (v <=? 500) = false) by (apply Z.leb_gt; lia).
  rewrite E. simpl. lia.
Qed.

Lemma amap_id_every (P : Z -> Prop) (f : Z -> Z) (a : np.ndarray Z) :
  every P a -> (forall v, P v -> f v = v) -> np.amap f a = a.
Proof.
  intros Ha Hf. rewrite (amap_ext_every f (fun v => v) Ha Hf).
  unfold np.amap. rewrite <- (map_id a) at 2. apply map_ext. apply map_id.
Qed.

Lemma every_like {A : Type} (P : Z -> Prop) (a : np.ndarray A) (f : nat -> nat -> Z) :
  (forall i j, P (f i j)) -> every P (ndimage.like a f).
Proof.
  intros H. unfold every, ndimage.like.
  apply Forall_map, Forall_forall. intros i _.
  apply Forall_map, Forall_forall. intros j _. apply H.
Qed.

Lemma rewrapped_get (a : np.ndarray Z) (i j : nat) :
  every rewrapped_or_zero a -> rewrapped_or_zero (np.get 0 a i j).
Proof.
  intros Ha. destruct (Z.eq_dec (np.get 0 a i j) 0) as [E|NE].
  - now left.
  - now apply every_get.
Qed.

Lemma fold_pick (sel : Z -> Z -> Z) (P : Z -> Prop) (vs : list Z) (v : Z) :
  (forall x y, sel x y = x \/ sel x y = y) ->
  P v -> Forall P vs -> P (fold_left sel vs v).
Proof.
  intros Hsel Hv Hvs. revert v Hv.
  induction Hvs as [|w vs Hw _ IH]; intros v Hv; simpl; [exact Hv|].
  apply IH. destruct (Hsel v w) as [-> | ->]; assumption.
Qed.

Lemma reduce_pick (sel : Z -> Z -> Z) (P : Z -> Prop) (vs : list Z) :
  (forall x y, sel x y = x \/ sel x y = y) ->
  P 0 -> Forall P vs -> P (ndimage.reduce sel vs).
Proof.
  intros Hsel H0 Hvs. unfold ndimage.reduce.
  destruct Hvs as [|v vs Hv Hvs]; [exact H0|]. now apply fold_pick.
Qed.

Section Filters.

Variable sel : Z -> Z -> Z.
Hypothesis Hsel : forall x y, sel x y = x \/ sel x y = y.
Variable a : np.ndarray Z.
Hypothesis Ha : every rewrapped_or_zero a.

Lemma filter_axis0_rewrapped (size origin : Z) :
  every rewrapped_or_zero (ndimage.filter_axis0 sel size origin a).
Proof.
  apply every_like. intros i j. apply reduce_pick; [exact Hsel|now left|].
  apply Forall_map, Forall_forall. intros off _. now apply rewrapped_get.
Qed.

Lemma filter_axis1_rewrapped (size origin : Z) :
  every rewrapped_or_zero (ndimage.filter_axis1 sel size origin a).
Proof.
  apply every_like. intros i j. apply reduce_pick; [exact Hsel|now left|].
  apply Forall_map, Forall_forall. intros off _. now apply rewrapped_get.
Qed.

End Filters.

Lemma min_or_max_filter_rewrapped (sel : Z -> Z -> Z) (size origin : Z * Z)
    (a : np.ndarray Z) :
  (forall x y, sel x y = x \/ sel x y = y) ->
  every rewrapped_or_zero a ->
  every rewrapped_or_zero (ndimage.min_or_max_filter sel size origin a).
Proof.
  intros Hsel Ha. unfold ndimage.min_or_max_filter.
  assert (H0 : every rewrapped_or_zero
                 (if 1 <? fst size
                  then ndimage.filter_axis0 sel (fst size) (fst origin) a else a)).
  { destruct (1 <? fst size); [apply filter_axis0_rewrapped; assumption|exact Ha]. }
  destruct (1 <? snd size); [apply filter_axis1_rewrapped; assumption|exact H0].
Qed.

(** The closing only moves readings around. *)
Lemma grey_closing_rewrapped (a : np.ndarray Z) (size : Z * Z) :
  every rewrapped_or_zero a -> every rewrapped_or_zero (ndimage.grey_closing a size).
Proof.
  intros Ha. unfold ndimage.grey_closing, ndimage.grey_erosion, ndimage.grey_dilation.
  apply min_or_max_filter_rewrapped.
  { intros x y. destruct (Z.min_spec x y) as [[_ ->]|[_ ->]]; auto. }
  apply min_or_max_filter_rewrapped; [|exact Ha].
  intros x y. destruct (Z.max_spec x y) as [[_ ->]|[_ ->]]; auto.
Qed.

Lemma hole_fill_rewrapped (self : FaceCube.t) (window : Z) :
  frames_rewrapped self -> frames_rewrapped (FaceCube.hole_fill self window).
Proof.
  intros [Ht Hs]. unfold FaceCube.hole_fill.
  destruct (FaceCube.segmented self) as [a|] eqn:E;
    [|split; [exact Ht|intros b Hb; congruence]].
  split; simpl.
  - exact Ht.
  - intros b Hb. injection Hb as <-. apply grey_closing_rewrapped. now apply Hs.
Qed.

Lemma masked_rewrapped (a segments : np.ndarray Z) (selected : Z) :
  every rewrapped_or_zero a ->
  every rewrapped_or_zero (FaceCube.masked a segments selected).
Proof.
  intros Ha. apply every_like. intros i j.
  destruct (np.get 0 segments i j =? selected); simpl.
  - rewrite Z.mul_1_r. now apply rewrapped_get.
  - left. lia.
Qed.

Lemma segment_rewrapped (self self' : FaceCube.t) :
  frames_rewrapped self -> FaceCube.segment self = Ok self' ->
  frames_rewrapped self'.
Proof.
  intros [Ht Hs] H. unfold FaceCube.segment in H.
  destruct (FaceCube.selected_segment self) as [p|].
  - unfold FaceCube.labelled in H.
    destruct (FaceCube.threshold self) as [a|] eqn:Ea; [|discriminate H].
    cbn [bind fst snd] in H.
    destruct (FaceCube.lookup _ p) as [selected|e]; [|discriminate H].
    cbn [bind] in H. injection H as <-. split; simpl.
    + exact Ht.
    + intros b Hb. destruct (negb _); [|discriminate Hb].
      injection Hb as <-. apply masked_rewrapped. now apply Ht.
  - injection H as <-. now split.
Qed.

Lemma select_segment_rewrapped (self self' : FaceCube.t) (p : Z * Z) :
  frames_rewrapped self -> FaceCube.select_segment self p = Ok self' ->
  frames_rewrapped self'.
Proof.
  intros [Ht Hs] H. unfold FaceCube.select_segment in H.
  destruct (FaceCube.labelled _) as [ts|e]; [|discriminate H].
  cbn [bind] in H.
  destruct (FaceCube.lookup _ p) as [selected|e]; [|discriminate H].
  cbn [bind] in H.
  destruct (negb _); injection H as <-; split; simpl; auto; discriminate.
Qed.

Lemma get_array_rewrapped (self : FaceCube.t) (a : np.ndarray Z) :
  frames_rewrapped self -> FaceCube.get_array self = Some a ->
  every rewrapped_or_zero a.
Proof.
  intros [Ht Hs] H. unfold FaceCube.get_array in H.
  destruct (FaceCube.segmented self) as [b|] eqn:E.
  - injection H as <-. now apply Hs.
  - now apply Ht.
Qed.


Lemma amin_has_pixel (a : np.ndarray Z) :
  has_pixel a -> exists v, np.amin a = Ok v.
Proof.
  unfold has_pixel, np.amin. destruct (np.ravel a); [congruence|eauto].
Qed.

Lemma threshold_rewrapped (c : FaceCube.cutoff_value) (d : np.ndarray Z) :
  every (fun v => 500 < v) d ->
  every rewrapped_or_zero (np.amap (fun v => v * Z.b2z (FaceCube.within v c)) d).
Proof.
  intros Hd.
  apply (proj1 (every_amap rewrapped_or_zero
                  (fun v => v * Z.b2z (FaceCube.within v c)) d)).
  eapply every_impl; [|exact Hd].
  intros v Hv. cbv beta. rewrite threshold_pixel.
  destruct (FaceCube.within v c); [now right|now left].
Qed.

(** C10.  On a capture with non-negative readings and at least one pixel,
    [generate_threshold] succeeds and leaves every stored reading above 500;
    the frame that [get_array] returns then holds only zeroes and readings
    above 500, and this still holds after [select_segment], after [segment]
    and after [hole_fill] with any window; running [generate_threshold]
    again on the result changes nothing. *)
Theorem readings_above_500 (self : FaceCube.t) (face_depth : Q) :
  every (fun v => 0 <= v) (FaceCube.depth self) ->
  has_pixel (FaceCube.depth self) ->
  (forall a, FaceCube.segmented self = Some a -> every rewrapped_or_zero a) ->
  exists s1,
    FaceCube.generate_threshold self face_depth = Ok s1
    /\ every (fun v => 500 < v) (FaceCube.depth s1)
    /\ (forall a, FaceCube.get_array s1 = Some a ->
        forall i j, np.get 0 a i j <> 0 -> 500 < np.get 0 a i j)
    /\ (forall p s2, FaceCube.select_segment s1 p = Ok s2 ->
        forall a, FaceCube.get_array s2 = Some a ->
        forall i j, np.get 0 a i j <> 0 -> 500 < np.get 0 a i j)
    /\ (forall s2, FaceCube.segment s1 = Ok s2 ->
        forall a, FaceCube.get_array s2 = Some a ->
        forall i j, np.get 0 a i j <> 0 -> 500 < np.get 0 a i j)
    /\ (forall s2 window, FaceCube.segment s1 = Ok s2 ->
        forall a, FaceCube.get_array (FaceCube.hole_fill s2 window) = Some a ->
        forall i j, np.get 0 a i j <> 0 -> 500 < np.get 0 a i j)
    /\ FaceCube.generate_threshold s1 face_depth = Ok s1.
Proof.
  intros Hnn Hp Hseg.
  set (d := np.amap FaceCube.rewrap (FaceCube.depth self)).
  assert (Hd : every (fun v => 500 < v) d).
  { apply (proj1 (every_amap (fun v => 500 < v) FaceCube.rewrap (FaceCube.depth self))).
    eapply every_impl; [|exact Hnn]. apply rewrap_above. }
  assert (Hpd : has_pixel d) by now apply has_pixel_amap.
  destruct (@amin_has_pixel d Hpd) as [closest Hc].
  assert (E1 : FaceCube.generate_threshold self face_depth
               = Ok {| FaceCube.depth := d;
                       FaceCube.threshold :=
                         Some (np.amap
                                 (fun v => v * Z.b2z (FaceCube.within v
                                            (FaceCube.cutoff closest face_depth))) d);
                       FaceCube.segmented := FaceCube.segmented self;
                       FaceCube.selected_segment := FaceCube.selected_segment self |}).
  { unfold FaceCube.generate_threshold. fold d. now rewrite Hc. }
  eexists. split; [exact E1|].
  assert (Hfr : frames_rewrapped
                  {| FaceCube.depth := d;
                     FaceCube.threshold :=
                       Some (np.amap
                               (fun v => v * Z.b2z (FaceCube.within v
                                          (FaceCube.cutoff closest face_depth))) d);
                     FaceCube.segmented := FaceCube.segmented self;
                     FaceCube.selected_segment := FaceCube.selected_segment self |}).
  { split; simpl.
    - intros a Ha. injection Ha as <-. now apply threshold_rewrapped.
    - exact Hseg. }
  assert (Hget : forall s a, frames_rewrapped s -> FaceCube.get_array s = Some a ->
                 forall i j, np.get 0 a i j <> 0 -> 500 < np.get 0 a i j).
  { intros s a Hs Ha i j NZ.
    pose proof (@get_array_rewrapped s a Hs Ha) as Hall.
    destruct (@rewrapped_get a i j Hall) as [Z0|Hgt]; [contradiction|exact Hgt]. }
  split; [exact Hd|].
  split; [intros a Ha; now apply (Hget _ a Hfr)|].
  split.
  { intros p s2 H2 a Ha. apply (Hget s2 a); [|exact Ha].
    eapply select_segment_rewrapped; eauto. }
  split.
  { intros s2 H2 a Ha. apply (Hget s2 a); [|exact Ha].
    eapply segment_rewrapped; eauto. }
  split.
  { intros s2 window H2 a Ha. apply (Hget (FaceCube.hole_fill s2 window) a); [|exact Ha].
    apply hole_fill_rewrapped. eapply segment_rewrapped; eauto. }
  unfold FaceCube.generate_threshold. cbn [FaceCube.depth FaceCube.segmented
    FaceCube.selected_segment].
  rewrite (@amap_id_every (fun v => 500 < v) FaceCube.rewrap d Hd rewrap_fixed), Hc.
  reflexivity.
Qed.

Lemma readings_above_500_witness :
  exists s1,
    FaceCube.generate_threshold (FaceCube.init [[0; 600]; [650; 300]]) 10 = Ok s1
    /\ every (fun v => 500 < v) (FaceCube.depth s1)
    /\ FaceCube.generate_threshold s1 10 = Ok s1.
Proof.
  assert (Hnn : every (fun v => 0 <= v)
                  (FaceCube.depth (FaceCube.init [[0; 600]; [650; 300]])))
    by (repeat constructor; discriminate).
  assert (Hp : has_pixel (FaceCube.depth (FaceCube.init [[0; 600]; [650; 300]])))
    by discriminate.
  assert (Hs : forall a,
             FaceCube.segmented (FaceCube.init [[0; 600]; [650; 300]]) = Some a ->
             every rewrapped_or_zero a) by discriminate.
  destruct (@readings_above_500 (FaceCube.init [[0; 600]; [650; 300]]) 10 Hnn Hp Hs)
    as (s1 & H1 & H2 & _ & _ & _ & _ & H3).
  exists s1. auto.
Defined.


(** ** Pixels *)

Lemma pixel_eqb_eq (p q : ndimage.pixel) : ndimage.pixel_eqb p q = true <-> p = q.
Proof.
  unfold ndimage.pixel_eqb. destruct p as [i j], q as [i' j']. simpl.
  rewrite andb_true_iff, !Nat.eqb_eq. split.
  - intros [-> ->]. reflexivity.
  - intros E. injection E as -> ->. auto.
Qed.

Lemma pixel_eqb_refl (p : ndimage.pixel) : ndimage.pixel_eqb p p = true.
Proof. now apply pixel_eqb_eq. Qed.

Lemma mem_In (p : ndimage.pixel) (s : list ndimage.pixel) :
  ndimage.mem p s = true <-> In p s.
Proof.
  unfold ndimage.mem. rewrite existsb_exists. split.
  - intros (q & Hq & E). apply pixel_eqb_eq in E. now subst.
  - intros H. exists p. split; [exact H|apply pixel_eqb_refl].
Qed.

Lemma adjacent_sym (p q : ndimage.pixel) :
  ndimage.adjacent p q = ndimage.adjacent q p.
Proof.
  unfold ndimage.adjacent. destruct p as [i j], q as [i' j']. cbn [fst snd].
  apply eq_true_iff_eq.
  rewrite !orb_true_iff, !andb_true_iff, !orb_true_iff, !Nat.eqb_eq. lia.
Qed.

Lemma in_indices {A : Type} (a : np.ndarray A) (i j : nat) :
  In (i, j) (ndimage.indices a)
  <-> (i < length a)%nat /\ (j < length (nth i a []))%nat.
Proof.
  unfold ndimage.indices. rewrite in_flat_map. split.
  - intros (i' & Hi & H). apply in_map_iff in H. destruct H as (j' & E & Hj).
    injection E as -> ->. apply in_seq in Hi. apply in_seq in Hj. lia.
  - intros [Hi Hj]. exists i. split; [apply in_seq; lia|].
    apply in_map. apply in_seq. lia.
Qed.

Lemma NoDup_rows (width : nat -> nat) (rows : list nat) :
  NoDup rows ->
  NoDup (flat_map (fun i => map (pair i) (seq 0 (width i))) rows).
Proof.
  induction 1 as [|i rows Hi Hrows IH]; simpl; [constructor|].
  apply NoDup_app.
  - apply Injective_map_NoDup; [|apply seq_NoDup].
    intros x y E. now injection E.
  - exact IH.
  - intros [i' j'] H1 H2. apply in_map_iff in H1. destruct H1 as (j & E & _).
    injection E as <- <-. apply in_flat_map in H2. destruct H2 as (k & Hk & H2).
    apply in_map_iff in H2. destruct H2 as (j'' & E & _). injection E as -> _.
    contradiction.
Qed.

Lemma NoDup_indices {A : Type} (a : np.ndarray A) : NoDup (ndimage.indices a).
Proof. apply NoDup_rows, seq_NoDup. Qed.

Lemma get_in_range {A : Type} (d : A) (a : np.ndarray A) (i j : nat) :
  np.get d a i j <> d -> (i < length a)%nat /\ (j < length (nth i a []))%nat.
Proof.
  unfold np.get. intros H.
  assert (Hj : (j < length (nth i a []))%nat).
  { destruct (Nat.lt_ge_cases j (length (nth i a []))) as [Hj|Hj]; [exact Hj|].
    now rewrite nth_overflow in H. }
  split; [|exact Hj].
  destruct (Nat.lt_ge_cases i (length a)) as [Hi|Hi]; [exact Hi|].
  rewrite (nth_overflow a [] Hi) in Hj. simpl in Hj. lia.
Qed.

Lemma foreground_nonzero (a : np.ndarray Z) (p : ndimage.pixel) :
  ndimage.foreground a p = true <-> np.get 0 a (fst p) (snd p) <> 0.
Proof.
  unfold ndimage.foreground. rewrite negb_true_iff. apply Z.eqb_neq.
Qed.

Lemma foreground_in_indices (a : np.ndarray Z) (p : ndimage.pixel) :
  ndimage.foreground a p = true -> In p (ndimage.indices a).
Proof.
  intros H. apply foreground_nonzero in H. apply get_in_range in H.
  destruct p as [i j]. now apply in_indices.
Qed.

(** ** Region growing reaches exactly what is connected to the seeds *)

Section Flood.

Variable inside : ndimage.pixel -> bool.
Variable universe : list ndimage.pixel.
Hypothesis Huniverse : NoDup universe.
Hypothesis Hinside : forall p, inside p = true -> In p universe.

Lemma in_grow (s : list ndimage.pixel) (q : ndimage.pixel) :
  In q (ndimage.grow inside universe s)
  <-> In q s
      \/ (inside q = true /\ ~ In q s
          /\ exists p, In p s /\ ndimage.adjacent p q = true).
Proof.
  unfold ndimage.grow. rewrite in_app_iff, filter_In, !andb_true_iff,
    negb_true_iff, existsb_exists.
  split.
  - intros [H|(Hu & (Hi & Hm) & (p & Hp & Ha))]; [now left|right].
    split; [exact Hi|]. split.
    + intros Hq. apply mem_In in Hq. congruence.
    + exists p. now rewrite adjacent_sym.
  - intros [H|(Hi & Hn & (p & Hp & Ha))]; [now left|right].
    split; [now apply Hinside|]. split; [split; [exact Hi|]|].
    + destruct (ndimage.mem q s) eqn:E; [|reflexivity].
      apply mem_In in E. contradiction.
    + exists p. now rewrite adjacent_sym.
Qed.

Lemma grow_incl (s : list ndimage.pixel) : incl s (ndimage.grow inside universe s).
Proof. intros q H. apply in_grow. now left. Qed.

Lemma flood_incl (n : nat) (s : list ndimage.pixel) :
  incl s (ndimage.flood n inside universe s).
Proof.
  revert s. induction n as [|n IH]; intros s; simpl; [apply incl_refl|].
  eapply incl_tran; [apply grow_incl|apply IH].
Qed.

Lemma grow_NoDup (s : list ndimage.pixel) :
  NoDup s -> NoDup (ndimage.grow inside universe s).
Proof.
  intros Hs. unfold ndimage.grow. apply NoDup_app.
  - exact Hs.
  - now apply NoDup_filter.
  - intros q Hq H. apply filter_In in H. destruct H as [_ H].
    rewrite !andb_true_iff, negb_true_iff in H. destruct H as [[_ Hm] _].
    apply mem_In in Hq. congruence.
Qed.

Lemma grow_in_universe (s : list ndimage.pixel) :
  incl s universe -> incl (ndimage.grow inside universe s) universe.
Proof.
  intros Hs q H. apply in_grow in H. destruct H as [H|(Hi & _)].
  - now apply Hs.
  - now apply Hinside.
Qed.

Lemma grow_closed (s : list ndimage.pixel) :
  closed inside s -> ndimage.grow inside universe s = s.
Proof.
  intros Hc. unfold ndimage.grow.
  assert (E : filter (fun q => inside q && negb (ndimage.mem q s)
                                && existsb (ndimage.adjacent q) s) universe = []).
  { destruct (filter _ universe) as [|q qs] eqn:F; [reflexivity|].
    assert (Hq : In q (q :: qs)) by now left.
    rewrite <- F in Hq. apply filter_In in Hq. destruct Hq as [_ Hq].
    rewrite !andb_true_iff, negb_true_iff, existsb_exists in Hq.
    destruct Hq as [[Hi Hm] (p & Hp & Ha)].
    rewrite adjacent_sym in Ha. apply (Hc p q Hp Ha) in Hi.
    apply mem_In in Hi. congruence. }
  rewrite E. apply app_nil_r.
Qed.

Lemma flood_closed (n : nat) (s : list ndimage.pixel) :
  closed inside s -> ndimage.flood n inside universe s = s.
Proof.
  intros Hc. induction n as [|n IH]; simpl; [reflexivity|].
  now rewrite (grow_closed Hc).
Qed.

(** One round either adds a pixel or finds nothing left to add. *)
Lemma grow_progress (s : list ndimage.pixel) :
  closed inside s \/ (length s < length (ndimage.grow inside universe s))%nat.
Proof.
  unfold ndimage.grow.
  destruct (filter _ universe) as [|q qs] eqn:F.
  - left. intros p r Hp Ha Hi.
    destruct (ndimage.mem r s) eqn:M; [now apply mem_In|].
    assert (Hr : In r (filter (fun q => inside q && negb (ndimage.mem q s)
                                          && existsb (ndimage.adjacent q) s) universe)).
    { apply filter_In. split; [now apply Hinside|].
      rewrite Hi, M. simpl. apply existsb_exists. exists p.
      split; [exact Hp|]. now rewrite adjacent_sym. }
    rewrite F in Hr. contradiction.
  - right. rewrite length_app. simpl. lia.
Qed.

Lemma flood_reaches_closure (n : nat) (s : list ndimage.pixel) :
  NoDup s -> incl s universe ->
  (length universe <= length s + n)%nat ->
  closed inside (ndimage.flood n inside universe s).
Proof.
  revert s. induction n as [|n IH]; intros s Hs Hu Hlen; simpl.
  - intros p r _ _ Hi.
    apply (@NoDup_length_incl _ s universe Hs); [lia|exact Hu|now apply Hinside].
  - destruct (grow_progress s) as [Hc|Hlt].
    + rewrite (grow_closed Hc), (flood_closed n Hc). exact Hc.
    + apply IH; [now apply grow_NoDup|now apply grow_in_universe|lia].
Qed.

Lemma reached_mono (s s' : list ndimage.pixel) (q : ndimage.pixel) :
  (forall p, In p s' -> reached inside s p) ->
  reached inside s' q -> reached inside s q.
Proof.
  intros H. induction 1 as [q Hq|q r _ IH Ha Hi].
  - now apply H.
  - eapply reached_step; eauto.
Qed.

Lemma grow_sound (s : list ndimage.pixel) (q : ndimage.pixel) :
  In q (ndimage.grow inside universe s) -> reached inside s q.
Proof.
  intros H. apply in_grow in H. destruct H as [H|(Hi & _ & (p & Hp & Ha))].
  - now apply reached_seed.
  - eapply reached_step; [apply reached_seed; exact Hp|exact Ha|exact Hi].
Qed.

Lemma flood_sound (n : nat) (s : list ndimage.pixel) (q : ndimage.pixel) :
  In q (ndimage.flood n inside universe s) -> reached inside s q.
Proof.
  revert s. induction n as [|n IH]; intros s; simpl.
  - apply reached_seed.
  - intros H. apply IH in H. eapply reached_mono; [|exact H].
    intros p. apply grow_sound.
Qed.

Lemma flood_complete (s : list ndimage.pixel) (q : ndimage.pixel) :
  NoDup s -> incl s universe ->
  reached inside s q ->
  In q (ndimage.flood (length universe) inside universe s).
Proof.
  intros Hs Hu. induction 1 as [q Hq|q r _ IH Ha Hi].
  - now apply flood_incl.
  - assert (Hc : closed inside (ndimage.flood (length universe) inside universe s))
      by (apply flood_reaches_closure; [exact Hs|exact Hu|lia]).
    exact (Hc q r IH Ha Hi).
Qed.

End Flood.


(** ** Features: the connected regions of nonzero pixels *)

Section Features.

Variable a : np.ndarray Z.

Lemma connected_foreground_l (p q : ndimage.pixel) :
  connected a p q -> ndimage.foreground a p = true.
Proof. induction 1; assumption. Qed.

Lemma connected_foreground_r (p q : ndimage.pixel) :
  connected a p q -> ndimage.foreground a q = true.
Proof. destruct 1; assumption. Qed.

Lemma connected_trans (p q r : ndimage.pixel) :
  connected a p q -> connected a q r -> connected a p r.
Proof.
  intros Hpq Hqr. induction Hqr as [q Hq|q r t _ IH Ha Hr].
  - exact Hpq.
  - apply connected_step with r; [now apply IH|exact Ha|exact Hr].
Qed.

Lemma connected_sym (p q : ndimage.pixel) :
  connected a p q -> connected a q p.
Proof.
  induction 1 as [p Hp|p q r Hpq IH Ha Hr].
  - now apply connected_refl.
  - apply connected_trans with q; [|exact IH].
    apply connected_step with r; [now apply connected_refl| |].
    + now rewrite adjacent_sym.
    + eapply connected_foreground_r; eauto.
Qed.

Lemma connected_reached (p q : ndimage.pixel) :
  connected a p q
  <-> ndimage.foreground a p = true /\ reached (ndimage.foreground a) [p] q.
Proof.
  split.
  - induction 1 as [p Hp|p q r Hpq [Hp IH] Ha Hr].
    + split; [exact Hp|]. apply reached_seed. now left.
    + split; [exact Hp|]. eapply reached_step; eauto.
  - intros [Hp H]. induction H as [q [<-|[]]|q r _ IH Ha Hr].
    + now apply connected_refl.
    + eapply connected_step; eauto.
Qed.

(** [component] lists exactly the pixels connected to its seed. *)
Lemma component_spec (p q : ndimage.pixel) :
  In q (ndimage.component a p) <-> connected a p q.
Proof.
  unfold ndimage.component. rewrite connected_reached.
  destruct (ndimage.foreground a p) eqn:Hp.
  - split.
    + intros H. split; [reflexivity|]. eapply flood_sound; [|exact H].
      apply foreground_in_indices.
    + intros [_ H]. apply flood_complete.
      * apply NoDup_indices.
      * apply foreground_in_indices.
      * repeat constructor. intros [].
      * intros x [<-|[]]. now apply foreground_in_indices.
      * exact H.
  - split; [intros []|intros [E _]; discriminate E].
Qed.

Lemma mem_component (p q : ndimage.pixel) :
  ndimage.mem q (ndimage.component a p) = true <-> connected a p q.
Proof. rewrite mem_In. apply component_spec. Qed.

(** *** The first pixel of a feature *)

Lemma root_connected (p r : ndimage.pixel) :
  ndimage.root a p = Some r -> connected a r p.
Proof.
  unfold ndimage.root. intros H. apply find_some in H.
  now apply mem_component.
Qed.

Lemma find_ext {A : Type} (f g : A -> bool) (l : list A) :
  (forall x, f x = g x) -> find f l = find g l.
Proof.
  intros H. induction l as [|x l IH]; simpl; [reflexivity|].
  now rewrite H, IH.
Qed.

Lemma root_of_connected (p q : ndimage.pixel) :
  connected a p q -> ndimage.root a p = ndimage.root a q.
Proof.
  intros H. unfold ndimage.root. apply find_ext. intros r.
  apply eq_true_iff_eq. rewrite !mem_component. split; intros Hr.
  - now apply connected_trans with p.
  - apply connected_trans with q; [exact Hr|now apply connected_sym].
Qed.

Lemma root_exists (p : ndimage.pixel) :
  ndimage.foreground a p = true -> exists r, ndimage.root a p = Some r.
Proof.
  intros Hp. destruct (ndimage.root a p) as [r|] eqn:E; [now exists r|].
  unfold ndimage.root in E.
  pose proof (find_none _ _ E p (foreground_in_indices a p Hp)) as H.
  cbv beta in H. assert (T : ndimage.mem p (ndimage.component a p) = true)
    by (apply mem_component; now apply connected_refl).
  congruence.
Qed.

Lemma root_is_root (p r : ndimage.pixel) :
  ndimage.root a p = Some r -> In r (ndimage.roots a).
Proof.
  intros H. pose proof H as Hc. apply root_connected in Hc.
  unfold ndimage.roots. apply filter_In. split.
  - apply foreground_in_indices. eapply connected_foreground_l; eauto.
  - rewrite (@root_of_connected r p Hc), H. apply pixel_eqb_refl.
Qed.

(** *** Labels *)

Lemma index_of_inj (p q : ndimage.pixel) (s : list ndimage.pixel) :
  In p s -> In q s -> ndimage.index_of p s = ndimage.index_of q s -> p = q.
Proof.
  induction s as [|x s IH]; simpl; [intros []|].
  intros Hp Hq.
  destruct (ndimage.pixel_eqb p x) eqn:Ep, (ndimage.pixel_eqb q x) eqn:Eq.
  - apply pixel_eqb_eq in Ep, Eq. congruence.
  - discriminate.
  - discriminate.
  - intros E. injection E as E. apply IH; [| |exact E].
    + destruct Hp as [->|Hp]; [|exact Hp]. now rewrite pixel_eqb_refl in Ep.
    + destruct Hq as [->|Hq]; [|exact Hq]. now rewrite pixel_eqb_refl in Eq.
Qed.

Lemma label_at_nonzero (p : ndimage.pixel) :
  ndimage.label_at a p <> 0 <-> ndimage.foreground a p = true.
Proof.
  unfold ndimage.label_at. split.
  - destruct (ndimage.root a p) as [r|] eqn:E; [|congruence].
    intros _. apply root_connected in E. eapply connected_foreground_r; eauto.
  - intros Hp. destruct (@root_exists p Hp) as [r ->]. lia.
Qed.

(** Two pixels carry the same nonzero label exactly when they are connected. *)
Lemma label_at_connected (p q : ndimage.pixel) :
  ndimage.label_at a p <> 0 ->
  (ndimage.label_at a q = ndimage.label_at a p <-> connected a p q).
Proof.
  intros Hp. pose proof Hp as Hfg. apply label_at_nonzero in Hfg.
  destruct (@root_exists p Hfg) as [r Hr].
  split.
  - intros E. assert (Hq : ndimage.label_at a q <> 0) by congruence.
    apply label_at_nonzero in Hq. destruct (@root_exists q Hq) as [r' Hr'].
    unfold ndimage.label_at in E. rewrite Hr, Hr' in E.
    assert (Err : r' = r).
    { apply index_of_inj with (ndimage.roots a);
        [now apply root_is_root with q|now apply root_is_root with p|lia]. }
    subst r'. apply connected_trans with r.
    + apply connected_sym. now apply root_connected.
    + now apply root_connected.
  - intros H. unfold ndimage.label_at. now rewrite (@root_of_connected p q H).
Qed.

End Features.


(** ** Arrays given by their entries *)

Lemma get_like_inside {A B : Type} (d : B) (a : np.ndarray A)
    (f : nat -> nat -> B) (i j : nat) :
  (i < length a)%nat -> (j < length (nth i a []))%nat ->
  np.get d (ndimage.like a f) i j = f i j.
Proof.
  intros Hi Hj. unfold np.get, ndimage.like.
  rewrite (nth_indep _ [] (map (fun j => f O j) (seq 0 (length (nth O a [])))))
    by (now rewrite length_map, length_seq).
  rewrite (map_nth (fun i => map (fun j => f i j) (seq 0 (length (nth i a [])))) _ O).
  rewrite seq_nth by exact Hi. cbn [Nat.add].
  rewrite (nth_indep _ d (f i O)) by (now rewrite length_map, length_seq).
  rewrite (map_nth (fun j => f i j) _ O).
  now rewrite seq_nth.
Qed.

Lemma get_like_outside {A B : Type} (d : B) (a : np.ndarray A)
    (f : nat -> nat -> B) (i j : nat) :
  ~ ((i < length a)%nat /\ (j < length (nth i a []))%nat) ->
  np.get d (ndimage.like a f) i j = d.
Proof.
  intros H. destruct (Nat.lt_ge_cases i (length a)) as [Hi|Hi].
  - destruct (Nat.lt_ge_cases j (length (nth i a []))) as [Hj|Hj]; [tauto|].
    unfold np.get, ndimage.like.
    rewrite (nth_indep _ [] (map (fun j => f O j) (seq 0 (length (nth O a [])))))
      by (now rewrite length_map, length_seq).
    rewrite (map_nth (fun i => map (fun j => f i j) (seq 0 (length (nth i a [])))) _ O).
    rewrite seq_nth by exact Hi. cbn [Nat.add].
    apply nth_overflow. now rewrite length_map, length_seq.
  - unfold np.get, ndimage.like.
    rewrite (nth_overflow (map _ _)) by (now rewrite length_map, length_seq).
    now destruct j.
Qed.

Lemma item_like (a : np.ndarray Z) (f : nat -> nat -> Z) (p : Z * Z) :
  np.item (ndimage.like a f) p = np.item a p.
Proof. unfold np.item. now rewrite shape_like. Qed.

(** ** Segment selection and extraction *)

Lemma get_label (a : np.ndarray Z) (i j : nat) :
  np.get 0 (fst (ndimage.label a)) i j = ndimage.label_at a (i, j).
Proof.
  unfold ndimage.label. cbn [fst].
  destruct (Z.eq_dec (np.get 0 a i j) 0) as [Z0|NZ].
  - assert (L0 : ndimage.label_at a (i, j) = 0).
    { destruct (Z.eq_dec (ndimage.label_at a (i, j)) 0) as [E|NE]; [exact E|].
      apply label_at_nonzero, foreground_nonzero in NE. contradiction. }
    rewrite L0.
    destruct (Nat.lt_ge_cases i (length a)) as [Hi|Hi];
      [destruct (Nat.lt_ge_cases j (length (nth i a []))) as [Hj|Hj]|].
    + rewrite get_like_inside by assumption. exact L0.
    + apply get_like_outside. lia.
    + apply get_like_outside. lia.
  - apply get_in_range in NZ. destruct NZ as [Hi Hj].
    exact (@get_like_inside _ _ 0 a (fun i j => ndimage.label_at a (i, j)) i j Hi Hj).
Qed.

Lemma lookup_label (a : np.ndarray Z) (p : Z * Z) (i j : nat) :
  np.item a p = Ok (i, j) ->
  FaceCube.lookup (fst (ndimage.label a)) p = Ok (ndimage.label_at a (i, j)).
Proof.
  intros H. unfold FaceCube.lookup, ndimage.label. cbn [fst].
  rewrite item_like, H. cbn [bind fst snd].
  f_equal. apply (get_label a i j).
Qed.

Lemma get_masked (a segments : np.ndarray Z) (selected : Z) (i j : nat) :
  np.get 0 (FaceCube.masked a segments selected) i j
  = np.get 0 a i j * Z.b2z (np.get 0 segments i j =? selected).
Proof.
  unfold FaceCube.masked.
  destruct (Z.eq_dec (np.get 0 a i j) 0) as [Z0|NZ].
  - rewrite Z0, Z.mul_0_l.
    destruct (Nat.lt_ge_cases i (length a)) as [Hi|Hi];
      [destruct (Nat.lt_ge_cases j (length (nth i a []))) as [Hj|Hj]|].
    + rewrite get_like_inside by assumption. now rewrite Z0.
    + apply get_like_outside. lia.
    + apply get_like_outside. lia.
  - apply get_in_range in NZ. destruct NZ as [Hi Hj].
    exact (@get_like_inside _ _ 0 a
             (fun i j => np.get 0 a i j * Z.b2z (np.get 0 segments i j =? selected))
             i j Hi Hj).
Qed.

(** The segment of label [l]: the pixels connected to a pixel with that
    label, with the threshold frame's values. *)
Lemma masked_component (th : np.ndarray Z) (i j i' j' : nat) :
  ndimage.label_at th (i, j) <> 0 ->
  let seg := FaceCube.masked th (fst (ndimage.label th)) (ndimage.label_at th (i, j)) in
  (np.get 0 seg i' j' <> 0 <-> connected th (i, j) (i', j'))
  /\ (np.get 0 seg i' j' <> 0 -> np.get 0 seg i' j' = np.get 0 th i' j').
Proof.
  intros Hl seg. unfold seg. rewrite get_masked, get_label.
  pose proof (@label_at_connected th (i, j) (i', j') Hl) as Hc.
  destruct (Z.eqb_spec (ndimage.label_at th (i', j')) (ndimage.label_at th (i, j)))
    as [E|NE]; cbn [Z.b2z].
  - rewrite Z.mul_1_r. split; [|reflexivity]. split.
    + intros _. now apply Hc.
    + intros H. apply connected_foreground_r in H.
      now apply foreground_nonzero in H.
  - rewrite Z.mul_0_r. split; [|congruence]. split; [congruence|].
    intros H. apply Hc in H. contradiction.
Qed.

(** C6.  Let [p] be a pixel of the threshold frame and [l] its label in a
    fresh labelling.  If [l] is not 0, [select_segment] records [p] and
    [segment] produces a frame whose nonzero pixels are exactly the pixels
    connected to [p], with the values of the threshold frame, and
    [get_array] returns it.  If [l] is 0, [select_segment] clears the
    selection and the segment, and [segment], when the label of a recorded
    selection has vanished, clears the segment; in both cases [get_array]
    returns the full threshold frame. *)
Theorem segment_extraction
    (self : FaceCube.t) (th : np.ndarray Z) (p : Z * Z) (i j : nat) :
  FaceCube.threshold self = Some th ->
  np.item th p = Ok (i, j) ->
  FaceCube.lookup (fst (ndimage.label th)) p = Ok (ndimage.label_at th (i, j))
  /\ (ndimage.label_at th (i, j) <> 0 ->
      exists s1 s2 seg,
        FaceCube.select_segment self p = Ok s1
        /\ FaceCube.selected_segment s1 = Some p
        /\ FaceCube.threshold s1 = Some th
        /\ FaceCube.segment s1 = Ok s2
        /\ FaceCube.segmented s2 = Some seg
        /\ FaceCube.get_array s2 = Some seg
        /\ forall i' j',
             (np.get 0 seg i' j' <> 0 <-> connected th (i, j) (i', j'))
             /\ (np.get 0 seg i' j' <> 0 -> np.get 0 seg i' j' = np.get 0 th i' j'))
  /\ (ndimage.label_at th (i, j) = 0 ->
      (exists s1,
         FaceCube.select_segment self p = Ok s1
         /\ FaceCube.selected_segment s1 = None
         /\ FaceCube.segmented s1 = None
         /\ FaceCube.get_array s1 = Some th)
      /\ (FaceCube.selected_segment self = Some p ->
          exists s2,
            FaceCube.segment self = Ok s2
            /\ FaceCube.segmented s2 = None
            /\ FaceCube.get_array s2 = Some th)).
Proof.
  intros Hth Hitem. pose proof (lookup_label th p Hitem) as Hlook.
  split; [exact Hlook|]. split.
  - intros Hl.
    assert (Hb : negb (ndimage.label_at th (i, j) =? 0) = true)
      by (apply negb_true_iff, Z.eqb_neq; exact Hl).
    assert (Hp : (fst p, snd p) = p) by now destruct p.
    do 3 eexists.
    split.
    { unfold FaceCube.select_segment, FaceCube.labelled. rewrite Hth.
      cbn [bind fst snd]. rewrite Hlook. cbn [bind]. rewrite Hb. reflexivity. }
    cbn [FaceCube.selected_segment FaceCube.threshold].
    split; [now rewrite Hp|]. split; [reflexivity|].
    split.
    { unfold FaceCube.segment, FaceCube.labelled.
      cbn [FaceCube.selected_segment FaceCube.threshold]. rewrite Hp.
      cbn [bind fst snd]. rewrite Hlook. cbn [bind]. rewrite Hb. reflexivity. }
    cbn [FaceCube.segmented]. split; [reflexivity|]. split; [reflexivity|].
    intros i' j'. now apply masked_component.
  - intros Hl.
    assert (Hb : negb (ndimage.label_at th (i, j) =? 0) = false)
      by (rewrite Hl; reflexivity).
    split.
    + eexists. split.
      { unfold FaceCube.select_segment, FaceCube.labelled. rewrite Hth.
        cbn [bind fst snd]. rewrite Hlook. cbn [bind]. rewrite Hb. reflexivity. }
      cbn. auto.
    + intros Hsel. eexists. split.
      { unfold FaceCube.segment, FaceCube.labelled. rewrite Hsel, Hth.
        cbn [bind fst snd]. rewrite Hlook. cbn [bind]. rewrite Hb. reflexivity. }
      cbn. auto.
Qed.

Lemma segment_extraction_witness :
  exists s1 s2 seg,
    FaceCube.select_segment
      {| FaceCube.depth := [[600; 2047; 610]; [605; 2047; 2047]];
         FaceCube.threshold := Some [[600; 0; 610]; [605; 0; 0]];
         FaceCube.segmented := None;
         FaceCube.selected_segment := None |} (1, 0) = Ok s1
    /\ FaceCube.segment s1 = Ok s2
    /\ FaceCube.get_array s2 = Some seg
    /\ forall i' j',
         np.get 0 seg i' j' <> 0
         <-> connected [[600; 0; 610]; [605; 0; 0]] (1%nat, 0%nat) (i', j').
Proof.
  destruct (@segment_extraction
              {| FaceCube.depth := [[600; 2047; 610]; [605; 2047; 2047]];
                 FaceCube.threshold := Some [[600; 0; 610]; [605; 0; 0]];
                 FaceCube.segmented := None;
                 FaceCube.selected_segment := None |}
              [[600; 0; 610]; [605; 0; 0]] (1, 0) 1%nat 0%nat
              eq_refl eq_refl) as (_ & H & _).
  assert (Hl : ndimage.label_at [[600; 0; 610]; [605; 0; 0]] (1%nat, 0%nat) <> 0)
    by (vm_compute; discriminate).
  destruct (H Hl) as (s1 & s2 & seg & H1 & _ & _ & H2 & _ & H3 & H4).
  exists s1, s2, seg. repeat split; try assumption; now apply H4.
Defined.


(** * Further properties of the program *)

(** ** numpy.argwhere and the coordinate reductions *)

Lemma in_argwhere_row (i k : nat) (row : list Z) (p : nat * nat) :
  In p (np.argwhere_row i k row)
  <-> fst p = i /\ (k <= snd p)%nat /\ nth (snd p - k) row 0 <> 0.
Proof.
  revert k. induction row as [|v vs IH]; intros k; simpl.
  - split; [intros []|]. intros (_ & _ & H). now destruct (snd p - k)%nat.
  - rewrite in_app_iff, IH. destruct p as [i' j']. cbn [fst snd]. split.
    + intros [H|(Hi & Hk & H)].
      * destruct (Z.eqb_spec v 0) as [E|NE]; [contradiction|].
        destruct H as [E|[]]. injection E as <- <-.
        rewrite Nat.sub_diag. auto.
      * split; [exact Hi|]. split; [lia|].
        replace (j' - k)%nat with (S (j' - S k)) by lia. exact H.
    + intros (Hi & Hk & H). destruct (Nat.eq_dec j' k) as [->|NE].
      * left. rewrite Nat.sub_diag in H.
        destruct (Z.eqb_spec v 0) as [E|_]; [contradiction|]. left. congruence.
      * right. split; [exact Hi|]. split; [lia|].
        replace (j' - k)%nat with (S (j' - S k)) in H by lia. exact H.
Qed.

Lemma in_argwhere_from (k : nat) (a : np.ndarray Z) (p : nat * nat) :
  In p (np.argwhere_from k a)
  <-> (k <= fst p)%nat /\ nth (snd p) (nth (fst p - k) a []) 0 <> 0.
Proof.
  revert k. induction a as [|row rows IH]; intros k; simpl.
  - split; [intros []|]. intros (_ & H).
    destruct (fst p - k)%nat; now destruct (snd p).
  - rewrite in_app_iff, IH, in_argwhere_row. rewrite Nat.sub_0_r. split.
    + intros [(Hi & _ & H)|(Hk & H)].
      * rewrite Hi, Nat.sub_diag. split; [lia|exact H].
      * split; [lia|]. replace (fst p - k)%nat with (S (fst p - S k)) by lia. exact H.
    + intros (Hk & H). destruct (Nat.eq_dec (fst p) k) as [E|NE].
      * left. rewrite E, Nat.sub_diag in H. repeat split; [exact E|lia|exact H].
      * right. split; [lia|].
        replace (fst p - k)%nat with (S (fst p - S k)) in H by lia. exact H.
Qed.

(** [argwhere] lists exactly the nonzero pixels. *)
Lemma in_argwhere (a : np.ndarray Z) (i j : nat) :
  In (i, j) (np.argwhere a) <-> np.get 0 a i j <> 0.
Proof.
  unfold np.argwhere, np.get. rewrite in_argwhere_from. cbn [fst snd].
  rewrite Nat.sub_0_r. split; [now intros [_ H]|]. intros H. split; [lia|exact H].
Qed.

Lemma argwhere_nonempty (a : np.ndarray Z) :
  np.argwhere a <> [] <-> exists i j, np.get 0 a i j <> 0.
Proof.
  split.
  - destruct (np.argwhere a) as [|[i j] ps] eqn:E; [congruence|]. intros _.
    exists i, j. apply in_argwhere. rewrite E. now left.
  - intros (i & j & H) E. apply in_argwhere in H. rewrite E in H. contradiction.
Qed.

Lemma fold_min0_spec (ps : list (nat * nat)) (p : nat * nat) :
  let m := fold_left (fun m q => (Nat.min (fst m) (fst q), Nat.min (snd m) (snd q)))
                     ps p in
  forall q, In q (p :: ps) -> (fst m <= fst q)%nat /\ (snd m <= snd q)%nat.
Proof.
  revert p. induction ps as [|r ps IH]; intros p m q Hq; subst m; simpl in *.
  - destruct Hq as [->|[]]. lia.
  - specialize (IH (Nat.min (fst p) (fst r), Nat.min (snd p) (snd r))).
    cbv zeta in IH.
    pose proof (IH _ (or_introl eq_refl)) as H0. cbn [fst snd] in H0.
    destruct Hq as [->|[->|Hq]]; [lia|lia|]. apply IH. now right.
Qed.

Lemma fold_max0_spec (ps : list (nat * nat)) (p : nat * nat) :
  let m := fold_left (fun m q => (Nat.max (fst m) (fst q), Nat.max (snd m) (snd q)))
                     ps p in
  forall q, In q (p :: ps) -> (fst q <= fst m)%nat /\ (snd q <= snd m)%nat.
Proof.
  revert p. induction ps as [|r ps IH]; intros p m q Hq; subst m; simpl in *.
  - destruct Hq as [->|[]]. lia.
  - specialize (IH (Nat.max (fst p) (fst r), Nat.max (snd p) (snd r))).
    cbv zeta in IH.
    pose proof (IH _ (or_introl eq_refl)) as H0. cbn [fst snd] in H0.
    destruct Hq as [->|[->|Hq]]; [lia|lia|]. apply IH. now right.
Qed.

Lemma min0_spec (ps : list (nat * nat)) (lo : nat * nat) :
  np.min0 ps = Ok lo ->
  forall q, In q ps -> (fst lo <= fst q)%nat /\ (snd lo <= snd q)%nat.
Proof.
  unfold np.min0. destruct ps as [|p ps]; [discriminate|].
  intros E. injection E as <-. apply fold_min0_spec.
Qed.

Lemma max0_spec (ps : list (nat * nat)) (hi : nat * nat) :
  np.max0 ps = Ok hi ->
  forall q, In q ps -> (fst q <= fst hi)%nat /\ (snd q <= snd hi)%nat.
Proof.
  unfold np.max0. destruct ps as [|p ps]; [discriminate|].
  intros E. injection E as <-. apply fold_max0_spec.
Qed.

(** Each component of the column-wise minimum and maximum is the component
    of one of the coordinates. *)
Lemma fold_min0_attained (ps : list (nat * nat)) (p : nat * nat) :
  let m := fold_left (fun m q => (Nat.min (fst m) (fst q), Nat.min (snd m) (snd q)))
                     ps p in
  (exists q, In q (p :: ps) /\ fst q = fst m)
  /\ (exists q, In q (p :: ps) /\ snd q = snd m).
Proof.
  revert p. induction ps as [|r ps IH]; intros p m; subst m; cbn [fold_left].
  - split; exists p; split; auto; now left.
  - pose proof (IH (Nat.min (fst p) (fst r), Nat.min (snd p) (snd r))) as IH'.
    cbv zeta in IH'.
    set (m := fold_left _ ps _) in *.
    destruct IH' as [(q1 & H1 & E1) (q2 & H2 & E2)].
    split.
    + destruct H1 as [<-|H1]; [|exists q1; split; [now right; right|exact E1]].
      cbn [fst] in E1.
      destruct (Nat.min_spec (fst p) (fst r)) as [[_ M]|[_ M]].
      * exists p. split; [now left|congruence].
      * exists r. split; [now right; left|congruence].
    + destruct H2 as [<-|H2]; [|exists q2; split; [now right; right|exact E2]].
      cbn [snd] in E2.
      destruct (Nat.min_spec (snd p) (snd r)) as [[_ M]|[_ M]].
      * exists p. split; [now left|congruence].
      * exists r. split; [now right; left|congruence].
Qed.

Lemma fold_max0_attained (ps : list (nat * nat)) (p : nat * nat) :
  let m := fold_left (fun m q => (Nat.max (fst m) (fst q), Nat.max (snd m) (snd q)))
                     ps p in
  (exists q, In q (p :: ps) /\ fst q = fst m)
  /\ (exists q, In q (p :: ps) /\ snd q = snd m).
Proof.
  revert p. induction ps as [|r ps IH]; intros p m; subst m; cbn [fold_left].
  - split; exists p; split; auto; now left.
  - pose proof (IH (Nat.max (fst p) (fst r), Nat.max (snd p) (snd r))) as IH'.
    cbv zeta in IH'.
    set (m := fold_left _ ps _) in *.
    destruct IH' as [(q1 & H1 & E1) (q2 & H2 & E2)].
    split.
    + destruct H1 as [<-|H1]; [|exists q1; split; [now right; right|exact E1]].
      cbn [fst] in E1.
      destruct (Nat.max_spec (fst p) (fst r)) as [[_ M]|[_ M]].
      * exists r. split; [now right; left|congruence].
      * exists p. split; [now left|congruence].
    + destruct H2 as [<-|H2]; [|exists q2; split; [now right; right|exact E2]].
      cbn [snd] in E2.
      destruct (Nat.max_spec (snd p) (snd r)) as [[_ M]|[_ M]].
      * exists r. split; [now right; left|congruence].
      * exists p. split; [now left|congruence].
Qed.

Lemma min0_attained (ps : list (nat * nat)) (lo : nat * nat) :
  np.min0 ps = Ok lo ->
  (exists q, In q ps /\ fst q = fst lo) /\ (exists q, In q ps /\ snd q = snd lo).
Proof.
  unfold np.min0. destruct ps as [|p ps]; [discriminate|].
  intros E. injection E as <-. apply fold_min0_attained.
Qed.

Lemma max0_attained (ps : list (nat * nat)) (hi : nat * nat) :
  np.max0 ps = Ok hi ->
  (exists q, In q ps /\ fst q = fst hi) /\ (exists q, In q ps /\ snd q = snd hi).
Proof.
  unfold np.max0. destruct ps as [|p ps]; [discriminate|].
  intros E. injection E as <-. apply fold_max0_attained.
Qed.

(** The box [lo .. hi] is the bounding box of the nonzero pixels: they all
    lie inside it, and each of its four edges holds one. *)
Lemma bounding_box_tight (array : np.ndarray Z) (lo hi : nat * nat) :
  np.min0 (np.argwhere array) = Ok lo ->
  np.max0 (np.argwhere array) = Ok hi ->
  (forall i j, np.get 0 array i j <> 0 ->
     (fst lo <= i <= fst hi)%nat /\ (snd lo <= j <= snd hi)%nat)
  /\ (exists j, np.get 0 array (fst lo) j <> 0)
  /\ (exists i, np.get 0 array i (snd lo) <> 0)
  /\ (exists j, np.get 0 array (fst hi) j <> 0)
  /\ (exists i, np.get 0 array i (snd hi) <> 0).
Proof.
  intros Hlo Hhi. split.
  - intros i j NZ. apply in_argwhere in NZ.
    pose proof (min0_spec _ Hlo _ NZ) as [L1 L2].
    pose proof (max0_spec _ Hhi _ NZ) as [U1 U2].
    cbn [fst snd] in *. lia.
  - destruct (min0_attained _ Hlo) as [([i1 j1] & H1 & E1) ([i2 j2] & H2 & E2)].
    destruct (max0_attained _ Hhi) as [([i3 j3] & H3 & E3) ([i4 j4] & H4 & E4)].
    apply in_argwhere in H1, H2, H3, H4. cbn [fst snd] in *. subst.
    repeat split; eauto.
Qed.


(** ** PlyWriter.save: when it succeeds and what it writes *)

Lemma save_without_nonzero_pixel (self : PlyWriter.t) (fs : PlyWriter.filesystem)
    (array : np.ndarray Z) (leave_holes : bool) :
  np.argwhere array = [] ->
  exists self' op,
    PlyWriter.save self fs array leave_holes
    = (self', fs, Err (np.zero_size_reduction op)).
Proof.
  intros E. unfold PlyWriter.save.
  destruct (np.amax array) as [farthest|e] eqn:Hf.
  - unfold PlyWriter.collect. rewrite E. cbn. eauto.
  - unfold np.amax in Hf. destruct (np.ravel array); [|discriminate Hf].
    injection Hf as <-. eauto.
Qed.

(** X1.  [save] succeeds exactly on the frames with a nonzero pixel: then it
    returns a size and adds one file, named after the writer, to the file
    system; otherwise it raises ValueError and the file system is
    unchanged. *)
Theorem save_succeeds_iff_nonzero_pixel
    (self : PlyWriter.t) (fs : PlyWriter.filesystem)
    (array : np.ndarray Z) (leave_holes : bool) :
  ((exists i j, np.get 0 array i j <> 0) ->
   exists size file,
     snd (PlyWriter.save self fs array leave_holes) = Ok size
     /\ snd (fst (PlyWriter.save self fs array leave_holes))
        = (PlyWriter.name self, file) :: fs)
  /\ (~ (exists i j, np.get 0 array i j <> 0) ->
      fails_with "ValueError" (snd (PlyWriter.save self fs array leave_holes))
      /\ snd (fst (PlyWriter.save self fs array leave_holes)) = fs).
Proof.
  split.
  - intros H. apply argwhere_nonempty in H.
    destruct (@save_reductions array H) as (farthest & lo & hi & Hf & Hlo & Hhi).
    rewrite (@save_ok self fs array leave_holes farthest lo hi Hf Hlo Hhi).
    cbn [fst snd]. eauto.
  - intros H.
    assert (E : np.argwhere array = []).
    { destruct (np.argwhere array) eqn:E; [reflexivity|].
      exfalso. apply H. apply argwhere_nonempty. rewrite E. discriminate. }
    destruct (@save_without_nonzero_pixel self fs array leave_holes E)
      as (self' & op & ->).
    cbn [fst snd]. split; [|reflexivity]. eexists. reflexivity.
Qed.

Lemma write_points_vertices (f : list PlyWriter.line) (pts : list PlyWriter.point)
    (farthest : Q) (center : Q * Q) :
  PlyWriter.write_points f pts farthest center
  = f ++ map (vertex_line farthest center) pts.
Proof. reflexivity. Qed.

(** X2.  The file of a successful [save] is a well-formed vertex-only PLY
    file: the seven header lines, whose [element vertex] count is the number
    of points collected, followed by exactly that many vertex lines and
    nothing else. *)
Theorem saved_file_layout
    (self : PlyWriter.t) (fs : PlyWriter.filesystem)
    (array : np.ndarray Z) (leave_holes : bool) :
  np.argwhere array <> [] ->
  exists farthest n vertices,
    np.amax array = Ok farthest
    /\ snd (fst (PlyWriter.save self fs array leave_holes))
       = (PlyWriter.name self, ply_header n ++ vertices) :: fs
    /\ length vertices = n
    /\ Forall is_vertex vertices
    /\ n = (length (wall (np.shape array) (scale_for farthest) array farthest leave_holes)
            + length (back (np.shape array) (scale_for farthest) array farthest leave_holes)
            + length (mesh (np.shape array) (scale_for farthest) array))%nat.
Proof.
  intros H.
  destruct (@save_reductions array H) as (farthest & lo & hi & Hf & Hlo & Hhi).
  rewrite (@save_ok self fs array leave_holes farthest lo hi Hf Hlo Hhi).
  cbn [fst snd].
  exists farthest, (length (cloud_points array farthest leave_holes)).
  eexists. split; [exact Hf|]. split; [reflexivity|]. split; [apply length_map|].
  split.
  - apply Forall_map, Forall_forall. intros pt _. unfold vertex_line, is_vertex. eauto.
  - unfold cloud_points. rewrite !length_app. lia.
Qed.

Lemma saved_file_layout_witness :
  exists n vertices,
    snd (fst (PlyWriter.save (PlyWriter.init "out.ply") [] [[0; 600]; [650; 0]] true))
    = [("out.ply"%string, ply_header n ++ vertices)]
    /\ length vertices = n.
Proof.
  assert (H : np.argwhere [[0; 600]; [650; 0]] <> []) by discriminate.
  destruct (@saved_file_layout (PlyWriter.init "out.ply") []
              [[0; 600]; [650; 0]] true H)
    as (farthest & n & vertices & _ & Hfile & Hlen & _).
  exists n, vertices. split; [exact Hfile|exact Hlen].
Defined.


(** ** PlyWriter.save: the bounding box *)

Lemma extent_scaled (hi lo c : Z) (s : Q) :
  (inject_Z (hi + 1 - c) * s - inject_Z (lo - c) * s
   == inject_Z (hi + 1 - lo) * s)%Q.
Proof.
  unfold Z.sub. rewrite !inject_Z_plus, !inject_Z_opp. ring.
Qed.

Lemma centred_coordinate (x hi lo c : Z) (s : Q) :
  (inject_Z (x - c) * s - (inject_Z (lo - c) * s + inject_Z (hi + 1 - c) * s) / 2
   == inject_Z (2 * x - lo - hi - 1) / 2 * s)%Q.
Proof.
  unfold Z.sub. rewrite !inject_Z_plus, !inject_Z_opp, inject_Z_mult. field.
Qed.

(** X3.  On a frame with a nonzero pixel [save] returns the size of the
    bounding box of the nonzero pixels ([lo .. hi]: every nonzero pixel lies
    inside it and each of its four edges holds one): the number of rows and
    of columns it spans, each times the scale of the call.  The coordinates
    are written
    relative to the centre of that box, so the frame's own centre
    ([dims / 2]) cancels: the written x of a point at row [i] is
    [(2 i - lo - hi - 1) / 2] times the scale, and likewise for y. *)
Theorem saved_bounding_box
    (self : PlyWriter.t) (fs : PlyWriter.filesystem)
    (array : np.ndarray Z) (leave_holes : bool) :
  np.argwhere array <> [] ->
  exists farthest lo hi size center,
    np.amax array = Ok farthest
    /\ snd (PlyWriter.save self fs array leave_holes) = Ok size
    /\ (forall i j, np.get 0 array i j <> 0 ->
        (fst lo <= i <= fst hi)%nat /\ (snd lo <= j <= snd hi)%nat)
    /\ (exists j, np.get 0 array (fst lo) j <> 0)
    /\ (exists i, np.get 0 array i (snd lo) <> 0)
    /\ (exists j, np.get 0 array (fst hi) j <> 0)
    /\ (exists i, np.get 0 array i (snd hi) <> 0)
    /\ (fst size == inject_Z (Z.of_nat (fst hi) + 1 - Z.of_nat (fst lo))
                    * scale_for farthest)%Q
    /\ (snd size == inject_Z (Z.of_nat (snd hi) + 1 - Z.of_nat (snd lo))
                    * scale_for farthest)%Q
    /\ snd (fst (PlyWriter.save self fs array leave_holes))
       = (PlyWriter.name self,
          ply_header (length (cloud_points array farthest leave_holes))
          ++ map (vertex_line (distance_mm farthest) center)
                 (cloud_points array farthest leave_holes)) :: fs
    /\ forall i j z,
         match vertex_line (distance_mm farthest) center
                 (point_at (np.shape array) (scale_for farthest) i j z) with
         | PlyWriter.Vertex x y _ =>
             (x == inject_Z (2 * Z.of_nat i - Z.of_nat (fst lo) - Z.of_nat (fst hi) - 1)
                   / 2 * scale_for farthest)%Q
             /\ (y == inject_Z (2 * Z.of_nat j - Z.of_nat (snd lo) - Z.of_nat (snd hi) - 1)
                      / 2 * scale_for farthest)%Q
         | _ => False
         end.
Proof.
  intros H.
  destruct (@save_reductions array H) as (farthest & lo & hi & Hf & Hlo & Hhi).
  exists farthest, lo, hi.
  rewrite (@save_ok self fs array leave_holes farthest lo hi Hf Hlo Hhi).
  cbn [fst snd]. do 2 eexists.
  split; [exact Hf|]. split; [reflexivity|].
  destruct (bounding_box_tight array Hlo Hhi) as (B0 & B1 & B2 & B3 & B4).
  split; [exact B0|]. split; [exact B1|]. split; [exact B2|].
  split; [exact B3|]. split; [exact B4|].
  split; [|split; [|split]].
  - unfold box_size, corner_min, corner_max, project, PlyWriter.pixel_z.
    cbn [fst snd]. apply extent_scaled.
  - unfold box_size, corner_min, corner_max, project, PlyWriter.pixel_z.
    cbn [fst snd]. apply extent_scaled.
  - reflexivity.
  - intros i j z.
    unfold vertex_line, point_at, box_center, corner_min, corner_max, project,
      PlyWriter.pixel_z.
    cbn [fst snd]. split; apply centred_coordinate.
Qed.

Lemma saved_bounding_box_witness :
  exists farthest size,
    np.amax [[0; 600]; [650; 0]] = Ok farthest
    /\ snd (PlyWriter.save (PlyWriter.init "out.ply") [] [[0; 600]; [650; 0]] true)
       = Ok size
    /\ (fst size == 2 * scale_for farthest)%Q
    /\ (snd size == 2 * scale_for farthest)%Q.
Proof.
  assert (H : np.argwhere [[0; 600]; [650; 0]] <> []) by discriminate.
  destruct (@saved_bounding_box (PlyWriter.init "out.ply") []
              [[0; 600]; [650; 0]] true H)
    as (farthest & lo & hi & size & center & Hf & Hs & _).
  exists farthest, size. split; [exact Hf|]. split; [exact Hs|].
  assert (Ef : farthest = 650) by (vm_compute in Hf; congruence).
  subst farthest. vm_compute in Hs. injection Hs as <-. split; reflexivity.
Defined.


(** ** Loops over the indices of an array *)

Lemma flat_map_ext_in {A B : Type} (f g : A -> list B) (l : list A) :
  (forall x, In x l -> f x = g x) -> flat_map f l = flat_map g l.
Proof.
  induction l as [|x l IH]; intros H; simpl; [reflexivity|].
  rewrite (H x) by now left. f_equal. apply IH. intros y Hy. apply H. now right.
Qed.

Lemma map_flat_map {A B C : Type} (g : B -> C) (f : A -> list B) (l : list A) :
  map g (flat_map f l) = flat_map (fun x => map g (f x)) l.
Proof.
  induction l as [|x l IH]; simpl; [reflexivity|]. now rewrite map_app, IH.
Qed.

Lemma flat_map_map {A B C : Type} (g : A -> B) (f : B -> list C) (l : list A) :
  flat_map f (map g l) = flat_map (fun x => f (g x)) l.
Proof.
  induction l as [|x l IH]; simpl; [reflexivity|]. now rewrite IH.
Qed.

Section Scans.

Context {A B : Type}.

(** A loop over the positions of a list, reading the list at each position,
    is a loop over the list's entries paired with their positions. *)
Lemma scan_positions (d : A) (F : nat -> A -> list B) (l : list A) (k : nat) :
  flat_map (fun j => F j (nth (j - k) l d)) (seq k (length l))
  = flat_map (fun jx => F (fst jx) (snd jx)) (combine (seq k (length l)) l).
Proof.
  revert k. induction l as [|x l IH]; intros k; simpl; [reflexivity|].
  rewrite Nat.sub_diag. f_equal. rewrite <- IH.
  apply flat_map_ext_in. intros j Hj. apply in_seq in Hj.
  replace (j - k)%nat with (S (j - S k)) by lia. reflexivity.
Qed.

Lemma in_combine_seq (d : A) (l : list A) (k j : nat) (x : A) :
  In (j, x) (combine (seq k (length l)) l) ->
  (k <= j)%nat /\ nth (j - k) l d = x /\ In x l.
Proof.
  revert k. induction l as [|y l IH]; intros k; simpl; [intros []|].
  intros [E|H].
  - injection E as <- <-. rewrite Nat.sub_diag. auto.
  - apply IH in H. destruct H as (Hk & Hn & Hin).
    split; [lia|]. split; [|now right].
    replace (j - k)%nat with (S (j - S k)) by lia. exact Hn.
Qed.

End Scans.

Lemma combine_map_r {A B C : Type} (f : B -> C) (l : list A) (l' : list B) :
  combine l (map f l') = map (fun p => (fst p, f (snd p))) (combine l l').
Proof.
  revert l'. induction l as [|x l IH]; intros [|y l']; simpl; try reflexivity.
  now rewrite IH.
Qed.

Lemma argwhere_row_scan (i k : nat) (row : list Z) :
  np.argwhere_row i k row
  = flat_map (fun jv => if snd jv =? 0 then [] else [(i, fst jv)])
             (combine (seq k (length row)) row).
Proof.
  revert k. induction row as [|v vs IH]; intros k; simpl; [reflexivity|].
  now rewrite IH.
Qed.

Lemma argwhere_from_scan (k : nat) (a : np.ndarray Z) :
  np.argwhere_from k a
  = flat_map (fun ir => np.argwhere_row (fst ir) 0 (snd ir))
             (combine (seq k (length a)) a).
Proof.
  revert k. induction a as [|row rows IH]; intros k; simpl; [reflexivity|].
  now rewrite IH.
Qed.

(** ** PlyWriter.mesh_points: one point per nonzero pixel *)

Lemma masked_distance_test (v : Z) :
  negb (Qeq_bool (masked_distance v) 0) = negb (v =? 0).
Proof.
  f_equal. destruct (Z.eqb_spec v 0) as [->|NZ]; [reflexivity|].
  rewrite (masked_distance_nonzero NZ).
  destruct (Qeq_bool _ 0) eqn:E; [|reflexivity].
  apply Qeq_bool_iff in E. now apply distance_mm_nonzero in E.
Qed.

Lemma rect_rows {A : Type} (a : np.ndarray A) (row : list A) :
  np.rect a -> In row a -> length row = snd (np.shape a).
Proof.
  unfold np.rect. rewrite Forall_forall. auto.
Qed.

(** On a rectangular array the double loop of [mesh_points] visits the
    nonzero pixels in the order of [argwhere]. *)
Lemma mesh_argwhere (s : Q) (array : np.ndarray Z) :
  np.rect array ->
  mesh (np.shape array) s array
  = map (fun p => point_at (np.shape array) s (fst p) (snd p)
                    (distance_mm (np.get 0 array (fst p) (snd p))))
        (np.argwhere array).
Proof.
  intros Hrect. unfold mesh, np.argwhere.
  rewrite argwhere_from_scan, map_flat_map.
  set (d := np.shape array).
  assert (Hrows : fst d = length array) by reflexivity.
  rewrite Hrows.
  rewrite (flat_map_ext_in
             (fun i =>
                flat_map (fun j =>
                  let z := np.get 0%Q (np.amap masked_distance array) i j in
                  if negb (Qeq_bool z 0) then [point_at d s i j z] else [])
                  (seq 0 (snd d)))
             (fun i =>
                (fun i row =>
                   flat_map (fun j =>
                     let z := nth j (map masked_distance row) 0%Q in
                     if negb (Qeq_bool z 0) then [point_at d s i j z] else [])
                     (seq 0 (snd d))) i (nth (i - 0) array []))).
  2:{ intros i _. apply flat_map_ext_in. intros j _. cbv zeta.
      unfold np.get, np.amap. rewrite Nat.sub_0_r.
      change (@nil Q) with (map masked_distance []). now rewrite map_nth. }
  rewrite (scan_positions []
             (fun i row =>
                flat_map (fun j =>
                  let z := nth j (map masked_distance row) 0%Q in
                  if negb (Qeq_bool z 0) then [point_at d s i j z] else [])
                  (seq 0 (snd d)))).
  apply flat_map_ext_in. intros [i row] Hir. cbn [fst snd].
  apply (in_combine_seq []) in Hir. destruct Hir as (_ & Hnth & Hin).
  rewrite Nat.sub_0_r in Hnth.
  assert (Hw : snd d = length row)
    by (symmetry; exact (@rect_rows Z array row Hrect Hin)).
  rewrite Hw.
  rewrite argwhere_row_scan, map_flat_map.
  rewrite (flat_map_ext_in
             (fun j =>
                let z := nth j (map masked_distance row) 0%Q in
                if negb (Qeq_bool z 0) then [point_at d s i j z] else [])
             (fun j =>
                (fun j z => if negb (Qeq_bool z 0) then [point_at d s i j z] else [])
                  j (nth (j - 0) (map masked_distance row) 0%Q))).
  2:{ intros j _. cbv zeta beta. now rewrite Nat.sub_0_r. }
  rewrite <- (length_map masked_distance row) at 1.
  rewrite (scan_positions 0%Q
             (fun j z => if negb (Qeq_bool z 0) then [point_at d s i j z] else [])).
  rewrite length_map, combine_map_r, flat_map_map.
  apply flat_map_ext_in. intros [j v] Hjv. cbn [fst snd].
  apply (in_combine_seq 0) in Hjv. destruct Hjv as (_ & Hv & _).
  rewrite Nat.sub_0_r in Hv.
  rewrite masked_distance_test.
  destruct (Z.eqb_spec v 0) as [->|NZ]; [reflexivity|]. cbn [negb map fst snd].
  unfold np.get. rewrite Hnth, Hv. now rewrite (masked_distance_nonzero NZ).
Qed.


(** X4.  With the attributes that [save] assigns for a rectangular frame
    ([dims] the frame's shape), [mesh_points] returns exactly one point per
    nonzero pixel, in raster order: the point of the [k]-th coordinate of
    [argwhere], at that pixel's distance. *)
Theorem mesh_points_one_per_nonzero_pixel
    (self : PlyWriter.t) (s : Q) (array : np.ndarray Z) :
  np.rect array ->
  PlyWriter.dims self = Some (np.shape array) ->
  PlyWriter.scale self = Some s ->
  PlyWriter.mesh_points self array
  = Ok (map (fun p => point_at (np.shape array) s (fst p) (snd p)
                        (distance_mm (np.get 0 array (fst p) (snd p))))
            (np.argwhere array))
  /\ forall pts, PlyWriter.mesh_points self array = Ok pts ->
                 length pts = length (np.argwhere array).
Proof.
  intros Hrect Hd Hs.
  assert (E : PlyWriter.mesh_points self array
              = Ok (map (fun p => point_at (np.shape array) s (fst p) (snd p)
                                    (distance_mm (np.get 0 array (fst p) (snd p))))
                        (np.argwhere array))).
  { rewrite (@mesh_points_ok self array s Hd Hs).
    now rewrite (@mesh_argwhere s array Hrect). }
  split; [exact E|]. intros pts H. rewrite E in H. injection H as <-.
  apply length_map.
Qed.

Lemma mesh_points_one_per_nonzero_pixel_witness :
  PlyWriter.mesh_points
    {| PlyWriter.name := "out.ply"; PlyWriter.z_p := distance_mm 650;
       PlyWriter.dims := Some (2%nat, 2%nat);
       PlyWriter.scale := Some (scale_for 650) |} [[0; 600]; [650; 0]]
  = Ok [point_at (2%nat, 2%nat) (scale_for 650) 0 1 (distance_mm 600);
        point_at (2%nat, 2%nat) (scale_for 650) 1 0 (distance_mm 650)].
Proof.
  assert (Hrect : np.rect [[0; 600]; [650; 0]]) by (repeat constructor).
  exact (proj1 (@mesh_points_one_per_nonzero_pixel
                  {| PlyWriter.name := "out.ply"; PlyWriter.z_p := distance_mm 650;
                     PlyWriter.dims := Some (2%nat, 2%nat);
                     PlyWriter.scale := Some (scale_for 650) |}
                  (scale_for 650) [[0; 600]; [650; 0]] Hrect eq_refl eq_refl)).
Defined.

(** ** PlyWriter.back_points *)

Lemma rect_amap {A B : Type} (f : A -> B) (a : np.ndarray A) :
  np.rect a -> np.rect (np.amap f a).
Proof.
  unfold np.rect. rewrite shape_amap. unfold np.amap. rewrite Forall_map.
  apply Forall_impl. intros row. now rewrite length_map.
Qed.

Lemma argwhere_row_amap (f : Z -> Z) (i k : nat) (row : list Z) :
  (forall v, (f v =? 0) = (v =? 0)) ->
  np.argwhere_row i k (map f row) = np.argwhere_row i k row.
Proof.
  intros Hf. revert k. induction row as [|v vs IH]; intros k; simpl; [reflexivity|].
  now rewrite Hf, IH.
Qed.

Lemma argwhere_amap (f : Z -> Z) (a : np.ndarray Z) :
  (forall v, (f v =? 0) = (v =? 0)) ->
  np.argwhere (np.amap f a) = np.argwhere a.
Proof.
  intros Hf. unfold np.argwhere, np.amap. generalize O.
  induction a as [|row rows IH]; intros k; simpl; [reflexivity|].
  now rewrite (@argwhere_row_amap f k 0 row Hf), IH.
Qed.

(** The frame that [back_points] hands to [mesh_points] when holes are left:
    [depth] at the nonzero pixels. *)
Lemma back_frame (array : np.ndarray Z) (depth : Z) :
  np.amap (fun b : bool => depth * Z.b2z b) (PlyWriter.silhouette array true)
  = np.amap (fun v => depth * Z.b2z (PlyWriter.nonzero v)) array.
Proof.
  unfold PlyWriter.silhouette.
  exact (amap_amap PlyWriter.nonzero (fun b : bool => depth * Z.b2z b) array).
Qed.

(** X5.  With [leave_holes] set and a nonzero farthest value, [back_points]
    returns one point per nonzero pixel, in raster order, at the same (x, y)
    as the pixel's mesh point and at the distance of the farthest value: as
    many back-plane points as mesh points. *)
Theorem back_points_under_each_pixel
    (self : PlyWriter.t) (s : Q) (array : np.ndarray Z) (depth : Z) :
  np.rect array ->
  PlyWriter.dims self = Some (np.shape array) ->
  PlyWriter.scale self = Some s ->
  depth <> 0 ->
  PlyWriter.back_points self array depth true
  = Ok (map (fun p => point_at (np.shape array) s (fst p) (snd p) (distance_mm depth))
            (np.argwhere array)).
Proof.
  intros Hrect Hd Hs Hdepth.
  rewrite (@back_points_ok self array s Hd Hs). f_equal.
  unfold back. rewrite back_frame.
  set (array' := np.amap (fun v => depth * Z.b2z (PlyWriter.nonzero v)) array).
  assert (Hshape : np.shape array' = np.shape array) by apply shape_amap.
  assert (Hnz : forall v, (depth * Z.b2z (PlyWriter.nonzero v) =? 0) = (v =? 0)).
  { intros v. unfold PlyWriter.nonzero.
    destruct (Z.eqb_spec v 0) as [->|NZ]; simpl.
    - now rewrite Z.mul_0_r.
    - rewrite Z.mul_1_r. now apply Z.eqb_neq. }
  rewrite <- Hshape.
  rewrite (@mesh_argwhere s array' (@rect_amap _ _ _ array Hrect)).
  fold array'. unfold array' at 3. rewrite (@argwhere_amap _ array Hnz).
  apply map_ext_in. intros [i j] Hp. cbn [fst snd].
  apply in_argwhere in Hp.
  destruct (get_amap_cases (fun v => depth * Z.b2z (PlyWriter.nonzero v)) 0 0
              array i j) as [E|[_ E]]; [|contradiction].
  fold array' in E. rewrite E. unfold PlyWriter.nonzero.
  apply Z.eqb_neq in Hp. rewrite Hp. simpl. now rewrite Z.mul_1_r.
Qed.

Lemma back_points_under_each_pixel_witness :
  PlyWriter.back_points
    {| PlyWriter.name := "out.ply"; PlyWriter.z_p := distance_mm 650;
       PlyWriter.dims := Some (2%nat, 2%nat);
       PlyWriter.scale := Some (scale_for 650) |} [[0; 600]; [650; 0]] 650 true
  = Ok [point_at (2%nat, 2%nat) (scale_for 650) 0 1 (distance_mm 650);
        point_at (2%nat, 2%nat) (scale_for 650) 1 0 (distance_mm 650)].
Proof.
  assert (Hrect : np.rect [[0; 600]; [650; 0]]) by (repeat constructor).
  assert (Hdepth : 650 <> 0) by discriminate.
  exact (@back_points_under_each_pixel
           {| PlyWriter.name := "out.ply"; PlyWriter.z_p := distance_mm 650;
              PlyWriter.dims := Some (2%nat, 2%nat);
              PlyWriter.scale := Some (scale_for 650) |}
           (scale_for 650) [[0; 600]; [650; 0]] 650 Hrect eq_refl eq_refl Hdepth).
Defined.


(** ** The shape of derived arrays *)

Lemma rows_amap {A B : Type} (f : A -> B) (a : np.ndarray A) (i : nat) :
  length (np.amap f a) = length a
  /\ length (nth i (np.amap f a) []) = length (nth i a []).
Proof.
  unfold np.amap. split; [apply length_map|].
  change (@nil B) with (map f []). now rewrite map_nth, length_map.
Qed.

Lemma rows_like {A B : Type} (a : np.ndarray A) (f : nat -> nat -> B) (i : nat) :
  length (ndimage.like a f) = length a
  /\ length (nth i (ndimage.like a f) []) = length (nth i a []).
Proof.
  unfold ndimage.like. split; [now rewrite length_map, length_seq|].
  destruct (Nat.lt_ge_cases i (length a)) as [Hi|Hi].
  - rewrite (nth_indep _ [] (map (fun j => f O j) (seq 0 (length (nth O a [])))))
      by (now rewrite length_map, length_seq).
    rewrite (map_nth (fun i => map (fun j => f i j) (seq 0 (length (nth i a [])))) _ O).
    rewrite seq_nth by exact Hi. now rewrite length_map, length_seq.
  - rewrite (nth_overflow (map _ _)) by (now rewrite length_map, length_seq).
    now rewrite (nth_overflow a).
Qed.

Lemma rows_fill_holes (mask : np.ndarray bool) (i : nat) :
  length (ndimage.binary_fill_holes mask) = length mask
  /\ length (nth i (ndimage.binary_fill_holes mask) []) = length (nth i mask []).
Proof. unfold ndimage.binary_fill_holes. cbv zeta. apply rows_like. Qed.

Lemma rows_silhouette (array : np.ndarray Z) (leave_holes : bool) (i : nat) :
  length (PlyWriter.silhouette array leave_holes) = length array
  /\ length (nth i (PlyWriter.silhouette array leave_holes) []) = length (nth i array []).
Proof.
  unfold PlyWriter.silhouette.
  pose proof (rows_amap PlyWriter.nonzero array i) as [H1 H2].
  destruct leave_holes; [now split|].
  pose proof (rows_fill_holes (np.amap PlyWriter.nonzero array) i) as [H3 H4].
  split; congruence.
Qed.

(** ** binary_fill_holes never clears a pixel *)

Lemma flood_region (inside : ndimage.pixel -> bool) (universe : list ndimage.pixel)
    (n : nat) (s : list ndimage.pixel) (q : ndimage.pixel) :
  In q (ndimage.flood n inside universe s) -> In q s \/ inside q = true.
Proof.
  revert s. induction n as [|n IH]; intros s; simpl; [now left|].
  intros H. apply IH in H. destruct H as [H|H]; [|now right].
  unfold ndimage.grow in H. apply in_app_iff in H. destruct H as [H|H]; [now left|].
  apply filter_In in H. destruct H as [_ H].
  rewrite !andb_true_iff in H. right. tauto.
Qed.

Lemma fill_holes_keeps (mask : np.ndarray bool) (i j : nat) :
  np.get false mask i j = true ->
  np.get false (ndimage.binary_fill_holes mask) i j = true.
Proof.
  intros H.
  assert (Hr : (i < length mask)%nat /\ (j < length (nth i mask []))%nat).
  { apply (@get_in_range bool false). rewrite H. discriminate. }
  destruct Hr as [Hi Hj]. unfold ndimage.binary_fill_holes. cbv zeta.
  rewrite get_like_inside by assumption.
  apply negb_true_iff. destruct (ndimage.mem _ _) eqn:M; [|reflexivity].
  apply mem_In, flood_region in M. destruct M as [M|M].
  - apply filter_In in M. destruct M as [_ M]. cbn [fst snd] in M.
    rewrite H in M. discriminate M.
  - cbn [fst snd] in M. rewrite H in M. discriminate M.
Qed.

(** The silhouette covers every nonzero pixel, with or without holes. *)
Lemma silhouette_covers (array : np.ndarray Z) (leave_holes : bool) (i j : nat) :
  np.get 0 array i j <> 0 ->
  np.get false (PlyWriter.silhouette array leave_holes) i j = true.
Proof.
  intros NZ.
  assert (Hm : np.get false (np.amap PlyWriter.nonzero array) i j = true).
  { destruct (get_amap_cases PlyWriter.nonzero 0 false array i j) as [E|[_ E]];
      [|contradiction].
    rewrite E. unfold PlyWriter.nonzero. now apply negb_true_iff, Z.eqb_neq. }
  unfold PlyWriter.silhouette. destruct leave_holes; [exact Hm|].
  now apply fill_holes_keeps.
Qed.

(** ** The outline *)

Lemma get_erosion (mask : np.ndarray bool) (i j : nat) :
  np.get false mask i j = true ->
  np.get false (ndimage.binary_erosion mask) i j = surrounded mask i j.
Proof.
  intros H.
  assert (Hr : (i < length mask)%nat /\ (j < length (nth i mask []))%nat).
  { apply (@get_in_range bool false). rewrite H. discriminate. }
  destruct Hr as [Hi Hj]. unfold ndimage.binary_erosion.
  rewrite get_like_inside by assumption.
  rewrite H. unfold surrounded. now rewrite !andb_true_l.
Qed.

(** The outline keeps the value of the nonzero pixels that have a neighbour
    outside the silhouette, and is zero elsewhere. *)
Lemma get_outline (array : np.ndarray Z) (leave_holes : bool) (i j : nat) :
  np.get 0 (outline_of array leave_holes) i j
  = if surrounded (PlyWriter.silhouette array leave_holes) i j
    then 0 else np.get 0 array i j.
Proof.
  unfold outline_of. cbv zeta.
  destruct (Z.eq_dec (np.get 0 array i j) 0) as [Z0|NZ].
  - assert (E : np.get 0 (ndimage.like array (fun i j =>
                  np.get 0 array i j
                  * Z.b2z (xorb (np.get false (PlyWriter.silhouette array leave_holes) i j)
                             (np.get false
                                (ndimage.binary_erosion
                                   (PlyWriter.silhouette array leave_holes)) i j)))) i j = 0).
    { destruct (Nat.lt_ge_cases i (length array)) as [Hi|Hi];
        [destruct (Nat.lt_ge_cases j (length (nth i array []))) as [Hj|Hj]|].
      - rewrite get_like_inside by assumption. now rewrite Z0.
      - apply get_like_outside. lia.
      - apply get_like_outside. lia. }
    rewrite E, Z0. now destruct (surrounded _ i j).
  - pose proof (@silhouette_covers array leave_holes i j NZ) as Hm.
    pose proof NZ as Hr. apply get_in_range in Hr. destruct Hr as [Hi Hj].
    rewrite get_like_inside by assumption.
    rewrite (@get_erosion _ i j Hm), Hm.
    destruct (surrounded _ i j); simpl; lia.
Qed.


(** ** PlyWriter.outline_points: the wall *)

Lemma in_wall_steps (z depth z' : Z) :
  In z' (PlyWriter.wall_steps z depth) <-> z < z' < depth.
Proof.
  unfold PlyWriter.wall_steps. rewrite in_map_iff. split.
  - intros (k & <- & Hk). apply in_seq in Hk. lia.
  - intros H. exists (Z.to_nat (z' - (z + 1))). split; [lia|]. apply in_seq. lia.
Qed.

Lemma in_wall (d : nat * nat) (s : Q) (array : np.ndarray Z) (depth : Z)
    (leave_holes : bool) (pt : PlyWriter.point) :
  In pt (wall d s array depth leave_holes) <->
  exists i j z',
    (i < fst d)%nat /\ (j < snd d)%nat
    /\ np.get 0 array i j <> 0
    /\ surrounded (PlyWriter.silhouette array leave_holes) i j = false
    /\ np.get 0 array i j < z' < depth
    /\ pt = point_at d s i j (distance_mm z').
Proof.
  unfold wall. rewrite in_flat_map. split.
  - intros (i & Hi & H). apply in_flat_map in H. destruct H as (j & Hj & H).
    apply in_seq in Hi. apply in_seq in Hj. cbv zeta in H.
    rewrite get_outline in H.
    destruct (surrounded _ i j) eqn:S; [contradiction|].
    unfold PlyWriter.nonzero in H.
    destruct (Z.eqb_spec (np.get 0 array i j) 0) as [Z0|NZ]; [contradiction|].
    cbn [negb] in H. apply in_flat_map in H. destruct H as (z' & Hz & [H|[]]).
    apply in_wall_steps in Hz. subst pt.
    exists i, j, z'. repeat split; try lia; auto.
  - intros (i & j & z' & Hi & Hj & NZ & S & Hz & ->).
    exists i. split; [apply in_seq; lia|].
    apply in_flat_map. exists j. split; [apply in_seq; lia|].
    cbv zeta. rewrite get_outline, S. unfold PlyWriter.nonzero.
    apply Z.eqb_neq in NZ. rewrite NZ. cbn [negb].
    apply in_flat_map. exists z'. split; [now apply in_wall_steps|now left].
Qed.

Lemma flat_map_flat_map {A B C : Type} (f : A -> list B) (g : B -> list C) (l : list A) :
  flat_map g (flat_map f l) = flat_map (fun x => flat_map g (f x)) l.
Proof.
  induction l as [|x l IH]; simpl; [reflexivity|]. now rewrite flat_map_app, IH.
Qed.

(** A double loop over the indices of a rectangular array whose body does
    nothing at a zero entry is a loop over the coordinates of
    [argwhere]. *)
Lemma raster_argwhere {B : Type} (G : nat -> nat -> Z -> list B) (a : np.ndarray Z) :
  np.rect a ->
  (forall i j, G i j 0 = []) ->
  flat_map (fun i =>
    flat_map (fun j => G i j (np.get 0 a i j)) (seq 0 (snd (np.shape a))))
    (seq 0 (fst (np.shape a)))
  = flat_map (fun p => G (fst p) (snd p) (np.get 0 a (fst p) (snd p)))
             (np.argwhere a).
Proof.
  intros Hrect G0. unfold np.argwhere.
  rewrite argwhere_from_scan, flat_map_flat_map.
  set (d := np.shape a).
  assert (Hrows : fst d = length a) by reflexivity.
  rewrite Hrows.
  rewrite (flat_map_ext_in
             (fun i => flat_map (fun j => G i j (np.get 0 a i j)) (seq 0 (snd d)))
             (fun i =>
                (fun i row => flat_map (fun j => G i j (nth j row 0)) (seq 0 (snd d)))
                  i (nth (i - 0) a []))).
  2:{ intros i _. apply flat_map_ext_in. intros j _.
      unfold np.get. now rewrite Nat.sub_0_r. }
  rewrite (scan_positions []
             (fun i row => flat_map (fun j => G i j (nth j row 0)) (seq 0 (snd d)))).
  apply flat_map_ext_in. intros [i row] Hir. cbn [fst snd].
  apply (in_combine_seq []) in Hir. destruct Hir as (_ & Hnth & Hin).
  rewrite Nat.sub_0_r in Hnth.
  assert (Hw : snd d = length row)
    by (symmetry; exact (@rect_rows Z a row Hrect Hin)).
  rewrite Hw, argwhere_row_scan, flat_map_flat_map.
  rewrite (flat_map_ext_in
             (fun j => G i j (nth j row 0))
             (fun j => (fun j v => G i j v) j (nth (j - 0) row 0))).
  2:{ intros j _. now rewrite Nat.sub_0_r. }
  rewrite (scan_positions 0 (fun j v => G i j v)).
  apply flat_map_ext_in. intros [j v] Hjv. cbn [fst snd].
  apply (in_combine_seq 0) in Hjv. destruct Hjv as (_ & Hv & _).
  rewrite Nat.sub_0_r in Hv.
  destruct (Z.eqb_spec v 0) as [->|NZ]; [now rewrite G0|].
  cbn [map fst snd flat_map]. rewrite app_nil_r.
  unfold np.get. now rewrite Hnth, Hv.
Qed.

(** On a rectangular array the wall is built pixel by pixel in the order of
    [argwhere]. *)
Lemma wall_argwhere (s : Q) (array : np.ndarray Z) (depth : Z) (leave_holes : bool) :
  np.rect array ->
  wall (np.shape array) s array depth leave_holes
  = flat_map (fun p =>
      if surrounded (PlyWriter.silhouette array leave_holes) (fst p) (snd p)
      then []
      else map (fun z' => point_at (np.shape array) s (fst p) (snd p) (distance_mm z'))
               (PlyWriter.wall_steps (np.get 0 array (fst p) (snd p)) depth))
      (np.argwhere array).
Proof.
  intros Hrect. unfold wall.
  rewrite (flat_map_ext_in
             (fun i =>
                flat_map (fun j =>
                  let z := np.get 0 (outline_of array leave_holes) i j in
                  if PlyWriter.nonzero z
                  then flat_map
                         (fun z' => [point_at (np.shape array) s i j (distance_mm z')])
                         (PlyWriter.wall_steps z depth)
                  else []) (seq 0 (snd (np.shape array))))
             (fun i =>
                flat_map (fun j =>
                  (fun i j v =>
                     if surrounded (PlyWriter.silhouette array leave_holes) i j
                     then []
                     else if PlyWriter.nonzero v
                          then map (fun z' =>
                                      point_at (np.shape array) s i j (distance_mm z'))
                                   (PlyWriter.wall_steps v depth)
                          else []) i j (np.get 0 array i j))
                  (seq 0 (snd (np.shape array))))).
  2:{ intros i _. apply flat_map_ext_in. intros j _. cbv zeta beta.
      rewrite get_outline. destruct (surrounded _ i j); [reflexivity|].
      destruct (PlyWriter.nonzero _); [|reflexivity].
      generalize (PlyWriter.wall_steps (np.get 0 array i j) depth).
      intros l. induction l as [|x l IH]; simpl; [reflexivity|]. now rewrite IH. }
  rewrite (raster_argwhere
             (fun i j v =>
                if surrounded (PlyWriter.silhouette array leave_holes) i j
                then []
                else if PlyWriter.nonzero v
                     then map (fun z' =>
                                 point_at (np.shape array) s i j (distance_mm z'))
                              (PlyWriter.wall_steps v depth)
                     else []) Hrect).
  2:{ intros i j. now destruct (surrounded _ i j). }
  apply flat_map_ext_in. intros [i j] Hp. cbn [fst snd].
  apply in_argwhere in Hp. unfold PlyWriter.nonzero.
  apply Z.eqb_neq in Hp. now rewrite Hp.
Qed.

(** X6.  With [dims] the shape of the array, [outline_points] builds its
    wall above exactly the nonzero pixels that have one of their four
    neighbours outside the silhouette (or outside the frame): a point is in
    the wall exactly when it stands above such a pixel at the distance of a
    raw value strictly between the pixel's value and [depth].  On a
    rectangular array the list itself is known: the pixels are visited in
    raster order, and above such a pixel of raw value [v] the wall holds
    one point for each of the raw values [v + 1, ..., depth - 1], in that
    order. *)
Theorem outline_points_wall
    (self : PlyWriter.t) (s : Q)
    (array : np.ndarray Z) (depth : Z) (leave_holes : bool) :
  PlyWriter.dims self = Some (np.shape array) ->
  PlyWriter.scale self = Some s ->
  exists pts,
    PlyWriter.outline_points self array depth leave_holes = Ok pts
    /\ (forall pt,
         In pt pts <->
         exists i j z',
           (i < fst (np.shape array))%nat /\ (j < snd (np.shape array))%nat
           /\ np.get 0 array i j <> 0
           /\ surrounded (PlyWriter.silhouette array leave_holes) i j = false
           /\ np.get 0 array i j < z' < depth
           /\ pt = (fst (project (np.shape array) s (Z.of_nat i, Z.of_nat j)),
                    snd (project (np.shape array) s (Z.of_nat i, Z.of_nat j)),
                    distance_mm z'))
    /\ (np.rect array ->
        pts = flat_map (fun p =>
                if surrounded (PlyWriter.silhouette array leave_holes) (fst p) (snd p)
                then []
                else map (fun k =>
                            (fst (project (np.shape array) s
                                    (Z.of_nat (fst p), Z.of_nat (snd p))),
                             snd (project (np.shape array) s
                                    (Z.of_nat (fst p), Z.of_nat (snd p))),
                             distance_mm (np.get 0 array (fst p) (snd p) + 1 + Z.of_nat k)))
                         (seq 0 (Z.to_nat
                                   (depth - (np.get 0 array (fst p) (snd p) + 1)))))
              (np.argwhere array)).
Proof.
  intros Hd Hs. exists (wall (np.shape array) s array depth leave_holes).
  split; [exact (@outline_points_ok self array s Hd Hs depth leave_holes)|].
  split; [intros pt; apply in_wall|].
  intros Hrect. rewrite (wall_argwhere s depth leave_holes Hrect).
  apply flat_map_ext_in. intros p _.
  destruct (surrounded _ _ _); [reflexivity|].
  unfold PlyWriter.wall_steps. now rewrite map_map.
Qed.

Lemma outline_points_wall_witness :
  exists pts,
    PlyWriter.outline_points
      {| PlyWriter.name := "out.ply"; PlyWriter.z_p := distance_mm 603;
         PlyWriter.dims := Some (1%nat, 2%nat);
         PlyWriter.scale := Some (scale_for 603) |} [[600; 603]] 603 true = Ok pts
    /\ In (fst (project (1%nat, 2%nat) (scale_for 603) (0, 0)),
           snd (project (1%nat, 2%nat) (scale_for 603) (0, 0)),
           distance_mm 601) pts
    /\ length pts = 2%nat.
Proof.
  destruct (@outline_points_wall
              {| PlyWriter.name := "out.ply"; PlyWriter.z_p := distance_mm 603;
                 PlyWriter.dims := Some (1%nat, 2%nat);
                 PlyWriter.scale := Some (scale_for 603) |}
              (scale_for 603) [[600; 603]] 603 true eq_refl eq_refl)
    as (pts & Hpts & Hin & Hlist).
  exists pts. split; [exact Hpts|]. split.
  - apply Hin. exists 0%nat, 0%nat, 601.
    repeat split; cbn; try lia; try reflexivity; discriminate.
  - rewrite Hlist by (repeat constructor). reflexivity.
Defined.

(** ** PlyWriter.back_points: a point under every nonzero pixel *)

(** X7.  With [dims] the shape of the array, whatever [leave_holes] is,
    and for a nonzero farthest value, [back_points] puts a point at the
    distance of the farthest value under every nonzero pixel of the frame:
    the back plane covers the whole front surface. *)
Theorem back_points_cover_surface
    (self : PlyWriter.t) (s : Q)
    (array : np.ndarray Z) (depth : Z) (leave_holes : bool) :
  PlyWriter.dims self = Some (np.shape array) ->
  PlyWriter.scale self = Some s ->
  depth <> 0 ->
  exists pts,
    PlyWriter.back_points self array depth leave_holes = Ok pts
    /\ forall i j,
         (i < fst (np.shape array))%nat -> (j < snd (np.shape array))%nat ->
         np.get 0 array i j <> 0 ->
         In (fst (project (np.shape array) s (Z.of_nat i, Z.of_nat j)),
             snd (project (np.shape array) s (Z.of_nat i, Z.of_nat j)),
             distance_mm depth) pts.
Proof.
  intros Hd Hs Hdepth. exists (back (np.shape array) s array depth leave_holes).
  split; [exact (@back_points_ok self array s Hd Hs depth leave_holes)|].
  intros i j Hi Hj NZ. unfold back. apply in_mesh. exists i, j.
  pose proof (@silhouette_covers array leave_holes i j NZ) as Hm.
  destruct (get_amap_cases masked_distance 0 0%Q
              (np.amap (fun b : bool => depth * Z.b2z b)
                       (PlyWriter.silhouette array leave_holes)) i j) as [E|[_ E]].
  - destruct (get_amap_cases (fun b : bool => depth * Z.b2z b) false 0
                (PlyWriter.silhouette array leave_holes) i j) as [E'|[_ E']];
      [|congruence].
    rewrite Hm in E'. cbn [Z.b2z] in E'. rewrite Z.mul_1_r in E'.
    rewrite E, E', (masked_distance_nonzero Hdepth).
    repeat split; auto.
    destruct (Qeq_bool _ 0) eqn:B; [|reflexivity].
    apply Qeq_bool_iff in B. now apply distance_mm_nonzero in B.
  - exfalso.
    destruct (get_amap_cases (fun b : bool => depth * Z.b2z b) false 0
                (PlyWriter.silhouette array leave_holes) i j) as [E'|[_ E']];
      [|congruence].
    rewrite Hm in E'. cbn [Z.b2z] in E'. rewrite Z.mul_1_r in E'. congruence.
Qed.

Lemma back_points_cover_surface_witness :
  exists pts,
    PlyWriter.back_points
      {| PlyWriter.name := "out.ply"; PlyWriter.z_p := distance_mm 603;
         PlyWriter.dims := Some (1%nat, 2%nat);
         PlyWriter.scale := Some (scale_for 603) |} [[600; 603]] 603 false = Ok pts
    /\ In (fst (project (1%nat, 2%nat) (scale_for 603) (0, 0)),
           snd (project (1%nat, 2%nat) (scale_for 603) (0, 0)),
           distance_mm 603) pts.
Proof.
  assert (Hdepth : 603 <> 0) by discriminate.
  destruct (@back_points_cover_surface
              {| PlyWriter.name := "out.ply"; PlyWriter.z_p := distance_mm 603;
                 PlyWriter.dims := Some (1%nat, 2%nat);
                 PlyWriter.scale := Some (scale_for 603) |}
              (scale_for 603) [[600; 603]] 603 false
              eq_refl eq_refl Hdepth)
    as (pts & Hpts & Hin).
  exists pts. split; [exact Hpts|].
  apply (Hin 0%nat 0%nat); [simpl; lia|simpl; lia|discriminate].
Defined.


(** ** PlyWriter.save on a flat frame *)

Lemma back_argwhere (s : Q) (array : np.ndarray Z) (depth : Z) :
  np.rect array -> depth <> 0 ->
  back (np.shape array) s array depth true
  = map (fun p => point_at (np.shape array) s (fst p) (snd p) (distance_mm depth))
        (np.argwhere array).
Proof.
  intros Hrect Hdepth. unfold back. rewrite back_frame.
  set (array' := np.amap (fun v => depth * Z.b2z (PlyWriter.nonzero v)) array).
  assert (Hshape : np.shape array' = np.shape array) by apply shape_amap.
  assert (Hnz : forall v, (depth * Z.b2z (PlyWriter.nonzero v) =? 0) = (v =? 0)).
  { intros v. unfold PlyWriter.nonzero.
    destruct (Z.eqb_spec v 0) as [->|NZ]; simpl.
    - now rewrite Z.mul_0_r.
    - rewrite Z.mul_1_r. now apply Z.eqb_neq. }
  rewrite <- Hshape.
  rewrite (@mesh_argwhere s array' (@rect_amap _ _ _ array Hrect)).
  fold array'. unfold array' at 3. rewrite (@argwhere_amap _ array Hnz).
  apply map_ext_in. intros [i j] Hp. cbn [fst snd].
  apply in_argwhere in Hp.
  destruct (get_amap_cases (fun v => depth * Z.b2z (PlyWriter.nonzero v)) 0 0
              array i j) as [E|[_ E]]; [|contradiction].
  fold array' in E. rewrite E. unfold PlyWriter.nonzero.
  apply Z.eqb_neq in Hp. rewrite Hp. simpl. now rewrite Z.mul_1_r.
Qed.

Lemma amax_flat (array : np.ndarray Z) (c : Z) :
  0 < c ->
  every (fun v => v = 0 \/ v = c) array ->
  np.argwhere array <> [] ->
  np.amax array = Ok c.
Proof.
  intros Hc Hflat H.
  destruct (@save_reductions array H) as (farthest & _ & _ & Hf & _).
  destruct (amax_spec _ Hf) as [Hin Hub].
  apply argwhere_nonempty in H. destruct H as (i & j & NZ).
  pose proof (every_get i j Hflat NZ) as Hv. cbv beta in Hv.
  assert (Hle : c <= farthest).
  { destruct Hv as [Hv|Hv]; [contradiction|]. rewrite <- Hv.
    apply Hub. now apply get_in_ravel. }
  apply every_ravel in Hflat. rewrite Forall_forall in Hflat.
  destruct (Hflat _ Hin) as [E|E]; [lia|]. now rewrite Hf, E.
Qed.

Lemma wall_flat (d : nat * nat) (s : Q) (array : np.ndarray Z) (c : Z)
    (leave_holes : bool) :
  every (fun v => v = 0 \/ v = c) array ->
  wall d s array c leave_holes = [].
Proof.
  intros Hflat. destruct (wall d s array c leave_holes) as [|pt pts] eqn:E;
    [reflexivity|].
  assert (Hpt : In pt (wall d s array c leave_holes)) by (rewrite E; now left).
  apply in_wall in Hpt. destruct Hpt as (i & j & z' & _ & _ & NZ & _ & Hz & _).
  pose proof (every_get i j Hflat NZ) as Hv. cbv beta in Hv. lia.
Qed.

(** X8.  A rectangular frame whose nonzero pixels all hold the same positive
    raw value has no wall: saved with [leave_holes] set, the file holds two
    vertices per nonzero pixel (one of the back plane, one of the mesh), and
    every one of them is written at depth 0. *)
Theorem save_flat_frame
    (self : PlyWriter.t) (fs : PlyWriter.filesystem)
    (array : np.ndarray Z) (c : Z) :
  np.rect array ->
  0 < c ->
  every (fun v => v = 0 \/ v = c) array ->
  np.argwhere array <> [] ->
  exists vertices,
    snd (fst (PlyWriter.save self fs array true))
    = (PlyWriter.name self,
       ply_header (2 * length (np.argwhere array)) ++ vertices) :: fs
    /\ length vertices = (2 * length (np.argwhere array))%nat
    /\ Forall (fun l => exists x y z, l = PlyWriter.Vertex x y z /\ (z == 0)%Q)
              vertices.
Proof.
  intros Hrect Hc Hflat H.
  pose proof (amax_flat Hc Hflat H) as Hf.
  destruct (@save_reductions array H) as (farthest & lo & hi & Hf' & Hlo & Hhi).
  assert (farthest = c) by congruence. subst farthest.
  rewrite (@save_ok self fs array true c lo hi Hf Hlo Hhi). cbn [fst snd].
  assert (Hc0 : c <> 0) by lia.
  assert (Hcloud : cloud_points array c true
                   = map (fun p => point_at (np.shape array) (scale_for c)
                                     (fst p) (snd p) (distance_mm c))
                         (np.argwhere array ++ np.argwhere array)).
  { unfold cloud_points.
    rewrite (wall_flat _ _ _ Hflat), (back_argwhere _ Hrect Hc0),
      (@mesh_argwhere (scale_for c) array Hrect), map_app. cbn [app].
    f_equal. apply map_ext_in. intros [i j] Hp. cbn [fst snd].
    apply in_argwhere in Hp.
    destruct (every_get i j Hflat Hp) as [E|E]; [contradiction|]. now rewrite E. }
  assert (Hn : length (cloud_points array c true) = (2 * length (np.argwhere array))%nat).
  { rewrite Hcloud, length_map, length_app. lia. }
  eexists. unfold PlyWriter.write_points, PlyWriter.write_header.
  rewrite Hn. split; [reflexivity|]. split.
  - now rewrite length_map.
  - rewrite Hcloud. apply Forall_map, Forall_map, Forall_forall.
    intros p _. do 3 eexists. split; [reflexivity|]. cbn [snd point_at]. ring.
Qed.

Lemma save_flat_frame_witness :
  exists vertices,
    snd (fst (PlyWriter.save (PlyWriter.init "out.ply") [] [[0; 600]; [600; 600]] true))
    = [("out.ply"%string, ply_header 6 ++ vertices)]
    /\ length vertices = 6%nat.
Proof.
  assert (Hrect : np.rect [[0; 600]; [600; 600]]) by (repeat constructor).
  assert (Hc : 0 < 600) by lia.
  assert (Hflat : every (fun v => v = 0 \/ v = 600) [[0; 600]; [600; 600]])
    by (repeat constructor; auto).
  assert (H : np.argwhere [[0; 600]; [600; 600]] <> []) by discriminate.
  destruct (@save_flat_frame (PlyWriter.init "out.ply") [] [[0; 600]; [600; 600]] 600
              Hrect Hc Hflat H) as (vertices & Hfile & Hlen & _).
  exists vertices. split; [exact Hfile|exact Hlen].
Defined.


(** ** FaceCube.generate_threshold: what is kept *)

Lemma fold_min_spec (vs : list Z) (v : Z) :
  In (fold_left Z.min vs v) (v :: vs)
  /\ forall x, In x (v :: vs) -> fold_left Z.min vs v <= x.
Proof.
  revert v. induction vs as [|w vs IH]; intros v; simpl.
  - split; [now left|]. intros x [->|[]]. lia.
  - destruct (IH (Z.min v w)) as [Hin Hlb]. split.
    + destruct Hin as [E|Hin]; [|now right; right].
      rewrite <- E. destruct (Z.min_spec v w) as [[_ ->]|[_ ->]]; auto.
    + intros x Hx. assert (Hm : Z.min v w <= x \/ In x vs).
      { destruct Hx as [->|[->|Hx]]; [left; lia|left; lia|now right]. }
      destruct Hm as [Hm|Hm].
      * specialize (Hlb (Z.min v w) (or_introl eq_refl)). lia.
      * apply Hlb. now right.
Qed.

Lemma amin_spec (a : np.ndarray Z) (m : Z) :
  np.amin a = Ok m ->
  In m (np.ravel a) /\ forall x, In x (np.ravel a) -> m <= x.
Proof.
  unfold np.amin. destruct (np.ravel a) as [|v vs]; [discriminate|].
  intros E. injection E as <-. apply fold_min_spec.
Qed.

Lemma distance_cm_nonzero (raw : Z) : ~ (distance_cm raw == 0)%Q.
Proof.
  intros E.
  assert (H : (distance_cm raw * denominator raw == 100)%Q)
    by (unfold distance_cm; field; apply denominator_nonzero).
  rewrite E, Qmult_0_l in H. discriminate H.
Qed.

Lemma window_gain (w D : Q) :
  (1 <= w)%Q -> (212 # 100000 <= D)%Q ->
  ((307 # 10000000000) * (100 + w * D) <= w * D * D)%Q.
Proof.
  intros Hw HD.
  assert (A1 : (D <= w * D)%Q) by nra.
  assert (B1 : (0 <= w * D - D)%Q) by lra.
  assert (B2 : (0 <= D - (307 # 10000000000))%Q) by lra.
  assert (A2 : (0 <= (w * D - D) * (D - (307 # 10000000000)))%Q)
    by (apply Qmult_le_0_compat; assumption).
  assert (B3 : (0 <= D - (212 # 100000))%Q) by lra.
  assert (B4 : (0 <= D + (212 # 100000) - (307 # 10000000000))%Q) by lra.
  assert (A3 : (0 <= (D - (212 # 100000))
                     * (D + (212 # 100000) - (307 # 10000000000)))%Q)
    by (apply Qmult_le_0_compat; assumption).
  lra.
Qed.

(** With the closest reading in front of the calibration pole and a window
    of at least one centimetre, the cutoff lies well inside the gap between
    the closest reading and 1085: more than a hundred-thousandth of a raw
    unit above the closest reading, and more than three tenths below 1085.
    The decisions for the closest reading and for the readings from 1085 on
    are far from a rounding boundary of the floating-point evaluation. *)
Lemma cutoff_margin (closest : Z) (w : Q) :
  closest <= 1084 -> (1 <= w)%Q ->
  exists q,
    FaceCube.cutoff closest w = FaceCube.Finite q
    /\ (inject_Z closest + (1 # 100000) <= q)%Q /\ (q + (3 # 10) <= 1085)%Q.
Proof.
  intros Hc Hw.
  pose proof (distance_cm_pos Hc) as Hd.
  assert (Hs : (0 < distance_cm closest + w)%Q) by lra.
  assert (Hn : ~ (distance_cm closest + w == 0)%Q) by (intros X; rewrite X in Hs; lra).
  rewrite (cutoff_finite Hn). eexists. split; [reflexivity|].
  assert (HD0 : (212 # 100000 <= denominator closest)%Q).
  { unfold denominator. q2z. lia. }
  assert (Ec : (inject_Z closest == (333 # 100) * (100000 # 307)
                                   - denominator closest * (100000 # 307))%Q).
  { unfold denominator. field. }
  assert (E : (100 / (distance_cm closest + w)
               == 100 * denominator closest / (100 + w * denominator closest))%Q).
  { unfold distance_cm. field. split; [|lra].
    assert (A0 : (0 <= w * denominator closest)%Q) by (apply Qmult_le_0_compat; lra).
    lra. }
  set (D := denominator closest) in *.
  assert (A0 : (0 <= w * D)%Q) by (apply Qmult_le_0_compat; lra).
  assert (HwD : (0 < 100 + w * D)%Q) by lra.
  assert (Hfrac : ((307 # 10000000000) <= D - 100 * D / (100 + w * D))%Q).
  { assert (X : (D - 100 * D / (100 + w * D) == w * D * D / (100 + w * D))%Q)
      by (field; lra).
    rewrite X. apply Qle_shift_div_l; [exact HwD|]. now apply window_gain. }
  assert (Hpos : (0 < 100 * D / (100 + w * D))%Q).
  { apply Qlt_shift_div_l; [exact HwD|]. lra. }
  rewrite E, Ec. unfold Qdiv at 1 3.
  change (/ -0.00307)%Q with (-100000 # 307)%Q.
  change 3.33%Q with (333 # 100)%Q.
  set (f := (100 * D / (100 + w * D))%Q) in *.
  split; lra.
Qed.

Lemma get_rewrapped_threshold (c : FaceCube.cutoff_value) (d : np.ndarray Z) (i j : nat) :
  np.get 0 (np.amap (fun v => v * Z.b2z (FaceCube.within v c)) d) i j
  = if FaceCube.within (np.get 0 d i j) c then np.get 0 d i j else 0.
Proof. rewrite get_threshold. apply threshold_pixel. Qed.

Lemma generate_threshold_ok (self : FaceCube.t) (face_depth : Q) (closest : Z) :
  np.amin (np.amap FaceCube.rewrap (FaceCube.depth self)) = Ok closest ->
  FaceCube.generate_threshold self face_depth
  = Ok {| FaceCube.depth := np.amap FaceCube.rewrap (FaceCube.depth self);
          FaceCube.threshold :=
            Some (np.amap
                    (fun v => v * Z.b2z (FaceCube.within v
                                           (FaceCube.cutoff closest face_depth)))
                    (np.amap FaceCube.rewrap (FaceCube.depth self)));
          FaceCube.segmented := FaceCube.segmented self;
          FaceCube.selected_segment := FaceCube.selected_segment self |}.
Proof.
  intros H. unfold FaceCube.generate_threshold. now rewrite H.
Qed.

Lemma in_ravel_get (a : np.ndarray Z) (x : Z) :
  In x (np.ravel a) -> exists i j, np.get 0 a i j = x.
Proof.
  unfold np.ravel, np.get. intros H. apply in_concat in H.
  destruct H as (row & Hrow & Hx).
  apply (In_nth _ _ []) in Hrow. destruct Hrow as (i & _ & <-).
  apply (In_nth _ _ 0) in Hx. destruct Hx as (j & _ & <-).
  now exists i, j.
Qed.



(** X11.  [generate_threshold] fails exactly on a capture without a pixel,
    with the ValueError of [numpy.amin]; on every other capture it succeeds
    for every window, and afterwards [get_array] returns a frame. *)
Theorem generate_threshold_fails_iff_no_pixel (self : FaceCube.t) (face_depth : Q) :
  (has_pixel (FaceCube.depth self) ->
   exists s1 a,
     FaceCube.generate_threshold self face_depth = Ok s1
     /\ FaceCube.get_array s1 = Some a)
  /\ (~ has_pixel (FaceCube.depth self) ->
      FaceCube.generate_threshold self face_depth
      = Err (np.zero_size_reduction "minimum")).
Proof.
  split.
  - intros Hp. apply (has_pixel_amap FaceCube.rewrap) in Hp.
    apply amin_has_pixel in Hp. destruct Hp as [closest Hmin].
    rewrite (generate_threshold_ok self face_depth Hmin).
    unfold FaceCube.get_array.
    destruct (FaceCube.segmented self) as [a|] eqn:E;
      do 2 eexists; (split; [reflexivity|]);
      cbn [FaceCube.segmented FaceCube.threshold]; reflexivity.
  - intros Hp. unfold FaceCube.generate_threshold, np.amin.
    rewrite ravel_amap.
    unfold has_pixel in Hp. destruct (np.ravel (FaceCube.depth self)); [reflexivity|].
    exfalso. apply Hp. discriminate.
Qed.


(** ** FaceCube.segment recomputes the segment *)

Lemma segment_without_selection (self : FaceCube.t) :
  FaceCube.selected_segment self = None -> FaceCube.segment self = Ok self.
Proof. intros H. unfold FaceCube.segment. now rewrite H. Qed.

(** With a selection recorded, the result of [segment] depends on the depth,
    the threshold frame and the selection only. *)
Lemma segment_congruence (s s' : FaceCube.t) :
  FaceCube.depth s = FaceCube.depth s' ->
  FaceCube.threshold s = FaceCube.threshold s' ->
  FaceCube.selected_segment s = FaceCube.selected_segment s' ->
  FaceCube.selected_segment s <> None ->
  FaceCube.segment s = FaceCube.segment s'.
Proof.
  intros Hd Ht Hs Hne. unfold FaceCube.segment. rewrite <- Hs, <- Ht, <- Hd.
  destruct (FaceCube.selected_segment s); [reflexivity|congruence].
Qed.

Lemma segment_keeps (self s' : FaceCube.t) :
  FaceCube.segment self = Ok s' ->
  FaceCube.depth s' = FaceCube.depth self
  /\ FaceCube.threshold s' = FaceCube.threshold self
  /\ FaceCube.selected_segment s' = FaceCube.selected_segment self.
Proof.
  unfold FaceCube.segment. destruct (FaceCube.selected_segment self) as [p|] eqn:E.
  - destruct (FaceCube.labelled _) as [ts|e]; [|discriminate].
    cbn [bind]. destruct (FaceCube.lookup _ p) as [l|e]; [|discriminate].
    cbn [bind]. intros H. injection H as <-. cbn. auto.
  - intros H. injection H as <-. auto.
Qed.

Lemma hole_fill_keeps (self : FaceCube.t) (window : Z) :
  FaceCube.depth (FaceCube.hole_fill self window) = FaceCube.depth self
  /\ FaceCube.threshold (FaceCube.hole_fill self window) = FaceCube.threshold self
  /\ FaceCube.selected_segment (FaceCube.hole_fill self window)
     = FaceCube.selected_segment self.
Proof.
  unfold FaceCube.hole_fill. destruct (FaceCube.segmented self); cbn; auto.
Qed.

(** X12.  [segment] recomputes the segment from the threshold frame and the
    recorded selection alone: running it again changes nothing, and with a
    selection recorded it undoes any hole filling done since. *)
Theorem segment_recomputes (self s1 : FaceCube.t) (window : Z) :
  FaceCube.segment self = Ok s1 ->
  FaceCube.segment s1 = Ok s1
  /\ (FaceCube.selected_segment self <> None ->
      FaceCube.segment (FaceCube.hole_fill s1 window) = Ok s1).
Proof.
  intros H. destruct (segment_keeps _ H) as (Hd & Ht & Hs).
  destruct (FaceCube.selected_segment self) as [p|] eqn:Hsel.
  - assert (Hne : FaceCube.selected_segment s1 <> None) by congruence.
    assert (E : FaceCube.segment s1 = Ok s1).
    { rewrite <- H. apply segment_congruence; congruence. }
    split; [exact E|]. intros _.
    destruct (hole_fill_keeps s1 window) as (Hd' & Ht' & Hs').
    rewrite <- E. apply segment_congruence; congruence.
  - rewrite (segment_without_selection _ Hsel) in H. injection H as <-.
    split; [now apply segment_without_selection|congruence].
Qed.

Lemma segment_recomputes_witness :
  FaceCube.segment
    {| FaceCube.depth := [[600; 2047; 610]];
       FaceCube.threshold := Some [[600; 0; 610]];
       FaceCube.segmented := Some [[600; 0; 0]];
       FaceCube.selected_segment := Some (0, 0) |}
  = Ok {| FaceCube.depth := [[600; 2047; 610]];
          FaceCube.threshold := Some [[600; 0; 610]];
          FaceCube.segmented := Some [[600; 0; 0]];
          FaceCube.selected_segment := Some (0, 0) |}.
Proof.
  refine (proj1 (@segment_recomputes
                   {| FaceCube.depth := [[600; 2047; 610]];
                      FaceCube.threshold := Some [[600; 0; 610]];
                      FaceCube.segmented := None;
                      FaceCube.selected_segment := Some (0, 0) |} _ 3 _)).
  vm_compute. reflexivity.
Defined.


(** ** The main loop: a paused pass repeats itself *)

Lemma Qle_bool_compat (a a' b b' : Q) :
  (a == a')%Q -> (b == b')%Q -> Qle_bool a b = Qle_bool a' b'.
Proof.
  intros Ha Hb. apply eq_true_iff_eq. rewrite !Qle_bool_iff. now rewrite Ha, Hb.
Qed.

Lemma Qeq_bool_compat (a a' b b' : Q) :
  (a == a')%Q -> (b == b')%Q -> Qeq_bool a b = Qeq_bool a' b'.
Proof.
  intros Ha Hb. apply eq_true_iff_eq. rewrite !Qeq_bool_iff. now rewrite Ha, Hb.
Qed.

Lemma py_max_compat (a b b' : Q) :
  (b == b')%Q -> (Main.py_max a b == Main.py_max a b')%Q.
Proof.
  intros Hb. unfold Main.py_max.
  rewrite (Qle_bool_compat Hb (Qeq_refl a)).
  destruct (Qle_bool b' a); [reflexivity|exact Hb].
Qed.

Lemma py_min_compat (a a' b : Q) :
  (a == a')%Q -> (Main.py_min a b == Main.py_min a' b)%Q.
Proof.
  intros Ha. unfold Main.py_min.
  rewrite (Qle_bool_compat Ha (Qeq_refl b)).
  destruct (Qle_bool a' b); [exact Ha|reflexivity].
Qed.

Lemma next_face_depth_range (face_depth changing_depth : Q) :
  (0 <= Main.next_face_depth face_depth changing_depth <= 2047)%Q.
Proof.
  unfold Main.next_face_depth, Main.py_min, Main.py_max.
  destruct (Qle_bool (face_depth + changing_depth) 0) eqn:E1.
  - assert (E2 : Qle_bool 0 2047 = true) by reflexivity. rewrite E2.
    split; [apply Qle_refl|discriminate].
  - assert (H1 : (0 < face_depth + changing_depth)%Q).
    { apply Qnot_le_lt. intros H. apply Qle_bool_iff in H. congruence. }
    destruct (Qle_bool (face_depth + changing_depth) 2047) eqn:E2.
    + apply Qle_bool_iff in E2. split; [now apply Qlt_le_weak|exact E2].
    + split; [discriminate|apply Qle_refl].
Qed.

(** With no key held the clamp gives back a window that is already in
    range. *)
Lemma next_face_depth_fixed (face_depth : Q) :
  (0 <= face_depth <= 2047)%Q ->
  (Main.next_face_depth face_depth 0 == face_depth)%Q.
Proof.
  intros [H0 H1]. unfold Main.next_face_depth, Main.py_min, Main.py_max.
  destruct (Qle_bool (face_depth + 0) 0) eqn:E1.
  - apply Qle_bool_iff in E1. assert (E2 : Qle_bool 0 2047 = true) by reflexivity.
    rewrite E2. lra.
  - assert (E2 : Qle_bool (face_depth + 0) 2047 = true)
      by (apply Qle_bool_iff; lra).
    rewrite E2. lra.
Qed.

Lemma within_compat (v closest : Z) (w w' : Q) :
  (w == w')%Q ->
  FaceCube.within v (FaceCube.cutoff closest w)
  = FaceCube.within v (FaceCube.cutoff closest w').
Proof.
  intros H. unfold FaceCube.cutoff.
  set (cm := (100 / (-0.00307 * inject_Z closest + 3.33))%Q).
  rewrite (@Qeq_bool_compat (cm + w) (cm + w') 0 0)
    by (rewrite ?H; reflexivity).
  destruct (Qeq_bool (cm + w') 0); [reflexivity|].
  cbn [FaceCube.within]. apply Qle_bool_compat; [reflexivity|].
  now rewrite H.
Qed.

(** Thresholding sees the window as a number, not as a fraction. *)
Lemma generate_threshold_compat (self : FaceCube.t) (w w' : Q) :
  (w == w')%Q ->
  FaceCube.generate_threshold self w = FaceCube.generate_threshold self w'.
Proof.
  intros H. unfold FaceCube.generate_threshold.
  destruct (np.amin _) as [closest|e]; [|reflexivity]. cbn [bind].
  do 3 f_equal. unfold np.amap. apply map_ext. intros row. apply map_ext. intros v.
  now rewrite (within_compat v closest H).
Qed.

Lemma generate_threshold_keeps (self s1 : FaceCube.t) (w : Q) :
  FaceCube.generate_threshold self w = Ok s1 ->
  FaceCube.depth s1 = np.amap FaceCube.rewrap (FaceCube.depth self)
  /\ FaceCube.segmented s1 = FaceCube.segmented self
  /\ FaceCube.selected_segment s1 = FaceCube.selected_segment self.
Proof.
  unfold FaceCube.generate_threshold. destruct (np.amin _); [|discriminate].
  cbn [bind]. intros H. injection H as <-. cbn. auto.
Qed.

(** On a state whose readings were already rewrapped, thresholding depends
    on the depth frame and the window only. *)
Lemma generate_threshold_again (self s1 s : FaceCube.t) (w : Q) :
  every (fun v => 0 <= v) (FaceCube.depth self) ->
  FaceCube.generate_threshold self w = Ok s1 ->
  FaceCube.depth s = FaceCube.depth s1 ->
  FaceCube.generate_threshold s w
  = Ok {| FaceCube.depth := FaceCube.depth s1;
          FaceCube.threshold := FaceCube.threshold s1;
          FaceCube.segmented := FaceCube.segmented s;
          FaceCube.selected_segment := FaceCube.selected_segment s |}.
Proof.
  intros Hnn H1 Hd. unfold FaceCube.generate_threshold in *.
  destruct (np.amin (np.amap FaceCube.rewrap (FaceCube.depth self)))
    as [closest|e] eqn:Hmin; [|discriminate H1].
  cbn [bind] in H1. injection H1 as <-. cbn [FaceCube.depth FaceCube.threshold] in *.
  rewrite Hd.
  assert (Hhi : every (fun v => 500 < v)
                  (np.amap FaceCube.rewrap (FaceCube.depth self))).
  { apply (proj1 (every_amap (fun v => 500 < v) FaceCube.rewrap (FaceCube.depth self))).
    eapply every_impl; [|exact Hnn]. apply rewrap_above. }
  rewrite (@amap_id_every (fun v => 500 < v) FaceCube.rewrap _ Hhi rewrap_fixed), Hmin.
  reflexivity.
Qed.

(** X13.  While the loop is paused and no depth key is held, a pass
    repeats itself: run on its own result, with the window it returned and
    the same hole-filling setting, it returns the same state and the same
    window.  Hole filling does not accumulate from pass to pass. *)
Theorem paused_cycle_is_stable
    (facecube s1 : FaceCube.t) (face_depth changing_depth fd1 : Q)
    (hole_filling : Z) (capture : option (np.ndarray Z)) :
  every (fun v => 0 <= v)
        (FaceCube.depth (match capture with
                         | Some depth_rotated => FaceCube.update facecube depth_rotated
                         | None => facecube
                         end)) ->
  selection_consistent facecube ->
  Main.cycle capture facecube face_depth changing_depth hole_filling = Ok (fd1, s1) ->
  exists fd2,
    Main.cycle None s1 fd1 0 hole_filling = Ok (fd2, s1)
    /\ (fd2 == fd1)%Q
    /\ (0 <= fd1 <= 2047)%Q.
Proof.
  intros Hnn Hcons H. unfold Main.cycle in H. cbv zeta in H.
  set (s0 := match capture with
             | Some depth_rotated => FaceCube.update facecube depth_rotated
             | None => facecube
             end) in *.
  assert (Hcons0 : selection_consistent s0) by (unfold s0; now destruct capture).
  destruct (FaceCube.generate_threshold s0 _) as [sa|e] eqn:Hgen; [|discriminate H].
  cbn [bind] in H.
  destruct (FaceCube.segment sa) as [sb|e] eqn:Hseg; [|discriminate H].
  cbn [bind] in H. injection H as Hfd Hs1.
  pose proof (next_face_depth_range face_depth changing_depth) as Hrange.
  rewrite Hfd in Hrange, Hgen.
  pose proof (next_face_depth_fixed Hrange) as Hfix.
  exists (Main.next_face_depth fd1 0). split; [|split; [exact Hfix|exact Hrange]].
  destruct (generate_threshold_keeps _ _ Hgen) as (Hda & Hsa & Hsela).
  destruct (segment_keeps _ Hseg) as (Hdb & Htb & Hselb).
  assert (Hk : FaceCube.depth s1 = FaceCube.depth sa
               /\ FaceCube.threshold s1 = FaceCube.threshold sa
               /\ FaceCube.selected_segment s1 = FaceCube.selected_segment sa).
  { rewrite <- Hs1. destruct (negb (hole_filling =? 0)).
    - destruct (hole_fill_keeps sb hole_filling) as (A & B & C).
      repeat split; congruence.
    - repeat split; congruence. }
  destruct Hk as (Hd1 & Ht1 & Hsel1).
  unfold Main.cycle. cbv zeta.
  rewrite (generate_threshold_compat s1 Hfix).
  rewrite (@generate_threshold_again s0 sa s1 fd1 Hnn Hgen Hd1). cbn [bind].
  destruct (FaceCube.selected_segment sa) as [p|] eqn:Hp.
  - assert (E : FaceCube.segment
                  {| FaceCube.depth := FaceCube.depth sa;
                     FaceCube.threshold := FaceCube.threshold sa;
                     FaceCube.segmented := FaceCube.segmented s1;
                     FaceCube.selected_segment := FaceCube.selected_segment s1 |}
                = Ok sb).
    { rewrite <- Hseg. apply segment_congruence; cbn; congruence. }
    rewrite E. cbn [bind]. now rewrite Hs1.
  - assert (Esb : sb = sa).
    { rewrite (segment_without_selection _ Hp) in Hseg. congruence. }
    subst sb.
    assert (Hnone : FaceCube.segmented sa = None).
    { rewrite Hsa. apply Hcons0. congruence. }
    assert (Es1 : s1 = sa).
    { rewrite <- Hs1. destruct (negb (hole_filling =? 0)); [|reflexivity].
      unfold FaceCube.hole_fill. now rewrite Hnone. }
    clear Hs1. subst s1. rewrite Hnone, Hp.
    assert (Eta : {| FaceCube.depth := FaceCube.depth sa;
                     FaceCube.threshold := FaceCube.threshold sa;
                     FaceCube.segmented := None;
                     FaceCube.selected_segment := None |} = sa).
    { destruct sa as [d t sg sl]. cbn in *. congruence. }
    rewrite Eta, (segment_without_selection _ Hp). cbn [bind].
    destruct (negb (hole_filling =? 0)); [|reflexivity].
    unfold FaceCube.hole_fill. now rewrite Hnone.
Qed.

Lemma paused_cycle_is_stable_witness :
  exists fd1 s1 fd2,
    Main.cycle None
      {| FaceCube.depth := [[600; 0; 610]; [605; 0; 700]];
         FaceCube.threshold := None;
         FaceCube.segmented := None;
         FaceCube.selected_segment := Some (0, 0) |} 10 0 2 = Ok (fd1, s1)
    /\ Main.cycle None s1 fd1 0 2 = Ok (fd2, s1).
Proof.
  pose (fc := {| FaceCube.depth := [[600; 0; 610]; [605; 0; 700]];
                 FaceCube.threshold := None;
                 FaceCube.segmented := None;
                 FaceCube.selected_segment := Some (0, 0) |}).
  fold fc.
  destruct (Main.cycle None fc 10 0 2) as [[fd1 s1]|e] eqn:H;
    [|vm_compute in H; discriminate H].
  assert (Hnn : every (fun v => 0 <= v) (FaceCube.depth fc))
    by (repeat constructor; discriminate).
  assert (Hc : selection_consistent fc) by (intros X; discriminate X).
  destruct (@paused_cycle_is_stable fc s1 10 0 fd1 2 None Hnn Hc H) as (fd2 & H2 & _).
  exists fd1, s1, fd2. split; [reflexivity|exact H2].
Defined.


(** ** The states of a FaceCube object *)

Lemma select_segment_outcome (self s' : FaceCube.t) (p : Z * Z) :
  FaceCube.select_segment self p = Ok s' ->
  FaceCube.threshold self <> None
  /\ FaceCube.threshold s' = FaceCube.threshold self
  /\ ((FaceCube.selected_segment s' = Some p
       /\ FaceCube.segmented s' = FaceCube.segmented self)
      \/ (FaceCube.selected_segment s' = None /\ FaceCube.segmented s' = None)).
Proof.
  unfold FaceCube.select_segment, FaceCube.labelled.
  destruct (FaceCube.threshold self) as [th|]; [|discriminate].
  cbn [bind fst snd]. destruct (FaceCube.lookup _ p) as [l|e]; [|discriminate].
  cbn [bind]. destruct (negb (l =? 0)); intros H; injection H as <-; cbn.
  - split; [discriminate|]. split; [reflexivity|]. left. split; [|reflexivity].
    now destruct p.
  - split; [discriminate|]. auto.
Qed.

Lemma segment_outcome (self s' : FaceCube.t) :
  FaceCube.segment self = Ok s' ->
  (FaceCube.selected_segment self = None /\ s' = self)
  \/ (FaceCube.selected_segment self <> None /\ FaceCube.threshold self <> None).
Proof.
  unfold FaceCube.segment, FaceCube.labelled.
  destruct (FaceCube.selected_segment self) as [p|].
  - destruct (FaceCube.threshold self); [|discriminate].
    intros _. right. split; discriminate.
  - intros H. injection H as <-. now left.
Qed.

(** X14.  In every state that the methods can produce from a fresh object,
    a segmented frame exists only while a selection is recorded, a
    selection is recorded only after a threshold frame has been computed,
    and [get_array] returns nothing exactly when no threshold frame has been
    computed yet. *)
Theorem reachable_states (s : FaceCube.t) :
  reachable s ->
  (FaceCube.selected_segment s = None -> FaceCube.segmented s = None)
  /\ (FaceCube.selected_segment s <> None -> FaceCube.threshold s <> None)
  /\ (FaceCube.get_array s = None <-> FaceCube.threshold s = None).
Proof.
  intros H.
  assert (Inv : (FaceCube.selected_segment s = None -> FaceCube.segmented s = None)
                /\ (FaceCube.selected_segment s <> None -> FaceCube.threshold s <> None)).
  { induction H as [frame|s frame _ IH|s s' w _ IH Hg|s s' p _ IH Hs|s s' _ IH Hs
                    |s window _ IH].
    - cbn. split; [reflexivity|congruence].
    - exact IH.
    - unfold FaceCube.generate_threshold in Hg.
      destruct (np.amin _); [|discriminate Hg]. cbn [bind] in Hg.
      injection Hg as <-. cbn. split; [tauto|discriminate].
    - destruct (select_segment_outcome _ _ Hs) as (Ht & Ht' & [[A B]|[A B]]).
      + split; [congruence|]. intros _. congruence.
      + split; [now intros _|]. intros X. contradiction.
    - destruct (segment_keeps _ Hs) as (_ & Ht & Hsel).
      destruct (segment_outcome _ Hs) as [[A ->]|[A B]]; [exact IH|].
      split; congruence.
    - destruct (hole_fill_keeps s window) as (_ & Ht & Hsel).
      destruct IH as [IH1 IH2].
      split; [|intros X; rewrite Ht; apply IH2; now rewrite <- Hsel].
      intros X. rewrite Hsel in X. specialize (IH1 X).
      unfold FaceCube.hole_fill. now rewrite IH1. }
  destruct Inv as [I1 I2]. split; [exact I1|]. split; [exact I2|].
  unfold FaceCube.get_array.
  destruct (FaceCube.segmented s) as [a|] eqn:E; [|tauto].
  split; [discriminate|]. intros Ht. exfalso.
  destruct (FaceCube.selected_segment s) as [p|] eqn:Ep.
  - apply I2; [discriminate|exact Ht].
  - specialize (I1 eq_refl). discriminate I1.
Qed.

Lemma reachable_states_witness :
  FaceCube.get_array (FaceCube.hole_fill (FaceCube.init [[600; 650]]) 3) = None
  <-> FaceCube.threshold (FaceCube.hole_fill (FaceCube.init [[600; 650]]) 3) = None.
Proof.
  apply reachable_states. apply reachable_hole_fill. apply reachable_init.
Defined.


(** ** Indexing with a pair of integers *)

Lemma norm_index_valid (n : nat) (k : Z) :
  - Z.of_nat n <= k < Z.of_nat n ->
  np.norm_index n k = Ok (Z.to_nat (k mod Z.of_nat n)).
Proof.
  intros H. unfold np.norm_index.
  destruct (Z.leb_spec 0 k) as [H0|H0].
  - assert (E : (k <? Z.of_nat n) = true) by (apply Z.ltb_lt; lia).
    rewrite E. cbn [andb]. now rewrite Z.mod_small by lia.
  - cbn [andb].
    assert (E1 : (- Z.of_nat n <=? k) = true) by (apply Z.leb_le; lia).
    assert (E2 : (k <? 0) = true) by (apply Z.ltb_lt; lia).
    rewrite E1, E2. cbn [andb]. do 2 f_equal.
    apply Z.mod_unique with (-1); lia.
Qed.

Lemma norm_index_invalid (n : nat) (k : Z) :
  ~ (- Z.of_nat n <= k < Z.of_nat n) ->
  np.norm_index n k = Err (Raise "IndexError" "index out of bounds").
Proof.
  intros H. unfold np.norm_index.
  destruct (Z.leb_spec 0 k) as [H0|H0]; cbn [andb].
  - destruct (Z.ltb_spec k (Z.of_nat n)); [lia|]. cbn [andb].
    destruct (Z.ltb_spec k 0); [lia|]. now rewrite andb_false_r.
  - destruct (Z.leb_spec (- Z.of_nat n) k); [lia|]. reflexivity.
Qed.

Lemma item_valid (a : np.ndarray Z) (p : Z * Z) :
  valid_index (np.shape a) p ->
  np.item a p = Ok (Z.to_nat (fst p mod Z.of_nat (fst (np.shape a))),
                    Z.to_nat (snd p mod Z.of_nat (snd (np.shape a)))).
Proof.
  intros [H1 H2]. unfold np.item.
  now rewrite (norm_index_valid _ H1), (norm_index_valid _ H2).
Qed.

Lemma item_invalid (a : np.ndarray Z) (p : Z * Z) :
  ~ valid_index (np.shape a) p ->
  np.item a p = Err (Raise "IndexError" "index out of bounds").
Proof.
  intros H. unfold np.item.
  destruct (Z_le_dec (- Z.of_nat (fst (np.shape a))) (fst p)) as [A|A];
    [destruct (Z_lt_dec (fst p) (Z.of_nat (fst (np.shape a)))) as [B|B]|].
  - rewrite (norm_index_valid _ (conj A B)). cbn [bind].
    rewrite norm_index_invalid; [reflexivity|].
    intros C. apply H. split; [lia|exact C].
  - rewrite norm_index_invalid by lia. reflexivity.
  - rewrite norm_index_invalid by lia. reflexivity.
Qed.

Lemma item_shape (a b : np.ndarray Z) (p : Z * Z) :
  np.shape a = np.shape b -> np.item a p = np.item b p.
Proof. intros H. unfold np.item. now rewrite H. Qed.

Lemma shape_label (th : np.ndarray Z) : np.shape (fst (ndimage.label th)) = np.shape th.
Proof. unfold ndimage.label. cbn [fst]. apply shape_like. Qed.

Lemma lookup_valid (th : np.ndarray Z) (p : Z * Z) :
  valid_index (np.shape th) p ->
  FaceCube.lookup (fst (ndimage.label th)) p
  = Ok (ndimage.label_at th
          (Z.to_nat (fst p mod Z.of_nat (fst (np.shape th))),
           Z.to_nat (snd p mod Z.of_nat (snd (np.shape th))))).
Proof.
  intros H. apply lookup_label. now apply item_valid.
Qed.

Lemma lookup_invalid (th : np.ndarray Z) (p : Z * Z) :
  ~ valid_index (np.shape th) p ->
  FaceCube.lookup (fst (ndimage.label th)) p
  = Err (Raise "IndexError" "index out of bounds").
Proof.
  intros H. unfold FaceCube.lookup.
  rewrite (@item_shape (fst (ndimage.label th)) th p (shape_label th)).
  rewrite (@item_invalid th p H). reflexivity.
Qed.

(** X15.  [select_segment] follows Python's index rules on the threshold
    frame: a point outside [-rows, rows) x [-cols, cols) raises IndexError
    (the selection is not cleared), and a point inside selects by the label
    of the pixel [(x mod rows, y mod cols)], so a negative coordinate counts
    from the far edge. *)
Theorem select_segment_index (self : FaceCube.t) (th : np.ndarray Z) (p : Z * Z) :
  FaceCube.threshold self = Some th ->
  (~ valid_index (np.shape th) p ->
   FaceCube.select_segment self p = Err (Raise "IndexError" "index out of bounds"))
  /\ (valid_index (np.shape th) p ->
      let q := (Z.to_nat (fst p mod Z.of_nat (fst (np.shape th))),
                Z.to_nat (snd p mod Z.of_nat (snd (np.shape th)))) in
      exists s',
        FaceCube.select_segment self p = Ok s'
        /\ (np.get 0 th (fst q) (snd q) <> 0 ->
            FaceCube.selected_segment s' = Some p
            /\ FaceCube.segmented s' = FaceCube.segmented self)
        /\ (np.get 0 th (fst q) (snd q) = 0 ->
            FaceCube.selected_segment s' = None /\ FaceCube.segmented s' = None)).
Proof.
  intros Hth. split.
  - intros H. unfold FaceCube.select_segment, FaceCube.labelled. rewrite Hth.
    cbn [bind fst snd]. now rewrite (@lookup_invalid th p H).
  - intros H q. unfold FaceCube.select_segment, FaceCube.labelled. rewrite Hth.
    cbn [bind fst snd]. rewrite (@lookup_valid th p H). cbn [bind]. fold q.
    pose proof (label_at_nonzero th q) as Hl. rewrite foreground_nonzero in Hl.
    destruct (Z.eqb_spec (ndimage.label_at th q) 0) as [E|NE]; cbn [negb].
    + eexists. split; [reflexivity|]. cbn. split.
      * intros NZ. apply Hl in NZ. contradiction.
      * auto.
    + eexists. split; [reflexivity|]. cbn. split.
      * intros _. split; [|reflexivity]. now destruct p.
      * intros Z0. apply Hl in NE. contradiction.
Qed.

Lemma select_segment_index_witness :
  FaceCube.select_segment
    {| FaceCube.depth := [[600; 2047]; [2047; 610]];
       FaceCube.threshold := Some [[600; 0]; [0; 610]];
       FaceCube.segmented := None;
       FaceCube.selected_segment := None |} (2, 0)
  = Err (Raise "IndexError" "index out of bounds").
Proof.
  refine (proj1 (@select_segment_index
                   {| FaceCube.depth := [[600; 2047]; [2047; 610]];
                      FaceCube.threshold := Some [[600; 0]; [0; 610]];
                      FaceCube.segmented := None;
                      FaceCube.selected_segment := None |}
                   [[600; 0]; [0; 610]] (2, 0) eq_refl) _).
  unfold valid_index. cbn. lia.
Defined.


(** ** The main loop: when a pass fails *)

Lemma get_array_exists (s : FaceCube.t) (th : np.ndarray Z) :
  FaceCube.threshold s = Some th -> exists a, FaceCube.get_array s = Some a.
Proof.
  intros H. unfold FaceCube.get_array.
  destruct (FaceCube.segmented s) as [a|]; eauto.
Qed.

Lemma get_array_after_hole_fill (s : FaceCube.t) (th : np.ndarray Z)
    (hole_filling : Z) :
  FaceCube.threshold s = Some th ->
  exists a,
    FaceCube.get_array (if negb (hole_filling =? 0)
                        then FaceCube.hole_fill s hole_filling else s) = Some a.
Proof.
  intros H. destruct (negb (hole_filling =? 0)).
  - apply get_array_exists with th.
    destruct (hole_fill_keeps s hole_filling) as (_ & Ht & _). congruence.
  - now apply get_array_exists with th.
Qed.

Lemma generate_threshold_cases (self : FaceCube.t) (w : Q) :
  (has_pixel (FaceCube.depth self) ->
   exists closest,
     FaceCube.generate_threshold self w
     = Ok {| FaceCube.depth := np.amap FaceCube.rewrap (FaceCube.depth self);
             FaceCube.threshold :=
               Some (np.amap
                       (fun v => v * Z.b2z (FaceCube.within v (FaceCube.cutoff closest w)))
                       (np.amap FaceCube.rewrap (FaceCube.depth self)));
             FaceCube.segmented := FaceCube.segmented self;
             FaceCube.selected_segment := FaceCube.selected_segment self |})
  /\ (~ has_pixel (FaceCube.depth self) ->
      FaceCube.generate_threshold self w = Err (np.zero_size_reduction "minimum")).
Proof.
  split.
  - intros Hp. apply (has_pixel_amap FaceCube.rewrap) in Hp.
    apply amin_has_pixel in Hp. destruct Hp as [closest Hmin].
    exists closest. now apply generate_threshold_ok.
  - intros Hp. unfold FaceCube.generate_threshold, np.amin.
    rewrite ravel_amap.
    unfold has_pixel in Hp. destruct (np.ravel (FaceCube.depth self)); [reflexivity|].
    exfalso. apply Hp. discriminate.
Qed.

(** X16.  One pass of the main loop fails in two cases only: with
    ValueError when the capture has no pixel, and with IndexError when the
    recorded selection is not a valid index of the capture's shape.  In
    every other case the pass succeeds and [get_array] then returns a frame
    to display. *)
Theorem cycle_outcome
    (capture : option (np.ndarray Z)) (facecube : FaceCube.t)
    (face_depth changing_depth : Q) (hole_filling : Z) :
  let s0 := match capture with
            | Some depth_rotated => FaceCube.update facecube depth_rotated
            | None => facecube
            end in
  let outcome := Main.cycle capture facecube face_depth changing_depth hole_filling in
  (~ has_pixel (FaceCube.depth s0) ->
   outcome = Err (np.zero_size_reduction "minimum"))
  /\ (has_pixel (FaceCube.depth s0) ->
      forall p, FaceCube.selected_segment s0 = Some p ->
                ~ valid_index (np.shape (FaceCube.depth s0)) p ->
                outcome = Err (Raise "IndexError" "index out of bounds"))
  /\ (has_pixel (FaceCube.depth s0) ->
      (forall p, FaceCube.selected_segment s0 = Some p ->
                 valid_index (np.shape (FaceCube.depth s0)) p) ->
      exists fd1 s1 a,
        outcome = Ok (fd1, s1) /\ FaceCube.get_array s1 = Some a).
Proof.
  intros s0 outcome. unfold outcome, Main.cycle. cbv zeta. fold s0.
  clear outcome. clearbody s0.
  set (w := Main.next_face_depth face_depth changing_depth).
  split; [|split].
  - intros Hp.
    destruct (generate_threshold_cases s0 w) as [_ H].
    now rewrite (H Hp).
  - intros Hp p Hsel Hbad.
    destruct (generate_threshold_cases s0 w) as [H _].
    destruct (H Hp) as (closest & E). rewrite E. cbn [bind].
    match goal with |- context [FaceCube.segment ?r] => set (sa := r) end.
    assert (Hsa : FaceCube.selected_segment sa = Some p) by exact Hsel.
    unfold FaceCube.segment, FaceCube.labelled. rewrite Hsa.
    cbn [sa FaceCube.threshold bind fst snd].
    rewrite lookup_invalid; [reflexivity|]. now rewrite !shape_amap.
  - intros Hp Hok.
    destruct (generate_threshold_cases s0 w) as [H _].
    destruct (H Hp) as (closest & E). rewrite E. cbn [bind].
    match goal with |- context [FaceCube.segment ?r] => set (sa := r) end.
    destruct (FaceCube.selected_segment s0) as [p|] eqn:Hsel.
    + assert (Hsa : FaceCube.selected_segment sa = Some p) by reflexivity.
      unfold FaceCube.segment, FaceCube.labelled. rewrite Hsa.
      cbn [sa FaceCube.threshold bind fst snd].
      rewrite lookup_valid by (rewrite !shape_amap; now apply Hok).
      cbn [bind].
      edestruct get_array_after_hole_fill as [a Ha];
        [|do 3 eexists; split; [reflexivity|exact Ha]].
      reflexivity.
    + assert (Hsa : FaceCube.selected_segment sa = None) by reflexivity.
      rewrite (segment_without_selection _ Hsa). cbn [bind].
      edestruct get_array_after_hole_fill as [a Ha];
        [|do 3 eexists; split; [reflexivity|exact Ha]].
      reflexivity.
Qed.


(** ** From the capture to the file *)

Lemma every_of_get (P : Z -> Prop) (a : np.ndarray Z) :
  (forall i j, P (np.get 0 a i j)) -> every P a.
Proof.
  intros H. unfold every. apply Forall_forall. intros row Hrow.
  apply Forall_forall. intros v Hv.
  apply (In_nth _ _ []) in Hrow. destruct Hrow as (i & _ & <-).
  apply (In_nth _ _ 0) in Hv. destruct Hv as (j & _ & <-).
  apply H.
Qed.

(** When no raw value is above 1084 no point of the cloud lies behind the
    farthest distance. *)
Lemma cloud_not_beyond_farthest (array : np.ndarray Z) (farthest : Z)
    (leave_holes : bool) (pt : PlyWriter.point) :
  np.amax array = Ok farthest ->
  every (fun v => v <= 1084) array ->
  In pt (cloud_points array farthest leave_holes) ->
  (snd pt <= distance_mm farthest)%Q.
Proof.
  intros Hf Hlow Hpt. destruct (amax_spec _ Hf) as [Hin Hub].
  assert (Hfar : farthest <= 1084).
  { apply every_ravel in Hlow. rewrite Forall_forall in Hlow. now apply Hlow. }
  unfold cloud_points in Hpt. rewrite !in_app_iff in Hpt.
  destruct Hpt as [Hpt|[Hpt|Hpt]].
  - apply wall_point in Hpt. destruct Hpt as (i & j & z' & _ & _ & Hz & ->).
    apply distance_mm_monotone; lia.
  - apply back_point in Hpt. destruct Hpt as (i & j & _ & _ & ->). apply Qle_refl.
  - apply mesh_point in Hpt. destruct Hpt as (i & j & _ & _ & NZ & ->).
    apply distance_mm_monotone; [|exact Hfar]. apply Hub. now apply get_in_ravel.
Qed.




(** ** FaceCube.update *)

Lemma length_tabulate {A : Type} (h w : nat) (f : nat -> nat -> A) :
  length (np.tabulate h w f) = h.
Proof. unfold np.tabulate. now rewrite length_map, length_seq. Qed.

Lemma row_tabulate {A : Type} (h w : nat) (f : nat -> nat -> A) (i : nat) :
  (i < h)%nat -> nth i (np.tabulate h w f) [] = map (fun j => f i j) (seq 0 w).
Proof.
  intros Hi. unfold np.tabulate.
  rewrite (nth_indep _ [] (map (fun j => f 0%nat j) (seq 0 w)))
    by now rewrite length_map, length_seq.
  rewrite (map_nth (fun i => map (fun j => f i j) (seq 0 w)) (seq 0 h) 0%nat i).
  now rewrite seq_nth.
Qed.

Lemma get_tabulate {A : Type} (d : A) (h w : nat) (f : nat -> nat -> A) (i j : nat) :
  (i < h)%nat -> (j < w)%nat -> np.get d (np.tabulate h w f) i j = f i j.
Proof.
  intros Hi Hj. unfold np.get. rewrite row_tabulate by exact Hi.
  rewrite (nth_indep _ d (f i 0%nat)) by now rewrite length_map, length_seq.
  rewrite (map_nth (fun j => f i j) (seq 0 w) 0%nat j).
  now rewrite seq_nth.
Qed.

Lemma shape_tabulate {A : Type} (h w : nat) (f : nat -> nat -> A) :
  (0 < h)%nat -> np.shape (np.tabulate h w f) = (h, w).
Proof.
  intros Hh. unfold np.shape. rewrite length_tabulate. f_equal.
  pose proof (row_tabulate w f Hh) as E.
  destruct (np.tabulate h w f) as [|row rows] eqn:T.
  - apply (f_equal (@length _)) in T. rewrite length_tabulate in T.
    cbn in T. lia.
  - cbn in E. subst row. now rewrite length_map, length_seq.
Qed.

Lemma rect_tabulate {A : Type} (h w : nat) (f : nat -> nat -> A) :
  np.rect (np.tabulate h w f).
Proof.
  destruct h as [|h]; [constructor|].
  unfold np.rect. rewrite shape_tabulate by lia. cbn [snd].
  unfold np.tabulate. apply Forall_forall. intros row Hrow.
  apply in_map_iff in Hrow. destruct Hrow as (i & <- & _).
  now rewrite length_map, length_seq.
Qed.

Lemma tabulate_ext {A : Type} (h w : nat) (f g : nat -> nat -> A) :
  (forall i j, (i < h)%nat -> (j < w)%nat -> f i j = g i j) ->
  np.tabulate h w f = np.tabulate h w g.
Proof.
  intros H. unfold np.tabulate. apply map_ext_in. intros i Hi.
  apply map_ext_in. intros j Hj. apply in_seq in Hi, Hj. apply H; lia.
Qed.

Lemma list_tabulate {A : Type} (d : A) (l : list A) :
  map (fun j => nth j l d) (seq 0 (length l)) = l.
Proof.
  apply (nth_ext _ _ d d).
  - now rewrite length_map, length_seq.
  - intros n Hn. rewrite length_map, length_seq in Hn.
    rewrite (nth_indep _ d (nth 0 l d)) by now rewrite length_map, length_seq.
    rewrite (map_nth (fun j => nth j l d) (seq 0 (length l)) 0%nat n).
    now rewrite seq_nth.
Qed.

(** A rectangular array is the table of its own entries. *)
Lemma tabulate_get {A : Type} (d : A) (a : np.ndarray A) :
  np.rect a ->
  np.tabulate (fst (np.shape a)) (snd (np.shape a)) (fun i j => np.get d a i j) = a.
Proof.
  intros R. unfold np.tabulate. cbn [fst np.shape].
  set (w := snd (np.shape a)) in *.
  apply (nth_ext _ _ [] []).
  - now rewrite length_map, length_seq.
  - intros n Hn. rewrite length_map, length_seq in Hn.
    rewrite (nth_indep _ [] (map (fun j => np.get d a 0%nat j) (seq 0 w)))
      by now rewrite length_map, length_seq.
    rewrite (map_nth (fun i => map (fun j => np.get d a i j) (seq 0 w))
               (seq 0 (length a)) 0%nat n).
    rewrite seq_nth by exact Hn. cbn [Nat.add].
    unfold np.rect in R. rewrite Forall_forall in R.
    assert (Hw : w = length (nth n a [])).
    { symmetry. apply R. now apply nth_In. }
    rewrite Hw. unfold np.get. apply list_tabulate.
Qed.

Lemma transpose_shape (a : np.ndarray Z) :
  (0 < snd (np.shape a))%nat ->
  np.shape (FaceCube.transpose a) = (snd (np.shape a), fst (np.shape a)).
Proof. intros H. unfold FaceCube.transpose. now apply shape_tabulate. Qed.

Lemma transpose_get (a : np.ndarray Z) (i j : nat) :
  (i < snd (np.shape a))%nat -> (j < fst (np.shape a))%nat ->
  np.get 0 (FaceCube.transpose a) i j = np.get 0 a j i.
Proof. intros Hi Hj. unfold FaceCube.transpose. now rewrite get_tabulate. Qed.

Lemma transpose_involutive (a : np.ndarray Z) :
  np.rect a -> (0 < snd (np.shape a))%nat ->
  FaceCube.transpose (FaceCube.transpose a) = a.
Proof.
  intros R Hw. unfold FaceCube.transpose at 1.
  rewrite transpose_shape by exact Hw. cbn [fst snd].
  rewrite (@tabulate_ext _ _ _ _ (fun i j => np.get 0 a i j)).
  - now apply tabulate_get.
  - intros i j Hi Hj. now apply transpose_get.
Qed.

(** X18.  [update] stores the capture transposed: for a rectangular capture
    of [h] rows and [w > 0] columns the new depth frame is rectangular with
    [w] rows and [h] columns and holds at [(i, j)] what the capture holds at
    [(j, i)]; the frame that [get_array] returns is not touched (it stays
    the one of the previous pass until the threshold is generated again),
    and feeding the stored frame back restores the capture. *)
Theorem update_transposes (self : FaceCube.t) (depth_rotated : np.ndarray Z) :
  np.rect depth_rotated ->
  (0 < snd (np.shape depth_rotated))%nat ->
  let s1 := FaceCube.update self depth_rotated in
  np.shape (FaceCube.depth s1)
  = (snd (np.shape depth_rotated), fst (np.shape depth_rotated))
  /\ np.rect (FaceCube.depth s1)
  /\ (forall i j, (i < snd (np.shape depth_rotated))%nat ->
                  (j < fst (np.shape depth_rotated))%nat ->
                  np.get 0 (FaceCube.depth s1) i j = np.get 0 depth_rotated j i)
  /\ FaceCube.get_array s1 = FaceCube.get_array self
  /\ FaceCube.depth (FaceCube.update s1 (FaceCube.depth s1)) = depth_rotated.
Proof.
  intros R Hw s1. subst s1. cbn [FaceCube.update FaceCube.depth].
  split; [now apply transpose_shape|].
  split; [apply rect_tabulate|].
  split; [intros i j Hi Hj; now apply transpose_get|].
  split; [reflexivity|].
  now apply transpose_involutive.
Qed.

Lemma update_transposes_witness :
  let c := [[600; 700; 800]; [0; 900; 1000]] in
  let s1 := FaceCube.update (FaceCube.init [[1]]) c in
  np.shape (FaceCube.depth s1) = (3%nat, 2%nat)
  /\ FaceCube.depth (FaceCube.update s1 (FaceCube.depth s1)) = c.
Proof.
  intros c s1.
  assert (R : np.rect c) by (repeat constructor).
  assert (Hw : (0 < snd (np.shape c))%nat) by (cbn; lia).
  destruct (@update_transposes (FaceCube.init [[1]]) c R Hw) as (H1 & _ & _ & _ & H5).
  split; [exact H1|exact H5].
Defined.

(** ** The writer's attributes *)

Lemma amax_without_pixel (array : np.ndarray Z) :
  ~ has_pixel array -> np.amax array = Err (np.zero_size_reduction "maximum").
Proof.
  intros H. unfold np.amax. destruct (np.ravel array) eqn:E; [reflexivity|].
  exfalso. apply H. unfold has_pixel. now rewrite E.
Qed.

(** X19.  [dims] and [scale] exist only once [save] has assigned them.  On
    a writer without [dims], [to_world] and [mesh_points] raise
    AttributeError.  [save] never renames the writer; on a frame without a
    pixel it fails before touching the writer; on every frame with a pixel
    it leaves a writer whose [dims] is the frame's shape and on which
    [to_world] succeeds at every point, also when the frame is all zero and
    the call itself ends in ValueError. *)
Theorem save_configures_writer (self : PlyWriter.t) (fs : PlyWriter.filesystem)
    (array : np.ndarray Z) (leave_holes : bool) :
  let writer := fst (fst (PlyWriter.save self fs array leave_holes)) in
  (PlyWriter.dims self = None ->
   (forall p, fails_with "AttributeError" (PlyWriter.to_world self p))
   /\ fails_with "AttributeError" (PlyWriter.mesh_points self array))
  /\ PlyWriter.name writer = PlyWriter.name self
  /\ (~ has_pixel array -> writer = self)
  /\ (has_pixel array ->
      PlyWriter.dims writer = Some (np.shape array)
      /\ forall p, exists xy, PlyWriter.to_world writer p = Ok xy).
Proof.
  intros writer. split; [|split; [|split]].
  - intros Hd. split.
    + intros p. unfold PlyWriter.to_world. rewrite Hd. cbn. now eexists.
    + unfold PlyWriter.mesh_points. rewrite Hd. cbn. now eexists.
  - subst writer. unfold PlyWriter.save.
    destruct (np.amax array); [|reflexivity].
    now destruct (PlyWriter.collect _ _ _ _).
  - intros Hp. subst writer. unfold PlyWriter.save.
    now rewrite (amax_without_pixel Hp).
  - intros Hp. subst writer. unfold PlyWriter.save.
    destruct (amax_has_pixel Hp) as [farthest Hf]. rewrite Hf.
    destruct (PlyWriter.collect _ _ _ _); cbn [fst PlyWriter.dims];
      (split; [reflexivity|]); intros p; unfold PlyWriter.to_world; cbn;
      now eexists.
Qed.

(** ** The hole-filling keys *)

(** X20.  Whatever sequence of H and G keys is pressed, the hole-filling
    window stays non-negative, and while it is at most 1 (in particular
    after the first press of H) a pass of the loop does exactly what it
    does with hole filling switched off. *)
Theorem hole_filling_window (keys : list Main.key)
    (capture : option (np.ndarray Z)) (facecube : FaceCube.t)
    (face_depth changing_depth : Q) :
  let hole_filling := fold_left Main.on_key keys 0 in
  0 <= hole_filling
  /\ hole_filling <= Z.of_nat (length keys)
  /\ (hole_filling <= 1 ->
      Main.cycle capture facecube face_depth changing_depth hole_filling
      = Main.cycle capture facecube face_depth changing_depth 0).
Proof.
  intros hole_filling.
  assert (H : forall ks n, 0 <= n ->
            0 <= fold_left Main.on_key ks n <= n + Z.of_nat (length ks)).
  { induction ks as [|k ks IH]; intros n Hn; [cbn; lia|].
    cbn [fold_left length]. 
    assert (Hk : 0 <= Main.on_key n k <= n + 1) by (destruct k; cbn; lia).
    specialize (IH (Main.on_key n k) (proj1 Hk)). lia. }
  specialize (H keys 0 (Z.le_refl 0)). fold hole_filling in H.
  split; [lia|]. split; [lia|].
  intros H1. unfold Main.cycle.
  destruct (FaceCube.generate_threshold _ _) as [s1|e]; [|reflexivity].
  cbn [bind]. destruct (FaceCube.segment s1) as [s2|e]; [|reflexivity].
  cbn [bind]. destruct (hole_filling =? 0) eqn:E; cbn [negb]; [reflexivity|].
  do 2 f_equal. unfold FaceCube.hole_fill.
  destruct (FaceCube.segmented s2) as [a|] eqn:Hs; [|reflexivity].
  rewrite grey_closing_small_window by exact H1.
  destruct s2. cbn in *. now rewrite Hs.
Qed.


(** ** The closing never lowers a reading *)

Lemma sized_rect {A : Type} (a : np.ndarray A) :
  np.rect a -> sized (fst (np.shape a)) (snd (np.shape a)) a.
Proof.
  intros R. split; [reflexivity|]. intros i Hi.
  apply rect_rows; [exact R|]. now apply nth_In.
Qed.

Lemma sized_like {A B : Type} (h w : nat) (a : np.ndarray A) (f : nat -> nat -> B) :
  sized h w a -> sized h w (ndimage.like a f).
Proof.
  intros [Hh Hw]. split.
  - now rewrite (proj1 (rows_like a f O)).
  - intros i Hi. rewrite (proj2 (rows_like a f i)). now apply Hw.
Qed.

Lemma fold_min_le (vs : list Z) (v x : Z) :
  x = v \/ In x vs -> fold_left Z.min vs v <= x.
Proof.
  revert v x. induction vs as [|u vs IH]; intros v x H; cbn.
  - destruct H as [->|[]]. lia.
  - assert (E : fold_left Z.min vs (Z.min v u) <= Z.min v u) by (apply IH; now left).
    destruct H as [->|[->|H]]; [lia|lia|]. apply IH. now right.
Qed.

Lemma fold_max_ge (vs : list Z) (v x : Z) :
  x = v \/ In x vs -> x <= fold_left Z.max vs v.
Proof.
  revert v x. induction vs as [|u vs IH]; intros v x H; cbn.
  - destruct H as [->|[]]. lia.
  - assert (E : Z.max v u <= fold_left Z.max vs (Z.max v u)) by (apply IH; now left).
    destruct H as [->|[->|H]]; [lia|lia|]. apply IH. now right.
Qed.

Lemma fold_min_ge (vs : list Z) (v c : Z) :
  c <= v -> (forall x, In x vs -> c <= x) -> c <= fold_left Z.min vs v.
Proof.
  revert v. induction vs as [|u vs IH]; intros v Hv H; cbn; [exact Hv|].
  apply IH.
  - assert (c <= u) by (apply H; now left). lia.
  - intros x Hx. apply H. now right.
Qed.

Lemma reduce_max_ge (vs : list Z) (x : Z) :
  In x vs -> x <= ndimage.reduce Z.max vs.
Proof.
  destruct vs as [|v vs]; [intros []|]. intros [->|H]; cbn [ndimage.reduce].
  - apply fold_max_ge. now left.
  - apply fold_max_ge. now right.
Qed.

Lemma reduce_min_ge (vs : list Z) (c : Z) :
  vs <> [] -> (forall x, In x vs -> c <= x) -> c <= ndimage.reduce Z.min vs.
Proof.
  destruct vs as [|v vs]; [congruence|]. intros _ H. cbn [ndimage.reduce].
  apply fold_min_ge.
  - apply H. now left.
  - intros x Hx. apply H. now right.
Qed.

Lemma in_window (size origin off : Z) :
  In off (ndimage.window size origin)
  <-> exists k, 0 <= k < size /\ off = k - (size / 2 + origin).
Proof.
  unfold ndimage.window. rewrite in_map_iff. split.
  - intros (k & <- & Hk). apply in_seq in Hk. exists (Z.of_nat k). split; [lia|reflexivity].
  - intros (k & Hk & ->). exists (Z.to_nat k). split; [lia|]. apply in_seq. lia.
Qed.

Lemma window_nonempty (size origin : Z) : 1 < size -> ndimage.window size origin <> [].
Proof.
  intros H E.
  assert (Hin : In (0 - (size / 2 + origin)) (ndimage.window size origin))
    by (apply in_window; exists 0; split; [lia|reflexivity]).
  rewrite E in Hin. exact Hin.
Qed.

(** "reflect" within one array length of the array. *)
Lemma reflect_inside (n : nat) (k : Z) :
  0 <= k < Z.of_nat n -> ndimage.reflect n k = Z.to_nat k.
Proof.
  intros H. unfold ndimage.reflect. rewrite Z.mod_small by lia.
  assert (E : (k <? Z.of_nat n) = true) by (apply Z.ltb_lt; lia).
  now rewrite E.
Qed.

Lemma reflect_before (n : nat) (k : Z) :
  - Z.of_nat n <= k < 0 -> ndimage.reflect n k = Z.to_nat (- k - 1).
Proof.
  intros H. unfold ndimage.reflect.
  assert (M : k mod (2 * Z.of_nat n) = k + 2 * Z.of_nat n).
  { symmetry. apply (Z.mod_unique _ _ (-1)); lia. }
  rewrite M.
  assert (E : (k + 2 * Z.of_nat n <? Z.of_nat n) = false) by (apply Z.ltb_ge; lia).
  rewrite E. f_equal. lia.
Qed.

Lemma reflect_after (n : nat) (k : Z) :
  Z.of_nat n <= k < 2 * Z.of_nat n ->
  ndimage.reflect n k = Z.to_nat (2 * Z.of_nat n - 1 - k).
Proof.
  intros H. unfold ndimage.reflect. rewrite Z.mod_small by lia.
  assert (E : (k <? Z.of_nat n) = false) by (apply Z.ltb_ge; lia).
  now rewrite E.
Qed.

Lemma reflect_range (n : nat) (k : Z) :
  (0 < n)%nat -> - Z.of_nat n <= k < 2 * Z.of_nat n -> (ndimage.reflect n k < n)%nat.
Proof.
  intros Hn H.
  destruct (Z_lt_ge_dec k 0) as [Hneg|Hpos].
  - rewrite reflect_before by lia. lia.
  - destruct (Z_lt_ge_dec k (Z.of_nat n)) as [Hin|Hout].
    + rewrite reflect_inside by lia. lia.
    + rewrite reflect_after by lia. lia.
Qed.

(** The window of the dilation is the mirror image of the window of the
    erosion, and so, from wherever the erosion reads, the dilation reads
    the starting position back. *)
Lemma reflect_back (n : nat) (size : Z) (i : nat) (e : Z) :
  1 < size <= Z.of_nat n -> (i < n)%nat ->
  In e (ndimage.window size 0) ->
  (ndimage.reflect n (Z.of_nat i + e) < n)%nat
  /\ exists d,
       In d (ndimage.window size (if Z.even size then -1 else 0))
       /\ ndimage.reflect n (Z.of_nat (ndimage.reflect n (Z.of_nat i + e)) + d) = i.
Proof.
  intros Hs Hi He. apply in_window in He. destruct He as (k & Hk & ->).
  pose proof (Z.div_mod size 2 ltac:(lia)) as Hdiv.
  pose proof (Z.mod_pos_bound size 2 ltac:(lia)) as Hmod.
  assert (Hpar : (if Z.even size then -1 else 0) = size mod 2 - 1).
  { rewrite Zmod_even. now destruct (Z.even size). }
  set (o := if Z.even size then -1 else 0) in *.
  set (x := Z.of_nat i + (k - (size / 2 + 0))).
  assert (Hx : - Z.of_nat n <= x < 2 * Z.of_nat n) by (unfold x; lia).
  split; [apply reflect_range; lia|].
  destruct (Z_lt_ge_dec x 0) as [Hneg|Hpos].
  - rewrite reflect_before by lia.
    exists (Z.of_nat i - (- x - 1)). split.
    + apply in_window. exists (Z.of_nat i - (- x - 1) + (size / 2 + o)).
      split; [unfold x; lia|lia].
    + rewrite Z2Nat.id by lia.
      replace (- x - 1 + (Z.of_nat i - (- x - 1))) with (Z.of_nat i) by lia.
      rewrite reflect_inside by lia. lia.
  - destruct (Z_lt_ge_dec x (Z.of_nat n)) as [Hin|Hout].
    + rewrite reflect_inside by lia.
      exists (Z.of_nat i - x). split.
      * apply in_window. exists (Z.of_nat i - x + (size / 2 + o)).
        split; [unfold x; lia|lia].
      * rewrite Z2Nat.id by lia.
        replace (x + (Z.of_nat i - x)) with (Z.of_nat i) by lia.
        rewrite reflect_inside by lia. lia.
    + rewrite reflect_after by lia.
      exists (Z.of_nat i - (2 * Z.of_nat n - 1 - x)). split.
      * apply in_window.
        exists (Z.of_nat i - (2 * Z.of_nat n - 1 - x) + (size / 2 + o)).
        split; [unfold x; lia|lia].
      * rewrite Z2Nat.id by lia.
        replace (2 * Z.of_nat n - 1 - x + (Z.of_nat i - (2 * Z.of_nat n - 1 - x)))
          with (Z.of_nat i) by lia.
        rewrite reflect_inside by lia. lia.
Qed.

Section Closing.

Variables (h w : nat) (size : Z).
Hypothesis Hsize : 1 < size.
Hypothesis Hh : size <= Z.of_nat h.
Hypothesis Hw : size <= Z.of_nat w.

Lemma get_filter_axis0 (sel : Z -> Z -> Z) (origin : Z) (a : np.ndarray Z) (i j : nat) :
  sized h w a -> (i < h)%nat -> (j < w)%nat ->
  np.get 0 (ndimage.filter_axis0 sel size origin a) i j
  = ndimage.reduce sel
      (map (fun off => np.get 0 a (ndimage.reflect h (Z.of_nat i + off)) j)
           (ndimage.window size origin)).
Proof.
  intros [Sh Sw] Hi Hj. unfold ndimage.filter_axis0.
  rewrite get_like_inside; [now rewrite Sh|lia|rewrite Sw; lia].
Qed.

Lemma get_filter_axis1 (sel : Z -> Z -> Z) (origin : Z) (a : np.ndarray Z) (i j : nat) :
  sized h w a -> (i < h)%nat -> (j < w)%nat ->
  np.get 0 (ndimage.filter_axis1 sel size origin a) i j
  = ndimage.reduce sel
      (map (fun off => np.get 0 a i (ndimage.reflect w (Z.of_nat j + off)))
           (ndimage.window size origin)).
Proof.
  intros [Sh Sw] Hi Hj. unfold ndimage.filter_axis1.
  rewrite get_like_inside; [now rewrite Sw|lia|rewrite Sw; lia].
Qed.

Lemma map_window_nonempty (f : Z -> Z) (origin : Z) :
  map f (ndimage.window size origin) <> [].
Proof.
  intros E. apply map_eq_nil in E. revert E. now apply window_nonempty.
Qed.

Lemma grey_closing_extensive (a : np.ndarray Z) (i j : nat) :
  sized h w a -> (i < h)%nat -> (j < w)%nat ->
  np.get 0 a i j <= np.get 0 (ndimage.grey_closing a (size, size)) i j.
Proof.
  intros Sa Hi Hj.
  unfold ndimage.grey_closing, ndimage.grey_erosion, ndimage.grey_dilation,
    ndimage.min_or_max_filter. cbn [fst snd].
  assert (E : (1 <? size) = true) by (apply Z.ltb_lt; lia). rewrite E.
  set (o := if Z.even size then -1 else 0).
  set (b := ndimage.filter_axis0 Z.max size o a).
  set (c := ndimage.filter_axis1 Z.max size o b).
  set (d := ndimage.filter_axis0 Z.min size 0 c).
  assert (Sb : sized h w b) by now apply sized_like.
  assert (Sc : sized h w c) by now apply sized_like.
  assert (Sd : sized h w d) by now apply sized_like.
  rewrite (get_filter_axis1 Z.min 0 Sd Hi Hj).
  apply reduce_min_ge; [apply map_window_nonempty|].
  intros x Hx. apply in_map_iff in Hx. destruct Hx as (e1 & <- & He1).
  destruct (@reflect_back w size j e1 (conj Hsize Hw) Hj He1) as (Hq & d1 & Hd1 & Eq1).
  set (q := ndimage.reflect w (Z.of_nat j + e1)) in *.
  unfold d. rewrite (get_filter_axis0 Z.min 0 Sc Hi Hq).
  apply reduce_min_ge; [apply map_window_nonempty|].
  intros x Hx. apply in_map_iff in Hx. destruct Hx as (e0 & <- & He0).
  destruct (@reflect_back h size i e0 (conj Hsize Hh) Hi He0) as (Hp & d0 & Hd0 & Eq0).
  set (p := ndimage.reflect h (Z.of_nat i + e0)) in *.
  apply Z.le_trans with (np.get 0 b p j).
  - unfold b. rewrite (get_filter_axis0 Z.max o Sa Hp Hj).
    apply reduce_max_ge. apply in_map_iff. exists d0. split; [|exact Hd0].
    now rewrite Eq0.
  - unfold c. rewrite (get_filter_axis1 Z.max o Sb Hp Hq).
    apply reduce_max_ge. apply in_map_iff. exists d1. split; [|exact Hd1].
    now rewrite Eq1.
Qed.

End Closing.

Lemma shape_grey_closing (a : np.ndarray Z) (size : Z * Z) :
  np.shape (ndimage.grey_closing a size) = np.shape a.
Proof.
  unfold ndimage.grey_closing, ndimage.grey_erosion, ndimage.grey_dilation,
    ndimage.min_or_max_filter, ndimage.filter_axis0, ndimage.filter_axis1.
  cbn [fst snd].
  destruct (1 <? fst size), (1 <? snd size); now rewrite ?shape_like.
Qed.

Lemma get_outside (a : np.ndarray Z) (i j : nat) :
  np.rect a ->
  ~ ((i < fst (np.shape a))%nat /\ (j < snd (np.shape a))%nat) ->
  np.get 0 a i j = 0.
Proof.
  intros R H. unfold np.get.
  destruct (Nat.lt_ge_cases i (length a)) as [Hi|Hi].
  - apply nth_overflow.
    rewrite (@rect_rows _ a (nth i a []) R (nth_In a [] Hi)). cbn [fst np.shape] in H. lia.
  - rewrite (nth_overflow a) by exact Hi. now destruct j.
Qed.

Lemma rect_grey_closing (a : np.ndarray Z) (size : Z * Z) :
  np.rect a -> np.rect (ndimage.grey_closing a size).
Proof.
  intros R. unfold np.rect. rewrite shape_grey_closing.
  apply Forall_forall. intros row Hrow.
  apply (In_nth _ _ []) in Hrow. destruct Hrow as (i & Hi & <-).
  pose proof (sized_rect R) as S.
  assert (S' : sized (fst (np.shape a)) (snd (np.shape a)) (ndimage.grey_closing a size)).
  { unfold ndimage.grey_closing, ndimage.grey_erosion, ndimage.grey_dilation,
      ndimage.min_or_max_filter, ndimage.filter_axis0, ndimage.filter_axis1.
    cbn [fst snd].
    destruct (1 <? fst size), (1 <? snd size); repeat apply sized_like; exact S. }
  destruct S' as [Sh Sw]. apply Sw. now rewrite <- Sh.
Qed.

(** X21.  Hole filling never lowers a reading.  On a rectangular segmented
    frame, with a window no larger than the frame, [hole_fill] stores a
    frame of the same shape in which every pixel holds at least what it
    held before; so with non-negative readings no pixel of the segment is
    ever removed. *)
Theorem hole_fill_never_lowers (self : FaceCube.t) (a : np.ndarray Z) (window : Z) :
  FaceCube.segmented self = Some a ->
  np.rect a ->
  window <= Z.of_nat (fst (np.shape a)) ->
  window <= Z.of_nat (snd (np.shape a)) ->
  exists filled,
    FaceCube.segmented (FaceCube.hole_fill self window) = Some filled
    /\ np.shape filled = np.shape a
    /\ (forall i j, np.get 0 a i j <= np.get 0 filled i j)
    /\ (every (fun v => 0 <= v) a ->
        forall i j, np.get 0 a i j <> 0 -> np.get 0 filled i j <> 0).
Proof.
  intros Hseg R Hh Hw.
  exists (ndimage.grey_closing a (window, window)).
  assert (Hle : forall i j,
            np.get 0 a i j <= np.get 0 (ndimage.grey_closing a (window, window)) i j).
  { intros i j. destruct (Z_le_gt_dec window 1) as [Hsmall|Hbig].
    - rewrite grey_closing_small_window by exact Hsmall. lia.
    - assert (Hout : ~ ((i < fst (np.shape a))%nat /\ (j < snd (np.shape a))%nat) ->
                     np.get 0 a i j
                     <= np.get 0 (ndimage.grey_closing a (window, window)) i j).
      { intros Hout.
        assert (Ea : np.get 0 a i j = 0) by (apply get_outside; assumption).
        assert (Ec : np.get 0 (ndimage.grey_closing a (window, window)) i j = 0).
        { apply get_outside; [now apply rect_grey_closing|].
          now rewrite shape_grey_closing. }
        lia. }
      destruct (Nat.lt_ge_cases i (fst (np.shape a))) as [Hi|Hi]; [|apply Hout; lia].
      destruct (Nat.lt_ge_cases j (snd (np.shape a))) as [Hj|Hj]; [|apply Hout; lia].
      apply (@grey_closing_extensive (fst (np.shape a)) (snd (np.shape a)) window);
        try lia. now apply sized_rect. }
  split; [unfold FaceCube.hole_fill; now rewrite Hseg|].
  split; [apply shape_grey_closing|].
  split; [exact Hle|].
  intros Hnn i j Hne.
  assert (H0 : 0 <= np.get 0 a i j).
  { unfold every in Hnn. unfold np.get.
    destruct (Nat.lt_ge_cases i (length a)) as [Hi|Hi].
    - destruct (Nat.lt_ge_cases j (length (nth i a []))) as [Hj|Hj].
      + rewrite Forall_forall in Hnn. specialize (Hnn _ (nth_In a [] Hi)).
        rewrite Forall_forall in Hnn. apply Hnn. now apply nth_In.
      + rewrite nth_overflow by exact Hj. lia.
    - rewrite (nth_overflow a) by exact Hi. destruct j; cbn; lia. }
  specialize (Hle i j). lia.
Qed.

Lemma hole_fill_never_lowers_witness :
  let a := [[0; 600; 0]; [600; 0; 600]; [0; 600; 0]] in
  exists filled,
    FaceCube.segmented
      (FaceCube.hole_fill
         {| FaceCube.depth := a; FaceCube.threshold := Some a;
            FaceCube.segmented := Some a;
            FaceCube.selected_segment := Some (0, 1) |} 3) = Some filled
    /\ np.shape filled = (3%nat, 3%nat)
    /\ 0 <= np.get 0 filled 1 1.
Proof.
  intros a.
  pose (fc := {| FaceCube.depth := a; FaceCube.threshold := Some a;
                 FaceCube.segmented := Some a;
                 FaceCube.selected_segment := Some (0, 1) |}).
  fold fc.
  assert (R : np.rect a) by (repeat constructor).
  assert (Hh : 3 <= Z.of_nat (fst (np.shape a))) by (cbn; lia).
  assert (Hw : 3 <= Z.of_nat (snd (np.shape a))) by (cbn; lia).
  destruct (@hole_fill_never_lowers fc a 3 eq_refl R Hh Hw)
    as (filled & H1 & H2 & H3 & _).
  exists filled. split; [exact H1|]. split; [exact H2|].
  exact (H3 1%nat 1%nat).
Defined.
